(** * movie-stream: catalog acquisition and ranking engine

    A shallow embedding of the ranking, merge, cache-key, cache-TTL,
    discovery-cursor and critic-score code of the repository, and the
    properties of its specification settled against that embedding.

    Conventions of the embedding.
    - A JavaScript number read from an item is a [jsnum]: NaN, an infinity,
      or a finite value.  Finite values that come from the catalog are
      rationals ([Q]); the priority score, which goes through [Math.log10]
      and [Math.sqrt], is a real number ([R]): doubles are idealized as
      exact numbers, and an operation whose JavaScript result is NaN or an
      infinity has no value ([None]).
    - A numeric property of an item is a [numfield] (undefined, null, or a
      number); a string or array property is an [option].
    - An element of a movie array is an [option Movie]: [None] is a
      [null] slot.
    - Strings are byte strings; [trim] and [toLowerCase] act on ASCII.
    - [Date.now()] is an explicit argument [now] (epoch milliseconds).
    - A JavaScript [Map] whose insertion order is observable is an
      association list in insertion order; a map that is only looked up is
      a [gmap].
    - An asynchronous function is embedded call by call: every call runs to
      completion on the state the previous one left.

    The file has three parts: the embedding of the code, the
    specification-side definitions and sample data, and the properties. *)

From Stdlib Require Import ZArith QArith Qminmax Qround Reals Lra Lia.
From Stdlib Require Import List Permutation Sorted String Ascii OrderedTypeEx.
From stdpp Require Import gmap strings list pretty.

Set Default Proof Using "Type".
Set Warnings "-register-all".

(** ** JavaScript values *)

Inductive jsnum : Type :=
| NaN
| PosInf
| NegInf
| Fin (q : Q).

(** A numeric property of an object: absent, [null], or a number. *)
Inductive numfield : Type :=
| Undefined
| Null
| Num (n : jsnum).

(** [a ?? b] *)
Definition coalesce (a b : numfield) : numfield :=
  match a with
  | Undefined | Null => b
  | Num _ => a
  end.

(** [Number(v)] on a numeric property: [Number(undefined)] is NaN and
    [Number(null)] is 0. *)
Definition Number (v : numfield) : jsnum :=
  match v with
  | Undefined => NaN
  | Null => Fin 0
  | Num n => n
  end.

(** [Number.isFinite] *)
Definition isFinite (n : jsnum) : bool :=
  match n with
  | Fin _ => true
  | _ => false
  end.

(** [v != null] *)
Definition notNullish (v : numfield) : bool :=
  match v with
  | Undefined | Null => false
  | Num _ => true
  end.

(** Truthiness of a string property: missing and the empty string are
    falsy. *)
Definition truthyStr (s : option string) : bool :=
  match s with
  | Some (String _ _) => true
  | _ => false
  end.

(** [Array.isArray(a) && a.length] *)
Definition nonEmptyArray {A : Type} (a : option (list A)) : bool :=
  match a with
  | Some (_ :: _) => true
  | _ => false
  end.

(** ** Catalog items *)

(** [release_date]: falsy (missing or empty), a string that [Date] cannot
    parse, or a string that parses to an epoch-millisecond instant. *)
Inductive releaseDate : Type :=
| NoDate
| BadDate
| DateAt (ms : Z).

Definition truthyDate (d : releaseDate) : bool :=
  match d with
  | NoDate => false
  | _ => true
  end.

(** The critic-score bundle attached to an item. *)
Record CriticScores : Type := mkCriticScores {
  rottenTomatoes : option Z;
  metacritic : option Z;
  imdb : option Q
}.

Record Movie : Type := mkMovie {
  id : option Z;
  poster_path : option string;
  overview : option string;
  vote_average : numfield;
  score : numfield;
  vote_count : numfield;
  voteCount : numfield;
  release_date : releaseDate;
  criticScores : option CriticScores;
  directors : option (list string);
  topCast : option (list string);
  genre_ids : option (list Z);
  __priority : option R
}.

(** An entry of a movie array: [None] is a [null]/[undefined] slot. *)
Abbreviation entry := (option Movie).

Definition MIN_VOTE_AVERAGE : Q := 7.
Definition MIN_VOTE_COUNT : Z := 50.
Definition MIN_PRIORITY_RESULTS : nat := 12.

(** ** Quality thresholds and candidate selection *)

Definition meetsQualityThreshold (movie : entry) (minAverage minVotes : Q) : bool :=
  match movie with
  | None => false
  | Some m =>
      let average := Number (coalesce (coalesce (vote_average m) (score m)) (Num (Fin 0))) in
      let votes := Number (coalesce (coalesce (vote_count m) (voteCount m)) (Num (Fin 0))) in
      match average, votes with
      | Fin a, Fin v => Qle_bool minAverage a && Qle_bool minVotes v
      | _, _ => false
      end
  end.

Definition thresholds : list (Q * Q) :=
  [ (MIN_VOTE_AVERAGE, inject_Z MIN_VOTE_COUNT);
    (Qmax (65 # 10) (MIN_VOTE_AVERAGE - (5 # 10)),
     Qmax 25 (inject_Z (MIN_VOTE_COUNT / 2)));
    (6, 10) ]%Q.

(** The last resort of [selectPriorityCandidates]: both [vote_average] and
    [vote_count] are finite numbers. *)
Definition hasNumericRatingAndVotes (movie : entry) : bool :=
  let average := Number (coalesce (from_option vote_average Undefined movie) (Num NaN)) in
  let votes := Number (coalesce (from_option vote_count Undefined movie) (Num NaN)) in
  isFinite average && isFinite votes.

Definition isEmpty {A : Type} (l : list A) : bool :=
  match l with
  | [] => true
  | _ => false
  end.

(** The [for] loop over the thresholds, with [bestFallback] as loop state. *)
Fixpoint selectLoop (movies : list entry) (ths : list (Q * Q))
    (bestFallback : list entry) : list entry :=
  match ths with
  | [] =>
      if negb (isEmpty bestFallback) then bestFallback
      else List.filter hasNumericRatingAndVotes movies
  | (minAverage, minVotes) :: rest =>
      let filtered :=
        List.filter (fun movie => meetsQualityThreshold movie minAverage minVotes) movies in
      if (MIN_PRIORITY_RESULTS <=? length filtered)%nat then filtered
      else if negb (isEmpty filtered) && isEmpty bestFallback
           then selectLoop movies rest filtered
           else selectLoop movies rest bestFallback
  end.

Definition selectPriorityCandidates (movies : list entry) : list entry :=
  if isEmpty movies then [] else selectLoop movies thresholds [].

(** ** Priority score *)

Definition getVoteAverageValue (movie : entry) : option Q :=
  match movie with
  | None => None
  | Some m =>
      match Number (coalesce (vote_average m) (score m)) with
      | Fin v => Some v
      | _ => None
      end
  end.

Definition getVoteCountValue (movie : entry) : option Q :=
  match movie with
  | None => None
  | Some m =>
      match Number (coalesce (vote_count m) (voteCount m)) with
      | Fin v => Some v
      | _ => None
      end
  end.

(** [Math.max(0, getVoteCountValue(m) || 0)] *)
Definition clampedVotes (movie : entry) : Q :=
  Qmax 0 (default 0%Q (getVoteCountValue movie)).

(** [Math.max(...candidates.map(...), 1)] *)
Definition maxVotesOf (candidates : list entry) : Q :=
  fold_right Qmax 1%Q (map clampedVotes candidates).

(** [Math.max(0, Math.min(10, averageValue)) / 10] *)
Definition rawAverageOf (movie : entry) : Q :=
  Qmax 0 (Qmin 10 (default 0%Q (getVoteAverageValue movie))) / 10.

Definition yearMs : Z := 365 * 24 * 60 * 60 * 1000.

(** Arithmetic whose JavaScript result may leave the finite numbers:
    [None] stands for NaN or an infinity. *)
Definition js_div (a b : R) : option R :=
  if Req_dec_T b 0 then None else Some (a / b)%R.

Definition js_log10 (x : R) : option R :=
  if Rlt_dec 0 x then Some (ln x / ln 10)%R else None.

Definition js_sqrt (x : R) : option R :=
  if Rle_dec 0 x then Some (sqrt x) else None.

Definition recencyOfMovie (now : Z) (m : Movie) : R :=
  match release_date m with
  | NoDate => 0.5
  | BadDate => 0.5
  | DateAt release =>
      let diff := (now - release)%Z in
      if (diff <=? 0)%Z then 1
      else if (yearMs <=? diff)%Z then 0
      else 1 - IZR diff / IZR yearMs
  end%R.

(** The body of the [map] callback of [applyPriorityOrdering]; [None] when
    the callback throws on a [null] candidate or a step is not finite. *)
Definition priorityOf (now : Z) (maxVotes : Q) (movie : entry) : option R :=
  let rawAverage := Q2R (rawAverageOf movie) in
  let votes := Q2R (clampedVotes movie) in
  num ← js_log10 (votes + 1)%R;
  den ← js_log10 (Q2R maxVotes + 1)%R;
  voteVolume ← js_div num den;
  let confidence := Rmin 1 (votes / 150) in
  let adjustedAverage := (rawAverage * confidence + 0.6 * (1 - confidence))%R in
  m ← movie;
  let recency := recencyOfMovie now m in
  root ← js_sqrt (Rmax 0 voteVolume);
  Some ((adjustedAverage * 0.3) + (root * 0.5) + (recency * 0.2))%R.

(** [{ ...movie, __priority: priority }] *)
Definition withPriority (m : Movie) (priority : R) : Movie :=
  {| id := id m; poster_path := poster_path m; overview := overview m;
     vote_average := vote_average m; score := score m;
     vote_count := vote_count m; voteCount := voteCount m;
     release_date := release_date m; criticScores := criticScores m;
     directors := directors m; topCast := topCast m; genre_ids := genre_ids m;
     __priority := Some priority |}.

Definition scoreCandidate (now : Z) (maxVotes : Q) (movie : entry) : option Movie :=
  priority ← priorityOf now maxVotes movie;
  m ← movie;
  Some (withPriority m priority).

(** [a.__priority ?? 0] *)
Definition priorityValue (m : Movie) : R := default 0%R (__priority m).

(** [Array.prototype.sort] with the comparator
    [(a, b) => (b.__priority ?? 0) - (a.__priority ?? 0)]: the stable
    sort by decreasing priority.  [x] comes from before [ys] in the array,
    so it stays in front of every element it does not compare after. *)
Fixpoint insertByPriority (x : Movie) (ys : list Movie) : list Movie :=
  match ys with
  | [] => [x]
  | y :: ys' =>
      if Rle_dec (priorityValue y - priorityValue x) 0 then x :: ys
      else y :: insertByPriority x ys'
  end.

Definition sortByPriority (l : list Movie) : list Movie :=
  fold_right insertByPriority [] l.

Definition applyPriorityOrdering (now : Z) (movies : list entry) : option (list Movie) :=
  if isEmpty movies then Some []
  else
    let candidates := selectPriorityCandidates movies in
    if isEmpty candidates then Some []
    else
      let maxVotes := maxVotesOf candidates in
      scored ← mapM (scoreCandidate now maxVotes) candidates;
      Some (sortByPriority scored).

(** ** Merge of duplicates *)

Definition scoreMovieForMerge (movie : entry) : nat :=
  match movie with
  | None => 0
  | Some m =>
      (if truthyStr (poster_path m) then 3 else 0)
      + (if truthyStr (overview m) then 2 else 0)
      + (if notNullish (vote_average m) then 1 else 0)
      + (if notNullish (vote_count m) then 1 else 0)
      + (if truthyDate (release_date m) then 1 else 0)
      + (if criticScores m is Some _ then 1 else 0)
      + (if nonEmptyArray (directors m) then 1 else 0)
      + (if nonEmptyArray (topCast m) then 1 else 0)
      + (if nonEmptyArray (genre_ids m) then 1 else 0)
  end.

(** [String(movie.id)], the key of the [seen] map; [None] when the entry
    is [null] or has no id and is pushed through unmerged. *)
Definition mergeKey (movie : entry) : option string :=
  m ← movie; i ← id m; Some (pretty i).

(** The state of the [forEach] of [dedupeMoviesById]: the [seen] map from
    key to [(index, score)] and the [result] array. *)
Definition dedupeState : Type := gmap string (nat * nat) * list entry.

Definition dedupeStep (st : dedupeState) (movie : entry) : dedupeState :=
  let '(seen, result) := st in
  match mergeKey movie with
  | None => (seen, result ++ [movie])
  | Some key =>
      let score := scoreMovieForMerge movie in
      match seen !! key with
      | None => (<[key := (length result, score)]> seen, result ++ [movie])
      | Some existing =>
          if (existing.2 <? score)%nat
          then (<[key := (existing.1, score)]> seen, <[existing.1 := movie]> result)
          else (seen, result)
      end
  end.

Definition dedupeMoviesById (movies : list entry) : list entry :=
  if isEmpty movies then movies else (foldl dedupeStep (∅, []) movies).2.

(** * JavaScript maps in insertion order *)

(** A [Map] with string keys whose iteration order is observable: its
    entries in insertion order.  Keys occur once. *)
Fixpoint mapGet {V : Type} (key : string) (m : list (string * V)) : option V :=
  match m with
  | [] => None
  | (k, v) :: m' => if String.eqb k key then Some v else mapGet key m'
  end.

(** [Map.prototype.set]: an existing key keeps its place, a new key goes
    last. *)
Fixpoint mapSet {V : Type} (key : string) (value : V) (m : list (string * V))
    : list (string * V) :=
  match m with
  | [] => [(key, value)]
  | (k, v) :: m' =>
      if String.eqb k key then (k, value) :: m' else (k, v) :: mapSet key value m'
  end.

Fixpoint mapDelete {V : Type} (key : string) (m : list (string * V)) : list (string * V) :=
  match m with
  | [] => []
  | (k, v) :: m' => if String.eqb k key then m' else (k, v) :: mapDelete key m'
  end.


(** * The tiered response cache (server side) *)

Module Cache.

(** ** Key derivation *)

(** A cache key part: [null]/[undefined], a string, a number (an integer,
    printed in decimal), a boolean, a [URLSearchParams] (its entries in
    insertion order), an array, or a plain object (its own properties in
    property order). *)
Inductive part : Type :=
| PNull
| PStr (s : string)
| PNum (n : Z)
| PBool (b : bool)
| PParams (entries : list (string * string))
| PArr (items : list part)
| PObj (props : list (string * part)).

(** [Array.prototype.sort] with a comparator that answers with a sign:
    the stable sort.  [x] stood before [ys] in the array and stays in
    front of the first element it does not compare after. *)
Fixpoint insertSorted {A : Type} (cmp : A -> A -> comparison) (x : A) (ys : list A) : list A :=
  match ys with
  | [] => [x]
  | y :: ys' =>
      match cmp x y with
      | Gt => y :: insertSorted cmp x ys'
      | _ => x :: ys
      end
  end.

Definition stableSort {A : Type} (cmp : A -> A -> comparison) (l : list A) : list A :=
  fold_right (insertSorted cmp) [] l.

(** [Array.prototype.join] *)
Definition join (sep : string) (l : list string) : string := String.concat sep l.

Definition stringOfBool (b : bool) : string := if b then "true" else "false".

Section Collation.

(** [String.prototype.localeCompare], as the sign of its result. *)
Variable localeCompare : string -> string -> comparison.

(** The comparator [([keyA], [keyB]) => keyA.localeCompare(keyB)]. *)
Definition compareKeys {V : Type} (a b : string * V) : comparison :=
  localeCompare a.1 b.1.

(** The source sorts the entries of an object and then serializes each
    value; the comparator reads the keys only, so the embedding serializes
    the values first (which keeps the recursion structural) and sorts the
    serialized entries by the same comparator. *)
Fixpoint serializePart (p : part) : string :=
  match p with
  | PNull => ""
  | PStr s => s
  | PNum n => pretty n
  | PBool b => stringOfBool b
  | PParams entries => join "&" (map (fun kv => kv.1 +:+ "=" +:+ kv.2) entries)
  | PArr items => join "|" (map serializePart items)
  | PObj props =>
      join ","
        (map (fun kv => kv.1 +:+ ":" +:+ kv.2)
           (stableSort compareKeys (map (fun kv => (kv.1, serializePart kv.2)) props)))
  end.

End Collation.

(** *** Base64 *)

Definition base64Alphabet : list ascii :=
  list_ascii_of_string
    "ABCDEFGHIJKLMNOPQRSTUVWXYZabcdefghijklmnopqrstuvwxyz0123456789+/".

Definition base64Digit (n : N) : ascii :=
  nth (N.to_nat n) base64Alphabet "="%char.

(** [Buffer.toString('base64')] of a byte sequence, with [=] padding. *)
Fixpoint base64Encode (bytes : list N) : string :=
  match bytes with
  | [] => ""
  | [a] =>
      String (base64Digit (a / 4))
        (String (base64Digit ((a mod 4) * 16)) "==")
  | [a; b] =>
      String (base64Digit (a / 4))
        (String (base64Digit ((a mod 4) * 16 + b / 16))
           (String (base64Digit ((b mod 16) * 4)) "="))
  | a :: b :: c :: rest =>
      String (base64Digit (a / 4))
        (String (base64Digit ((a mod 4) * 16 + b / 16))
           (String (base64Digit ((b mod 16) * 4 + c / 64))
              (String (base64Digit (c mod 64)) (base64Encode rest))))
  end%N.

(** [.replace(/\+/g, '-').replace(/\//g, '_')] *)
Fixpoint urlSafe (s : string) : string :=
  match s with
  | EmptyString => EmptyString
  | String c s' =>
      String (if Ascii.eqb c "+" then "-" else if Ascii.eqb c "/" then "_" else c)%char
        (urlSafe s')
  end.

(** [.replace(/=+$/g, '')] *)
Fixpoint stripPadding (s : string) : string :=
  match s with
  | EmptyString => EmptyString
  | String c s' =>
      match stripPadding s' with
      | EmptyString => if Ascii.eqb c "=" then EmptyString else String c EmptyString
      | rest => String c rest
      end
  end.

(** Strings are byte strings: the UTF-8 encoding of the JavaScript
    string. *)
Definition bytesOf (s : string) : list N := map N_of_ascii (list_ascii_of_string s).

Definition buildCacheId (localeCompare : string -> string -> comparison) (parts : part) : string :=
  let normalized :=
    match parts with
    | PArr items => map (serializePart localeCompare) items
    | _ => [serializePart localeCompare parts]
    end in
  let raw := join "||" normalized in
  stripPadding (urlSafe (base64Encode (bytesOf raw))).


(** ** The in-memory fallback and the durable store *)

Definition MAX_IN_MEMORY_CACHE_ENTRIES : nat := 500.

(** What a caller hands to the cache: any field may be missing or of the
    wrong type ([None]). *)
Record Payload : Type := mkPayload {
  status : option Z;
  contentType : option string;
  body : option string;
  metadata : option string
}.

(** A normalized response, as the cache returns it. *)
Record Response : Type := mkResponse {
  r_status : Z;
  r_contentType : string;
  r_body : string;
  r_metadata : option string
}.

(** An entry of the in-memory map. *)
Record MemEntry : Type := mkMemEntry {
  m_response : Response;
  m_fetchedAt : Z
}.

(** A document of the durable store, as [snap.data()] shows it;
    [d_fetchedAt] is [fetchedAt.toMillis()] when there is a timestamp. *)
Record Doc : Type := mkDoc {
  d_status : option Z;
  d_contentType : option string;
  d_body : option string;
  d_metadata : option string;
  d_fetchedAt : option Z
}.

(** [getFirestore()]: no database, or a database with its documents by
    (collection, document id); an unhealthy database throws on every
    call. *)
Inductive Firestore : Type :=
| NoFirestore
| Db (healthy : bool) (docs : gmap (string * string) Doc).

(** The in-memory map, from document ids, in insertion order. *)
Definition MemCache : Type := list (string * MemEntry).

Definition nonEmptyString (s : option string) : option string :=
  match s with
  | Some (String c s') => Some (String c s')
  | _ => None
  end.

(** [typeof ttlMs === 'number' && ttlMs > 0 && now - fetchedAt > ttlMs] *)
Definition expired (ttlMs : option Z) (now fetchedAt : Z) : bool :=
  match ttlMs with
  | Some ttl => (0 <? ttl)%Z && (ttl <? now - fetchedAt)%Z
  | None => false
  end.

Definition positiveTtl (ttlMs : option Z) : bool :=
  match ttlMs with
  | Some ttl => (0 <? ttl)%Z
  | None => false
  end.

Section Backend.

(** The module constant [REQUIRE_FIRESTORE], read from the environment. *)
Variable REQUIRE_FIRESTORE : bool.

Definition rememberInMemory (docId : string) (payload : Payload) (fetchedAt : Z)
    (cache : MemCache) : MemCache :=
  if REQUIRE_FIRESTORE then cache
  else
    match docId, nonEmptyString (body payload) with
    | String _ _, Some b =>
        let normalizedPayload :=
          {| m_response :=
               {| r_status := default 200%Z (status payload);
                  r_contentType :=
                    default "application/json"%string (nonEmptyString (contentType payload));
                  r_body := b;
                  r_metadata := metadata payload |};
             m_fetchedAt := fetchedAt |} in
        let cache' := mapSet docId normalizedPayload cache in
        if (MAX_IN_MEMORY_CACHE_ENTRIES <? length cache')%nat
        then match cache' with
             | (firstKey, _) :: _ => mapDelete firstKey cache'
             | [] => cache'
             end
        else cache'
    | _, _ => cache
    end.

Definition readInMemoryCache (docId : string) (ttlMs : option Z) (now : Z)
    (cache : MemCache) : option Response * MemCache :=
  if REQUIRE_FIRESTORE then (None, cache)
  else
    match docId with
    | EmptyString => (None, cache)
    | _ =>
        match mapGet docId cache with
        | None => (None, cache)
        | Some entry =>
            if expired ttlMs now (m_fetchedAt entry)
            then (None, mapDelete docId cache)
            else (Some (m_response entry), cache)
        end
    end.

(** The fallback taken at every miss of the durable store. *)
Definition fallbackRead (docId : string) (ttlMs : option Z) (now : Z)
    (cache : MemCache) : option Response * MemCache :=
  if REQUIRE_FIRESTORE then (None, cache) else readInMemoryCache docId ttlMs now cache.

Definition payloadOfResponse (r : Response) : Payload :=
  {| status := Some (r_status r); contentType := Some (r_contentType r);
     body := Some (r_body r); metadata := r_metadata r |}.

Definition readCachedResponse (localeCompare : string -> string -> comparison)
    (collection : string) (parts : part) (ttlMs : option Z) (now : Z)
    (db : Firestore) (cache : MemCache) : option Response * MemCache :=
  let docId := buildCacheId localeCompare parts in
  match db with
  | NoFirestore => fallbackRead docId ttlMs now cache
  | Db false _ => fallbackRead docId ttlMs now cache
  | Db true docs =>
      match docs !! (collection, docId) with
      | None => fallbackRead docId ttlMs now cache
      | Some data =>
          match nonEmptyString (d_body data) with
          | None => fallbackRead docId ttlMs now cache
          | Some b =>
              let payload :=
                {| r_status := default 200%Z (d_status data);
                   r_contentType :=
                     default "application/json"%string (nonEmptyString (d_contentType data));
                   r_body := b;
                   r_metadata := d_metadata data |} in
              match d_fetchedAt data with
              | Some fetchedMs =>
                  if (fetchedMs =? 0)%Z then
                    if positiveTtl ttlMs then fallbackRead docId ttlMs now cache
                    else (Some payload,
                          rememberInMemory docId (payloadOfResponse payload) now cache)
                  else if expired ttlMs now fetchedMs
                  then (None, mapDelete docId cache)
                  else (Some payload,
                        rememberInMemory docId (payloadOfResponse payload) fetchedMs cache)
              | None =>
                  if positiveTtl ttlMs then fallbackRead docId ttlMs now cache
                  else (Some payload,
                        rememberInMemory docId (payloadOfResponse payload) now cache)
              end
          end
      end
  end.

(** [now] is both [Date.now()] of the process and the instant the store
    assigns to [serverTimestamp()]. *)
Definition writeCachedResponse (localeCompare : string -> string -> comparison)
    (collection : string) (parts : part) (payload : Payload) (now : Z)
    (db : Firestore) (cache : MemCache) : Firestore * MemCache :=
  match nonEmptyString (body payload) with
  | None => (db, cache)
  | Some b =>
      let docId := buildCacheId localeCompare parts in
      let normalizedPayload :=
        {| status := Some (default 200%Z (status payload));
           contentType :=
             Some (default "application/json"%string (nonEmptyString (contentType payload)));
           body := Some b;
           metadata := metadata payload |} in
      let cache' := rememberInMemory docId normalizedPayload now cache in
      match db with
      | NoFirestore => (db, cache')
      | Db false _ => (db, cache')
      | Db true docs =>
          (Db true
             (<[(collection, docId) :=
                  {| d_status := status normalizedPayload;
                     d_contentType := contentType normalizedPayload;
                     d_body := body normalizedPayload;
                     d_metadata := metadata normalizedPayload;
                     d_fetchedAt := Some now |}]> docs),
           cache')
      end
  end.

End Backend.

End Cache.

(** * The upstream proxy's cache keys *)

Module TmdbProxy.

(** ASCII white space, as removed by [String.prototype.trim]. *)
Definition isSpace (c : ascii) : bool :=
  let n := N_of_ascii c in
  ((9 <=? n) && (n <=? 13) || (n =? 32))%N.

Fixpoint trimStart (s : string) : string :=
  match s with
  | EmptyString => EmptyString
  | String c s' => if isSpace c then trimStart s' else s
  end.

Fixpoint trimEnd (s : string) : string :=
  match s with
  | EmptyString => EmptyString
  | String c s' =>
      match trimEnd s' with
      | EmptyString => if isSpace c then EmptyString else String c EmptyString
      | rest => String c rest
      end
  end.

Definition trim (s : string) : string := trimEnd (trimStart s).

Section Collation.

Variable localeCompare : string -> string -> comparison.

(** The comparator of [normalizeTmdbParams]: by key, entries with the
    same key by value. *)
Definition compareParams (a b : string * string) : comparison :=
  if String.eqb a.1 b.1 then localeCompare a.2 b.2 else localeCompare a.1 b.1.

(** [params] is the entry list of a [URLSearchParams], or [None] for a
    missing one. *)
Definition normalizeTmdbParams (params : option (list (string * string))) : list (string * string) :=
  match params with
  | None => []
  | Some entries =>
      Cache.stableSort compareParams
        (List.filter (fun kv => negb (String.eqb kv.1 "api_key")) entries)
  end.

(** The [parts] of [tmdbCacheKeyParts]. *)
Definition tmdbCacheKeyParts (path : option string) (params : option (list (string * string)))
    : Cache.part :=
  let normalizedPath := trim (default ""%string path) in
  let normalizedParams := normalizeTmdbParams params in
  let serializedParams :=
    Cache.join "&" (map (fun entry => entry.1 +:+ "=" +:+ entry.2) normalizedParams) in
  Cache.PArr [Cache.PStr "tmdb"; Cache.PStr normalizedPath; Cache.PStr serializedParams].

(** The document id that [readTmdbCache] and [writeTmdbCache] use. *)
Definition tmdbCacheId (path : option string) (params : option (list (string * string))) : string :=
  Cache.buildCacheId localeCompare (tmdbCacheKeyParts path params).

End Collation.

End TmdbProxy.

(** * The progressive discovery cursor (client side) *)

Module Discover.

Definition INITIAL_DISCOVER_PAGES : Z := 3.
Definition MAX_DISCOVER_PAGES : Z := 10.
Definition MAX_DISCOVER_PAGES_LIMIT : Z := 30.
Definition TMDB_DISCOVER_HISTORY_LIMIT : nat := 50.

(** An entry of [tmdbDiscoverHistory].  Page numbers are integers;
    [totalPages = None] is [null]. *)
Record DiscoverState : Type := mkDiscoverState {
  nextPage : Z;
  allowedPages : Z;
  totalPages : option Z;
  exhausted : bool;
  updatedAt : Z;
  lastAttempt : option Z
}.

(** [tmdbDiscoverHistory]: a [Map] from signature to state. *)
Definition History : Type := list (string * DiscoverState).

(** The active feed filters that enter the signature. *)
Record FeedFilterState : Type := mkFeedFilterState {
  minRating : string;
  minVotes : string;
  startYear : string;
  endYear : string;
  selectedGenres : string
}.

Definition buildTmdbDiscoverKey (usingProxy : bool) (feedFilterState : FeedFilterState) : string :=
  let parts :=
    [ if usingProxy then "proxy" else "direct";
      minRating feedFilterState;
      minVotes feedFilterState;
      startYear feedFilterState;
      endYear feedFilterState;
      selectedGenres feedFilterState ]%string in
  Cache.join "|" (map TmdbProxy.trim parts).

(** [Number.isFinite(v) && v > 0 ? Math.floor(v) : fallback] on an
    integer that may be [null]. *)
Definition positiveOr (fallback : Z) (v : option Z) : Z :=
  match v with
  | Some n => if (0 <? n)%Z then n else fallback
  | None => fallback
  end.

Definition positiveOrNull (v : option Z) : option Z :=
  match v with
  | Some n => if (0 <? n)%Z then Some n else None
  | None => None
  end.

(** [normalizeTmdbDiscoverStateEntry] on an object whose numeric fields
    are integers or [null], as the cursor writes build it; [now] is
    [Date.now()].  The persisted entries that hydration reads can hold
    anything: [DiscoverStore.normalizeTmdbDiscoverStateEntry] is the
    function on those. *)
Definition normalizeTmdbDiscoverStateEntry (now : Z)
    (rawNextPage rawAllowedPages rawTotalPages : option Z) (rawExhausted : bool)
    (rawUpdatedAt rawLastAttempt : option Z) : DiscoverState :=
  let nextPage := positiveOr 1 rawNextPage in
  let allowedPages :=
    Z.max (Z.max MAX_DISCOVER_PAGES (positiveOr MAX_DISCOVER_PAGES rawAllowedPages)) nextPage in
  {| nextPage := nextPage;
     allowedPages := allowedPages;
     totalPages := positiveOrNull rawTotalPages;
     exhausted := rawExhausted;
     updatedAt :=
       positiveOr now (match rawUpdatedAt with Some u => Some u | None => rawLastAttempt end);
     lastAttempt := positiveOrNull rawLastAttempt |}.

(** The [while] loop that drops the oldest signatures. *)
Fixpoint evictOldest (fuel : nat) (h : History) : History :=
  match fuel with
  | O => h
  | S fuel' =>
      if (TMDB_DISCOVER_HISTORY_LIMIT <? length h)%nat
      then match h with
           | (oldest, _) :: _ => evictOldest fuel' (mapDelete oldest h)
           | [] => h
           end
      else h
  end.

Definition readTmdbDiscoverState (key : string) (h : History) : option DiscoverState :=
  match key with
  | EmptyString => None
  | _ => mapGet key h
  end.

(** What [commitProgress] hands to [writeTmdbDiscoverState]. *)
Record Progress : Type := mkProgress {
  p_nextPage : Z;
  p_allowedPages : Z;
  p_totalPages : option Z;
  p_exhausted : bool
}.

Definition sameCursor (a b : DiscoverState) : bool :=
  (nextPage a =? nextPage b)%Z
  && (allowedPages a =? allowedPages b)%Z
  && bool_decide (totalPages a = totalPages b)
  && Bool.eqb (exhausted a) (exhausted b).

Definition writeTmdbDiscoverState (now : Z) (key : string) (state : Progress) (h : History)
    : History :=
  match key with
  | EmptyString => h
  | _ =>
      let normalizedTotal := positiveOrNull (p_totalPages state) in
      let normalizedAllowed := positiveOr MAX_DISCOVER_PAGES (Some (p_allowedPages state)) in
      let nextPage := positiveOr 1 (Some (p_nextPage state)) in
      let payload :=
        normalizeTmdbDiscoverStateEntry now (Some nextPage) (Some normalizedAllowed)
          normalizedTotal (p_exhausted state) (Some now) (Some now) in
      match mapGet key h with
      | Some existing =>
          if sameCursor existing payload
          then mapSet key
                 {| nextPage := Discover.nextPage existing;
                    allowedPages := allowedPages existing;
                    totalPages := totalPages existing;
                    exhausted := exhausted existing;
                    updatedAt := updatedAt payload;
                    lastAttempt := lastAttempt payload |} h
          else
            let h' := mapSet key payload (mapDelete key h) in
            evictOldest (length h') h'
      | None =>
          let h' := mapSet key payload (mapDelete key h) in
          evictOldest (length h') h'
      end
  end.

(** One upstream page request: the page's results and the total page
    count it reports ([null] when it is not a positive number), or a
    thrown error. *)
Inductive PageResponse : Type :=
| Page (results : list entry) (reportedTotal : option Z)
| PageError.

(** The local variables of [fetchMoviesFromTmdb] that the loop updates;
    [l_totalPages = None] is [Infinity], [l_fetched] lists the pages
    requested so far. *)
Record LoopState : Type := mkLoopState {
  l_page : Z;
  l_allowedPages : Z;
  l_totalPages : option Z;
  l_seen : gset string;
  l_collected : list entry;
  l_prioritized : list Movie;
  l_fetched : list Z
}.

(** How the loop is left. *)
Inductive LoopExit : Type :=
| Enough (st : LoopState)
| Finished (reachedEnd : bool) (st : LoopState)
| Threw (st : LoopState)
| OutOfFuel.

(** The result of one call: the promise resolves with the ranked
    movies, or rejects; either way with the history and the pages
    requested from upstream. *)
Inductive Outcome : Type :=
| Resolved (movies : list Movie) (h : History) (fetched : list Z)
| Rejected (h : History) (fetched : list Z)
| Diverged.

(** The [forEach] that merges movies into [collected]: entries without
    an id and ids already seen are skipped; suppressed ids are marked
    seen but not collected. *)
Definition collectStep (suppressedIds : gset string) (acc : gset string * list entry)
    (movie : entry) : gset string * list entry :=
  match mergeKey movie with
  | None => acc
  | Some idKey =>
      if bool_decide (idKey ∈ acc.1) then acc
      else if bool_decide (idKey ∈ suppressedIds)
           then ({[idKey]} ∪ acc.1, acc.2)
           else ({[idKey]} ∪ acc.1, acc.2 ++ [movie])
  end.

Section Call.

(** [applyFeedFilters], with the filter state it reads; it is left
    open, the cursor behaves the same whatever it keeps. *)
Variable applyFeedFilters : list Movie -> list Movie.
(** [Date.now()], taken as constant during one call. *)
Variable now : Z.
Variable minFeedSize : nat.
Variable suppressedIds : gset string.
(** [fetchDiscoverPageFromProxy] or [fetchDiscoverPageDirect]. *)
Variable fetchDiscoverPage : Z -> PageResponse.

(** [applyPriorityOrdering(collected)]; the ordering never throws. *)
Definition rank (collected : list entry) : list Movie :=
  default [] (applyPriorityOrdering now collected).

Definition leInfinity (page : Z) (totalPages : option Z) : bool :=
  match totalPages with
  | Some t => (page <=? t)%Z
  | None => true
  end.

Fixpoint discoverLoop (fuel : nat) (st : LoopState) : LoopExit :=
  if negb ((l_page st <=? l_allowedPages st)%Z && leInfinity (l_page st) (l_totalPages st))
  then Finished false st
  else
    match fuel with
    | O => OutOfFuel
    | S fuel' =>
        let currentPage := l_page st in
        match fetchDiscoverPage currentPage with
        | PageError =>
            Threw {| l_page := l_page st; l_allowedPages := l_allowedPages st;
                     l_totalPages := l_totalPages st; l_seen := l_seen st;
                     l_collected := l_collected st; l_prioritized := l_prioritized st;
                     l_fetched := l_fetched st ++ [currentPage] |}
        | Page pageResults reportedTotal =>
            let totalPages :=
              match positiveOrNull reportedTotal with
              | Some t => Some t
              | None => l_totalPages st
              end in
            let merged :=
              foldl (collectStep suppressedIds) (l_seen st, l_collected st) pageResults in
            let prioritized := rank merged.2 in
            let feedMovies := applyFeedFilters prioritized in
            let fetched := l_fetched st ++ [currentPage] in
            if (minFeedSize <=? length feedMovies)%nat
            then Enough {| l_page := currentPage + 1; l_allowedPages := l_allowedPages st;
                           l_totalPages := totalPages; l_seen := merged.1;
                           l_collected := merged.2; l_prioritized := prioritized;
                           l_fetched := fetched |}
            else if isEmpty pageResults
                    && match totalPages with
                       | None => true
                       | Some t => (t <=? currentPage)%Z
                       end
            then Finished true
                   {| l_page := currentPage + 1; l_allowedPages := l_allowedPages st;
                      l_totalPages := totalPages; l_seen := merged.1;
                      l_collected := merged.2; l_prioritized := prioritized;
                      l_fetched := fetched |}
            else
              let page := (currentPage + 1)%Z in
              let allowedPages :=
                if (l_allowedPages st <? page)%Z
                   && (l_allowedPages st <? MAX_DISCOVER_PAGES_LIMIT)%Z
                then Z.min MAX_DISCOVER_PAGES_LIMIT
                       (Z.max (l_allowedPages st + INITIAL_DISCOVER_PAGES) page)
                else l_allowedPages st in
              discoverLoop fuel'
                {| l_page := page; l_allowedPages := allowedPages;
                   l_totalPages := totalPages; l_seen := merged.1;
                   l_collected := merged.2; l_prioritized := prioritized;
                   l_fetched := fetched |}
        end
    end.

(** [commitProgress], called once the loop has made a request. *)
Definition commitProgress (requestKey : string) (exhaustedArg : option bool)
    (reachedEnd : bool) (st : LoopState) (h : History) : History :=
  match l_fetched st with
  | [] => h
  | _ =>
      let normalizedTotal := positiveOrNull (l_totalPages st) in
      let payload :=
        {| p_nextPage := Z.max 1 (l_page st);
           p_allowedPages := Z.max (Z.max (l_allowedPages st) MAX_DISCOVER_PAGES) (l_page st);
           p_totalPages := normalizedTotal;
           p_exhausted :=
             match exhaustedArg with
             | Some e => e
             | None =>
                 reachedEnd
                 && match normalizedTotal with
                    | None => true
                    | Some t => (t <=? l_page st - 1)%Z
                    end
             end |} in
      writeTmdbDiscoverState now requestKey payload h
  end.

(** Enough iterations for any run of the loop: the page grows by one
    each time and the ceiling never grows beyond the larger of its
    start and the absolute limit. *)
Definition loopFuel (page allowedPages : Z) : nat :=
  Z.to_nat (Z.max allowedPages MAX_DISCOVER_PAGES_LIMIT - page + 1).

Definition fetchMoviesFromTmdb (requestKey : string) (existingMovies : list entry)
    (h : History) : Outcome :=
  let start := foldl (collectStep ∅) (∅, []) existingMovies in
  let prioritized := rank start.2 in
  if (minFeedSize <=? length (applyFeedFilters prioritized))%nat
  then Resolved prioritized h []
  else
    let history := readTmdbDiscoverState requestKey h in
    let page :=
      Z.max 1 (match history with
               | Some e => if (nextPage e =? 0)%Z then 1 else nextPage e
               | None => 1
               end) in
    let allowedPages :=
      Z.max (Z.max MAX_DISCOVER_PAGES
               (positiveOr MAX_DISCOVER_PAGES (allowedPages <$> history))) page in
    let totalPages := positiveOrNull (history ≫= totalPages) in
    let skip :=
      match history with
      | Some e =>
          exhausted e
          && match positiveOrNull (Discover.totalPages e) with
             | Some t => (t <? page)%Z
             | None => false
             end
      | None => false
      end in
    let final (movies : list Movie) (collected : list entry) :=
      if isEmpty movies then rank collected else movies in
    if skip then Resolved (final prioritized start.2) h []
    else
      match discoverLoop (loopFuel page allowedPages)
              {| l_page := page; l_allowedPages := allowedPages;
                 l_totalPages := totalPages; l_seen := start.1;
                 l_collected := start.2; l_prioritized := prioritized;
                 l_fetched := [] |} with
      | Enough st =>
          Resolved (l_prioritized st) (commitProgress requestKey (Some false) false st h)
            (l_fetched st)
      | Finished reachedEnd st =>
          let reachedEnd' :=
            reachedEnd
            || (negb reachedEnd && negb (isEmpty (l_fetched st))
                && match positiveOrNull (l_totalPages st) with
                   | Some t => (t <? l_page st)%Z
                   | None => false
                   end) in
          Resolved (final (l_prioritized st) (l_collected st))
            (commitProgress requestKey None reachedEnd' st h) (l_fetched st)
      | Threw st => Rejected h (l_fetched st)
      | OutOfFuel => Diverged
      end.

End Call.

End Discover.

(** * Critic-score enrichment state (client side) *)

Module Critic.

Inductive Status : Type := idle | loading | loaded | error.

(** The identifying properties of a movie object; [None] is a property
    that is missing or not a string. *)
Record ItemInfo : Type := mkItemInfo {
  id : option Z;
  imdb_id : option string;
  imdbId : option string;
  title : option string;
  name : option string;
  release_date : option string
}.

(** [a || b] on strings: the first non-empty one. *)
Definition orElse (a b : string) : string :=
  match a with
  | EmptyString => b
  | _ => a
  end.

Definition isDigit (c : ascii) : bool :=
  let n := N_of_ascii c in ((48 <=? n) && (n <=? 57))%N.

(** ASCII [toLowerCase]. *)
Definition lowerChar (c : ascii) : ascii :=
  let n := N_of_ascii c in
  if ((65 <=? n) && (n <=? 90))%N then ascii_of_N (n + 32) else c.

Fixpoint toLowerCase (s : string) : string :=
  match s with
  | EmptyString => EmptyString
  | String c s' => String (lowerChar c) (toLowerCase s')
  end.

(** [s.split('-')[0]] *)
Fixpoint beforeDash (s : string) : string :=
  match s with
  | EmptyString => EmptyString
  | String c s' => if Ascii.eqb c "-" then EmptyString else String c (beforeDash s')
  end.

Definition fourDigits (s : string) : bool :=
  match s with
  | String a (String b (String c (String d EmptyString))) =>
      isDigit a && isDigit b && isDigit c && isDigit d
  | _ => false
  end.

(** The match of [/^(\d{4})/]. *)
Definition leadingYear (s : string) : option string :=
  match s with
  | String a (String b (String c (String d _))) =>
      if isDigit a && isDigit b && isDigit c && isDigit d
      then Some (String a (String b (String c (String d EmptyString))))
      else None
  | _ => None
  end.

Definition trimmed (s : option string) : string := TmdbProxy.trim (default ""%string s).

Definition getMovieCacheKey (movie : ItemInfo) : option string :=
  match id movie with
  | Some i => Some ("tmdb:" +:+ pretty i)
  | None =>
      let imdbIdRaw := orElse (default "" (imdb_id movie)) (default "" (imdbId movie)) in
      let imdbId := TmdbProxy.trim imdbIdRaw in
      match imdbId with
      | String _ _ => Some ("imdb:" +:+ imdbId)
      | EmptyString =>
          let titleSource := orElse (trimmed (title movie)) (trimmed (name movie)) in
          match titleSource with
          | EmptyString => None
          | _ =>
              let normalizedTitle := toLowerCase titleSource in
              let year :=
                let first := beforeDash (trimmed (release_date movie)) in
                if fourDigits first then first else "" in
              Some ("title:" +:+ normalizedTitle +:+ "|year:" +:+ year)
          end
      end
  end%string.

Record Lookup : Type := mkLookup {
  lookupImdbId : option string;
  lookupTitle : option string;
  lookupYear : option string
}.

Definition buildCriticLookup (movie : ItemInfo) : option Lookup :=
  let imdbIdRaw := orElse (default "" (imdb_id movie)) (default "" (imdbId movie)) in
  let imdbId := TmdbProxy.trim imdbIdRaw in
  let titleSource := orElse (trimmed (title movie)) (trimmed (name movie)) in
  let year := leadingYear (trimmed (release_date movie)) in
  match imdbId, titleSource with
  | EmptyString, EmptyString => None
  | _, _ =>
      Some {| lookupImdbId := Cache.nonEmptyString (Some imdbId);
              lookupTitle := Cache.nonEmptyString (Some titleSource);
              lookupYear := year |}
  end%string.

Section Scores.

(** Score objects, and [normalizeCriticScoresObject] on an object. *)
Variable Scores : Type.
Variable normalizeCriticScoresObject : Scores -> Scores.

Record CriticState : Type := mkCriticState {
  status : Status;
  data : option Scores;
  error_message : option string
}.

(** A movie object as the enrichment code sees it: its identity and the
    two properties the code writes. *)
Record Item : Type := mkItem {
  info : ItemInfo;
  criticScores : option Scores;
  criticScoresState : option CriticState
}.

(** [criticScoreStateById] *)
Definition Store : Type := gmap string CriticState.

(** [a || b] on nullable objects. *)
Definition orData (a b : option Scores) : option Scores :=
  match a with
  | Some _ => a
  | None => b
  end.

Definition getCriticScoreState (movie : Item) (store : Store) : CriticState * Item * Store :=
  match criticScoresState movie with
  | Some state => (state, movie, store)
  | None =>
      let key := getMovieCacheKey (info movie) in
      let existingMovieScores := normalizeCriticScoresObject <$> criticScores movie in
      match key ≫= (fun k => store !! k) with
      | Some state =>
          let scores :=
            match data state, existingMovieScores with
            | Some d, None => Some d
            | _, _ => criticScores movie
            end in
          (state,
           {| info := info movie; criticScores := scores; criticScoresState := Some state |},
           store)
      | None =>
          match existingMovieScores with
          | Some scores =>
              let state := {| status := loaded; data := Some scores; error_message := None |} in
              (state,
               {| info := info movie; criticScores := Some scores;
                  criticScoresState := Some state |},
               match key with
               | Some k => <[k := state]> store
               | None => store
               end)
          | None =>
              ({| status := idle; data := None; error_message := None |}, movie, store)
          end
      end
  end.

(** [setCriticScoreState(movie, state)]; [state] carries the status, the
    optional data and the optional error of the object literal passed. *)
Definition setCriticScoreState (movie : Item) (state : CriticState) (store : Store)
    : Item * Store :=
  let key := getMovieCacheKey (info movie) in
  let existing := key ≫= (fun k => store !! k) in
  let normalizedData := normalizeCriticScoresObject <$> data state in
  let existingMovieScores := normalizeCriticScoresObject <$> criticScores movie in
  let fallbackData :=
    orData normalizedData (orData (existing ≫= data) existingMovieScores) in
  let nextData :=
    match status state with
    | loaded => orData normalizedData fallbackData
    | loading => orData normalizedData fallbackData
    | error => fallbackData
    | idle => orData normalizedData fallbackData
    end in
  let nextState :=
    {| status := status state;
       data := nextData;
       error_message := Cache.nonEmptyString (error_message state) |} in
  let scores :=
    match status state, nextData with
    | loaded, Some d => Some d
    | _, _ => criticScores movie
    end in
  ({| info := info movie; criticScores := scores; criticScoresState := Some nextState |},
   match key with
   | Some k => <[k := nextState]> store
   | None => store
   end).

(** The synchronous part of [requestCriticScores], up to the [fetch]:
    either the call is over (with the value it returns), or a request is
    pending for the lookup. *)
Inductive Started : Type :=
| Returned (value : option Scores) (movie : Item) (store : Store)
| Pending (lookup : Lookup) (movie : Item) (store : Store).

Definition requestStart (movie : Item) (force : bool) (store : Store) : Started :=
  let '(state, movie1, store1) := getCriticScoreState movie store in
  if negb force
     && match status state with
        | loading | loaded => true
        | _ => false
        end
  then Returned (data state) movie1 store1
  else
    match buildCriticLookup (info movie1) with
    | None =>
        let '(movie2, store2) :=
          setCriticScoreState movie1
            {| status := error; data := None;
               error_message := Some "Not enough information to fetch critic scores."%string |}
            store1 in
        Returned None movie2 store2
    | Some lookup =>
        let '(movie2, store2) :=
          setCriticScoreState movie1
            {| status := loading; data := data state; error_message := error_message state |}
            store1 in
        Pending lookup movie2 store2
    end.

(** How the pending [fetch] ends: a response that normalizes to scores, a
    response without usable scores, or a failure with its message. *)
Inductive FetchResult : Type :=
| Scored (normalized : Scores)
| Unusable
| Failed (message : string).

(** The rest of [requestCriticScores], after the [fetch]. *)
Definition requestFinish (movie : Item) (result : FetchResult) (store : Store)
    : option Scores * Item * Store :=
  match result with
  | Scored normalized =>
      let '(movie', store') :=
        setCriticScoreState movie
          {| status := loaded; data := Some normalized; error_message := None |} store in
      (Some normalized, movie', store')
  | Unusable =>
      let '(movie', store') :=
        setCriticScoreState movie
          {| status := error; data := None;
             error_message := Some "Critic scores are unavailable for this title."%string |}
          store in
      (None, movie', store')
  | Failed message =>
      let '(movie', store') :=
        setCriticScoreState movie
          {| status := error; data := None; error_message := Some message |} store in
      (None, movie', store')
  end.

(** The state of an item as the code observes it. *)
Definition statusOf (movie : Item) (store : Store) : Status :=
  status (getCriticScoreState movie store).1.1.

End Scores.

End Critic.

(** * The persisted discovery history (client side) *)

Module DiscoverStore.

Import Discover.

(** A field of a persisted entry, by what the normalization reads of it:
    [undefined] (the field is missing), [null], or any other value [v],
    given by [Number(v)]: a finite number (a double is a rational), or
    none when [Number(v)] is [NaN] or infinite. *)
Inductive RawField : Type :=
  | RawUndefined
  | RawNull
  | RawValue (number : option Q).

(** [Number(field)] when it is finite: [Number(undefined)] is [NaN] and
    [Number(null)] is 0. *)
Definition finiteNumber (f : RawField) : option Q :=
  match f with
  | RawUndefined => None
  | RawNull => Some 0%Q
  | RawValue number => number
  end.

(** [a ?? b] *)
Definition nullishOr (a b : RawField) : RawField :=
  match a with
  | RawUndefined | RawNull => b
  | RawValue _ => a
  end.

(** [Number.isFinite(x) && x > 0 ? Math.floor(x) : fallback] for
    [x = Number(field)], with [None] for the fallback: the test comes
    before the floor. *)
Definition flooredPositive (f : RawField) : option Z :=
  match finiteNumber f with
  | Some x => if Qle_bool x 0 then None else Some (Qfloor x)
  | None => None
  end.

(** One persisted entry, as an object with any values in its fields;
    [raw_exhausted] is [Boolean(raw.exhausted)]. *)
Record RawEntry : Type := mkRawEntry {
  raw_nextPage : RawField;
  raw_allowedPages : RawField;
  raw_totalPages : RawField;
  raw_exhausted : bool;
  raw_updatedAt : RawField;
  raw_lastAttempt : RawField
}.

(** [normalizeTmdbDiscoverStateEntry(raw)] for an object [raw]; [now] is
    [Date.now()]. *)
Definition normalizeTmdbDiscoverStateEntry (now : Z) (raw : RawEntry) : DiscoverState :=
  let nextPage := default 1%Z (flooredPositive (raw_nextPage raw)) in
  let allowedPages :=
    Z.max
      (Z.max MAX_DISCOVER_PAGES
         (default MAX_DISCOVER_PAGES (flooredPositive (raw_allowedPages raw))))
      nextPage in
  {| nextPage := nextPage;
     allowedPages := allowedPages;
     totalPages := flooredPositive (raw_totalPages raw);
     exhausted := raw_exhausted raw;
     updatedAt :=
       default now (flooredPositive (nullishOr (raw_updatedAt raw) (raw_lastAttempt raw)));
     lastAttempt := flooredPositive (raw_lastAttempt raw) |}.

(** The container that [hydrateTmdbDiscoverState] walks: the own
    properties, in enumeration order, of [raw.entries] when that is an
    object and of [raw] otherwise (none when [raw] is not an object).  A
    property whose value is not an object is [None]. *)
Definition Container : Type := list (string * option RawEntry).

(** The callback of the [forEach] over [Object.entries(container)]. *)
Definition hydrateStep (now : Z) (h : History) (kv : string * option RawEntry) : History :=
  match kv.2, kv.1 with
  | Some raw, String _ _ => mapSet kv.1 (normalizeTmdbDiscoverStateEntry now raw) h
  | _, _ => h
  end.

(** The history after [hydrateTmdbDiscoverState(raw)]. *)
Definition hydrateTmdbDiscoverState (now : Z) (container : Container) : History :=
  let h := foldl (hydrateStep now) [] container in
  evictOldest (length h) h.

(** A number field of a serialized entry. *)
Definition rawNumber (n : Z) : RawField := RawValue (Some (inject_Z n)).

(** [value ?? null] for a number that may be [null]. *)
Definition rawNumberOrNull (v : option Z) : RawField :=
  match v with
  | Some n => rawNumber n
  | None => RawNull
  end.

(** The [entries] of [getSerializableTmdbDiscoverState()], in the order
    in which the properties are created. *)
Definition getSerializableTmdbDiscoverState (h : History) : list (string * RawEntry) :=
  map (fun kv =>
         (kv.1,
          {| raw_nextPage := rawNumber (nextPage kv.2);
             raw_allowedPages := rawNumber (allowedPages kv.2);
             raw_totalPages := rawNumberOrNull (totalPages kv.2);
             raw_exhausted := exhausted kv.2;
             raw_updatedAt := rawNumber (updatedAt kv.2);
             raw_lastAttempt := rawNumberOrNull (lastAttempt kv.2) |})) h.

End DiscoverStore.

(** * The upstream proxy (server side) *)

Module Proxy.

Definition TMDB_CACHE_COLLECTION : string := "tmdbCache".
Definition TMDB_CACHE_TTL_MS : Z := 1000 * 60 * 60 * 6.

(** A value of [req.query]: a string, or an array of strings. *)
Inductive QueryValue : Type :=
| QStr (s : string)
| QArr (items : list string).

(** [req.query]: its own properties in enumeration order. *)
Definition Query : Type := list (string * QueryValue).

(** *** [encodeURIComponent] *)

Definition isUnreserved (c : ascii) : bool :=
  let n := N_of_ascii c in
  ((65 <=? n) && (n <=? 90) || (97 <=? n) && (n <=? 122) || (48 <=? n) && (n <=? 57)
   || (n =? 45) || (n =? 95) || (n =? 46) || (n =? 33) || (n =? 126) || (n =? 42)
   || (n =? 39) || (n =? 40) || (n =? 41))%N.

Definition hexDigit (n : N) : ascii :=
  nth (N.to_nat n) (list_ascii_of_string "0123456789ABCDEF") "0"%char.

(** Every byte outside the unreserved set is written [%XX]. *)
Fixpoint encodeURIComponent (s : string) : string :=
  match s with
  | EmptyString => EmptyString
  | String c s' =>
      if isUnreserved c then String c (encodeURIComponent s')
      else
        let n := N_of_ascii c in
        String "%" (String (hexDigit (n / 16)) (String (hexDigit (n mod 16))
          (encodeURIComponent s')))
  end%N.

(** *** The endpoint table *)

(** [query?.a ?? query?.b ?? ...] *)
Definition firstOf (keys : list string) (query : Query) : option QueryValue :=
  foldr (fun key rest =>
           match mapGet key query with
           | Some v => Some v
           | None => rest
           end) None keys.

(** The id that a [path] function extracts: the first element of an
    array, nothing when the value is missing or empty, trimmed, nothing
    when only white space. *)
Definition idOf (rawId : option QueryValue) : option string :=
  value ← match rawId with
          | Some (QStr s) => Some s
          | Some (QArr items) => head items
          | None => None
          end;
  match value with
  | EmptyString => None
  | _ =>
      match TmdbProxy.trim value with
      | EmptyString => None
      | trimmed => Some trimmed
      end
  end.

Definition creditsPath (query : Query) : option string :=
  trimmed ← idOf (firstOf ["movie_id"; "id"; "movieId"]%string query);
  Some ("/3/movie/" +:+ encodeURIComponent trimmed +:+ "/credits")%string.

Definition movieDetailsPath (query : Query) : option string :=
  trimmed ← idOf (firstOf ["movie_id"; "id"; "movieId"]%string query);
  Some ("/3/movie/" +:+ encodeURIComponent trimmed)%string.

Definition personDetailsPath (query : Query) : option string :=
  trimmed ← idOf (firstOf ["person_id"; "id"]%string query);
  Some ("/3/person/" +:+ encodeURIComponent trimmed)%string.

Inductive PathConfig : Type :=
| PathString (s : string)
| PathFunction (f : Query -> option string).

Record EndpointConfig : Type := mkEndpointConfig {
  path : PathConfig;
  omitParams : list string
}.

Definition ALLOWED_ENDPOINTS : list (string * EndpointConfig) :=
  [ ("discover", mkEndpointConfig (PathString "/3/discover/movie") []);
    ("genres", mkEndpointConfig (PathString "/3/genre/movie/list") []);
    ("credits", mkEndpointConfig (PathFunction creditsPath) ["movie_id"; "movieId"; "id"]);
    ("movie_details",
     mkEndpointConfig (PathFunction movieDetailsPath) ["movie_id"; "movieId"; "id"]);
    ("person_details", mkEndpointConfig (PathFunction personDetailsPath) ["person_id"; "id"]);
    ("search_multi", mkEndpointConfig (PathString "/3/search/multi") []);
    ("search_movie", mkEndpointConfig (PathString "/3/search/movie") []);
    ("trending_all", mkEndpointConfig (PathString "/3/trending/all/day") []);
    ("trending_movies", mkEndpointConfig (PathString "/3/trending/movie/day") []);
    ("popular_movies", mkEndpointConfig (PathString "/3/movie/popular") []);
    ("upcoming_movies", mkEndpointConfig (PathString "/3/movie/upcoming") []) ]%string.

(** The properties that [ALLOWED_ENDPOINTS] inherits from
    [Object.prototype]: a lookup of one of them finds a value that is
    neither a string nor an object with a [path]. *)
Definition objectPrototypeKeys : list string :=
  [ "constructor"; "hasOwnProperty"; "isPrototypeOf"; "propertyIsEnumerable";
    "toLocaleString"; "toString"; "valueOf"; "__proto__";
    "__defineGetter__"; "__defineSetter__"; "__lookupGetter__"; "__lookupSetter__" ]%string.

(** [getTmdbApiKey()] from the environment variable and the functions
    configuration. *)
Definition getTmdbApiKey (fromEnv fromConfig : option string) : option string :=
  match Cache.nonEmptyString fromEnv with
  | Some key => Some key
  | None => Cache.nonEmptyString fromConfig
  end.

(** *** The handler *)

Inductive Method : Type := GET | OPTIONS | OtherMethod.

Record Request : Type := mkRequest {
  method : Method;
  query : Query
}.

(** What the handler sends: the empty 204, a JSON error object, or a
    status, content type and body. *)
Inductive Reply : Type :=
| NoContent
| JsonError (status : Z) (error : string)
| Sent (status : Z) (contentType : string) (body : string).

(** How [fetch] and [text()] end: a response with its status, its
    [content-type] header and its text, or an exception. *)
Inductive FetchOutcome : Type :=
| Responded (status : Z) (contentType : option string) (payload : string)
| FetchThrew.

(** [Response.ok] *)
Definition ok (status : Z) : bool := ((200 <=? status) && (status <=? 299))%Z.

(** An upstream request: the path and the query entries of the target
    URL. *)
Definition UpstreamRequest : Type := string * list (string * string).

(** [String(req.query.endpoint || 'discover')] *)
Definition endpointKeyOf (query : Query) : string :=
  match mapGet "endpoint" query with
  | None | Some (QStr EmptyString) => "discover"
  | Some (QStr s) => s
  | Some (QArr items) => Cache.join "," items
  end.

(** The loop that copies the query into the [URLSearchParams]. *)
Definition forwardedParams (omit : list string) (query : Query) : list (string * string) :=
  flat_map (fun kv =>
              if bool_decide (kv.1 ∈ omit) then []
              else match kv.2 with
                   | QArr items => map (fun v => (kv.1, v)) items
                   | QStr s => [(kv.1, s)]
                   end) query.

(** [URLSearchParams.prototype.set]: the first entry of the name takes
    the value and the others go; a new name is appended. *)
Fixpoint paramsSet (name value : string) (entries : list (string * string))
    : list (string * string) :=
  match entries with
  | [] => [(name, value)]
  | (k, v) :: rest =>
      if String.eqb k name
      then (k, value) :: List.filter (fun kv => negb (String.eqb kv.1 name)) rest
      else (k, v) :: paramsSet name value rest
  end.

Section Handler.

Variable localeCompare : string -> string -> comparison.
Variable REQUIRE_FIRESTORE : bool.
(** [process.env.TMDB_API_KEY] and [functions.config().tmdb.key]. *)
Variable keyFromEnv keyFromConfig : option string.
(** The upstream service. *)
Variable fetch : UpstreamRequest -> FetchOutcome.

Definition readTmdbCache (path : string) (params : list (string * string)) (now : Z)
    (db : Cache.Firestore) (cache : Cache.MemCache) : option Cache.Response * Cache.MemCache :=
  Cache.readCachedResponse REQUIRE_FIRESTORE localeCompare TMDB_CACHE_COLLECTION
    (TmdbProxy.tmdbCacheKeyParts localeCompare (Some path) (Some params))
    (Some TMDB_CACHE_TTL_MS) now db cache.

(** The metadata object [{ path, params, endpoint }], kept as a text. *)
Definition tmdbMetadata (path : string) (params : list (string * string)) (endpoint : string)
    : string :=
  Cache.join ";"
    [ TmdbProxy.trim path;
      Cache.join "&"
        (map (fun entry => entry.1 +:+ "=" +:+ entry.2)
           (TmdbProxy.normalizeTmdbParams localeCompare (Some params)));
      endpoint ].

Definition writeTmdbCache (path : string) (params : list (string * string)) (status : Z)
    (contentType body endpoint : string) (now : Z)
    (db : Cache.Firestore) (cache : Cache.MemCache) : Cache.Firestore * Cache.MemCache :=
  Cache.writeCachedResponse REQUIRE_FIRESTORE localeCompare TMDB_CACHE_COLLECTION
    (TmdbProxy.tmdbCacheKeyParts localeCompare (Some path) (Some params))
    {| Cache.status := Some status;
       Cache.contentType := Some contentType;
       Cache.body := Some body;
       Cache.metadata := Some (tmdbMetadata path params endpoint) |}
    now db cache.

(** One request through [tmdbProxy]: the reply, the upstream requests
    made, and the cache afterwards. *)
Definition tmdbProxy (req : Request) (now : Z) (db : Cache.Firestore) (cache : Cache.MemCache)
    : Reply * list UpstreamRequest * (Cache.Firestore * Cache.MemCache) :=
  match method req with
  | OPTIONS => (NoContent, [], (db, cache))
  | OtherMethod => (JsonError 405 "method_not_allowed", [], (db, cache))
  | GET =>
      let endpointKey := endpointKeyOf (query req) in
      match mapGet endpointKey ALLOWED_ENDPOINTS with
      | None =>
          if bool_decide (endpointKey ∈ objectPrototypeKeys)
          then (JsonError 400 "invalid_endpoint_params", [], (db, cache))
          else (JsonError 400 "unsupported_endpoint", [], (db, cache))
      | Some endpointConfig =>
          let targetPath :=
            match path endpointConfig with
            | PathFunction f => f (query req)
            | PathString s => Cache.nonEmptyString (Some s)
            end in
          match targetPath with
          | None => (JsonError 400 "invalid_endpoint_params", [], (db, cache))
          | Some targetPath =>
              match getTmdbApiKey keyFromEnv keyFromConfig with
              | None => (JsonError 500 "tmdb_key_not_configured", [], (db, cache))
              | Some apiKey =>
                  let omit := ["endpoint"; "api_key"]%string ++ omitParams endpointConfig in
                  let params :=
                    paramsSet "api_key" apiKey (forwardedParams omit (query req)) in
                  match readTmdbCache targetPath params now db cache with
                  | (Some cached, cache1) =>
                      (Sent (Cache.r_status cached) (Cache.r_contentType cached)
                         (Cache.r_body cached),
                       [], (db, cache1))
                  | (None, cache1) =>
                      match fetch (targetPath, params) with
                      | FetchThrew =>
                          (JsonError 500 "tmdb_proxy_failed", [(targetPath, params)],
                           (db, cache1))
                      | Responded status contentTypeHeader payload =>
                          let contentType :=
                            default "application/json"%string
                              (Cache.nonEmptyString contentTypeHeader) in
                          (Sent status contentType payload, [(targetPath, params)],
                           if ok status
                           then writeTmdbCache targetPath params status contentType payload
                                  endpointKey now db cache1
                           else (db, cache1))
                      end
                  end
              end
          end
      end
  end.

End Handler.

End Proxy.

(** * The automatic critic-score queue (client side) *)

Module AutoCritic.

Import Critic.

Definition AUTO_CRITIC_FETCH_CONCURRENCY : nat := 4.
Definition AUTO_CRITIC_FETCH_BATCH_LIMIT : nat := 60.

Definition canRequestCriticScores (movie : ItemInfo) : bool :=
  match buildCriticLookup movie with
  | Some lookup =>
      match lookupImdbId lookup, lookupTitle lookup with
      | None, None => false
      | _, _ => true
      end
  | None => false
  end.

Section Queue.

Variable Scores : Type.
Variable normalizeCriticScoresObject : Scores -> Scores.
(** [isAutoCriticFetchEnabled()] *)
Variable enabled : bool.

(** A call of [requestCriticScores] that the pump started and whose
    [finally] callback has not run yet: the fetch is pending for the
    movie, or the call is over. *)
Inductive Phase : Type :=
| Fetching (movie : Item Scores)
| Settled.

Record Request : Type := mkRequest {
  r_key : string;
  r_phase : Phase
}.

(** The module variables of the queue, the requests started by the
    pump, and [criticScoreStateById].  A queued movie is the object as
    it was when queued; what other code does to its state meanwhile
    reaches the queue through the store. *)
Record State : Type := mkState {
  autoCriticFetchQueue : list (Item Scores);
  autoCriticQueuedKeys : gset string;
  autoCriticInFlightKeys : gset string;
  autoCriticInFlightCount : nat;
  requests : list Request;
  criticScoreStateById : Store Scores
}.

Definition isIdle (s : Status) : bool :=
  match s with
  | idle => true
  | _ => false
  end.

(** The [while] loop of [pumpAutoCriticFetchQueue]: every iteration
    shifts one movie off the queue. *)
Fixpoint pumpLoop (fuel : nat) (s : State) : State :=
  match fuel with
  | O => s
  | S fuel' =>
      if (autoCriticInFlightCount s <? AUTO_CRITIC_FETCH_CONCURRENCY)%nat
      then
        match autoCriticFetchQueue s with
        | [] => s
        | movie :: rest =>
            match getMovieCacheKey (info Scores movie) with
            | None =>
                pumpLoop fuel'
                  {| autoCriticFetchQueue := rest;
                     autoCriticQueuedKeys := autoCriticQueuedKeys s;
                     autoCriticInFlightKeys := autoCriticInFlightKeys s;
                     autoCriticInFlightCount := autoCriticInFlightCount s;
                     requests := requests s;
                     criticScoreStateById := criticScoreStateById s |}
            | Some key =>
                let queuedKeys := autoCriticQueuedKeys s ∖ {[key]} in
                if bool_decide (key ∈ autoCriticInFlightKeys s)
                then
                  pumpLoop fuel'
                    {| autoCriticFetchQueue := rest;
                       autoCriticQueuedKeys := queuedKeys;
                       autoCriticInFlightKeys := autoCriticInFlightKeys s;
                       autoCriticInFlightCount := autoCriticInFlightCount s;
                       requests := requests s;
                       criticScoreStateById := criticScoreStateById s |}
                else
                  let '(state, movie1, store1) :=
                    getCriticScoreState Scores normalizeCriticScoresObject movie
                      (criticScoreStateById s) in
                  if negb (isIdle (status Scores state))
                  then
                    pumpLoop fuel'
                      {| autoCriticFetchQueue := rest;
                         autoCriticQueuedKeys := queuedKeys;
                         autoCriticInFlightKeys := autoCriticInFlightKeys s;
                         autoCriticInFlightCount := autoCriticInFlightCount s;
                         requests := requests s;
                         criticScoreStateById := store1 |}
                  else
                    let '(phase, store2) :=
                      match requestStart Scores normalizeCriticScoresObject movie1 false
                              store1 with
                      | Returned _ _ _ store2 => (Settled, store2)
                      | Pending _ _ movie2 store2 => (Fetching movie2, store2)
                      end in
                    pumpLoop fuel'
                      {| autoCriticFetchQueue := rest;
                         autoCriticQueuedKeys := queuedKeys;
                         autoCriticInFlightKeys := {[key]} ∪ autoCriticInFlightKeys s;
                         autoCriticInFlightCount := autoCriticInFlightCount s + 1;
                         requests := requests s ++ [{| r_key := key; r_phase := phase |}];
                         criticScoreStateById := store2 |}
            end
        end
      else s
  end.

Definition pumpAutoCriticFetchQueue (s : State) : State :=
  if enabled then pumpLoop (length (autoCriticFetchQueue s)) s else s.

(** The callback of the [forEach] of [enqueueAutoCriticScores]. *)
Definition enqueueStep (s : State) (entry : option (Item Scores)) : State :=
  match entry with
  | None => s
  | Some movie =>
      if negb (canRequestCriticScores (info Scores movie)) then s
      else
        match getMovieCacheKey (info Scores movie) with
        | None => s
        | Some key =>
            if bool_decide (key ∈ autoCriticQueuedKeys s)
               || bool_decide (key ∈ autoCriticInFlightKeys s)
            then s
            else
              let '(state, movie1, store1) :=
                getCriticScoreState Scores normalizeCriticScoresObject movie
                  (criticScoreStateById s) in
              if negb (isIdle (status Scores state))
              then
                {| autoCriticFetchQueue := autoCriticFetchQueue s;
                   autoCriticQueuedKeys := autoCriticQueuedKeys s;
                   autoCriticInFlightKeys := autoCriticInFlightKeys s;
                   autoCriticInFlightCount := autoCriticInFlightCount s;
                   requests := requests s;
                   criticScoreStateById := store1 |}
              else
                {| autoCriticFetchQueue := autoCriticFetchQueue s ++ [movie1];
                   autoCriticQueuedKeys := {[key]} ∪ autoCriticQueuedKeys s;
                   autoCriticInFlightKeys := autoCriticInFlightKeys s;
                   autoCriticInFlightCount := autoCriticInFlightCount s;
                   requests := requests s;
                   criticScoreStateById := store1 |}
        end
  end.

Definition enqueueAutoCriticScores (movies : list (option (Item Scores))) (s : State) : State :=
  if negb enabled then s
  else
    match movies with
    | [] => s
    | _ =>
        pumpAutoCriticFetchQueue
          (foldl enqueueStep s (take AUTO_CRITIC_FETCH_BATCH_LIMIT movies))
    end.

(** The fetch of the [i]-th started request ends: the rest of
    [requestCriticScores] runs. *)
Definition settleRequest (i : nat) (result : FetchResult Scores) (s : State) : State :=
  match requests s !! i with
  | Some {| r_key := key; r_phase := Fetching movie |} =>
      let '(_, _, store') :=
        requestFinish Scores normalizeCriticScoresObject movie result
          (criticScoreStateById s) in
      {| autoCriticFetchQueue := autoCriticFetchQueue s;
         autoCriticQueuedKeys := autoCriticQueuedKeys s;
         autoCriticInFlightKeys := autoCriticInFlightKeys s;
         autoCriticInFlightCount := autoCriticInFlightCount s;
         requests := <[i := {| r_key := key; r_phase := Settled |}]> (requests s);
         criticScoreStateById := store' |}
  | _ => s
  end.

(** The [finally] callback of the [i]-th started request, once the
    request is over. *)
Definition finallyCallback (i : nat) (s : State) : State :=
  match requests s !! i with
  | Some {| r_key := key; r_phase := Settled |} =>
      pumpAutoCriticFetchQueue
        {| autoCriticFetchQueue := autoCriticFetchQueue s;
           autoCriticQueuedKeys := autoCriticQueuedKeys s;
           autoCriticInFlightKeys := autoCriticInFlightKeys s ∖ {[key]};
           autoCriticInFlightCount := Nat.max 0 (autoCriticInFlightCount s - 1);
           requests := delete i (requests s);
           criticScoreStateById := criticScoreStateById s |}
  | _ => s
  end.

End Queue.

End AutoCritic.

(** * Specification-side definitions and sample data *)

(** The matches of one quality tier. *)
Definition tierMatches (minAverage minVotes : Q) (movies : list entry) : list entry :=
  List.filter (fun movie => meetsQualityThreshold movie minAverage minVotes) movies.


(** Candidate selection as the specification words it: the first tier
    with at least [MIN_PRIORITY_RESULTS] matches, otherwise every item
    with a numeric rating and a numeric vote count. *)
Definition selectAsSpecified (movies : list entry) : list entry :=
  match List.find (fun th => (MIN_PRIORITY_RESULTS <=? length (tierMatches th.1 th.2 movies))%nat)
          thresholds with
  | Some th => tierMatches th.1 th.2 movies
  | None => List.filter hasNumericRatingAndVotes movies
  end.


Definition plainMovie (i : Z) (average votes : Q) : Movie :=
  {| id := Some i; poster_path := None; overview := None;
     vote_average := Num (Fin average); score := Undefined;
     vote_count := Num (Fin votes); voteCount := Undefined;
     release_date := NoDate; criticScores := None;
     directors := None; topCast := None; genre_ids := None;
     __priority := None |}.


(** An entry that is an object whose rating and vote count are finite. *)
Definition finiteRated (e : entry) : Prop :=
  is_Some e /\ is_Some (getVoteAverageValue e) /\ is_Some (getVoteCountValue e).


(** *** The composite score as the specification writes it *)

(** The raw rating blended with the neutral prior 0.6, weighted by
    [min(1, votes/150)]. *)
Definition confidenceAdjustedRating (rating votes : R) : R :=
  let weight := Rmin 1 (votes / 150) in
  (weight * rating + (1 - weight) * 0.6)%R.

(** [log10(votes+1) / log10(maxVotesInSet+1)], a JavaScript quotient:
    without a finite value when the divisor is 0. *)
Definition normalizedLogVoteVolume (votes maxVotesInSet : R) : option R :=
  js_div (ln (votes + 1) / ln 10) (ln (maxVotesInSet + 1) / ln 10).

(** Recency from the age of the release in milliseconds ([None]: release
    date unknown). *)
Definition recency (age : option Z) : R :=
  match age with
  | None => 0.5
  | Some d =>
      if (d <=? 0)%Z then 1
      else if (yearMs <=? d)%Z then 0
      else 1 - IZR d / IZR yearMs
  end%R.

Definition compositeScore (rating votes maxVotesInSet : R) (age : option Z) : option R :=
  volume ← normalizedLogVoteVolume votes maxVotesInSet;
  Some (0.3 * confidenceAdjustedRating rating votes + 0.5 * sqrt volume
        + 0.2 * recency age)%R.

(** The quantities of one item that enter the score: its rating
    normalized to 0..1, its vote count (a negative count is taken as 0),
    and the age of its release. *)
Definition ratingOf (m : Movie) : R := Q2R (rawAverageOf (Some m)).

Definition votesOf (m : Movie) : R := Q2R (clampedVotes (Some m)).

Definition ageOf (now : Z) (m : Movie) : option Z :=
  match release_date m with
  | DateAt release => Some (now - release)%Z
  | _ => None
  end.

(** The largest vote count among the candidates. *)
Definition largestVotes (candidates : list Movie) : R :=
  fold_right Rmax 0%R (map votesOf candidates).

(** Decreasing priority. *)
Definition byPriorityDesc (a b : Movie) : Prop :=
  (priorityValue b <= priorityValue a)%R.

(** An item without any rating. *)
Definition unratedMovie (i : Z) : Movie :=
  {| id := Some i; poster_path := None; overview := None;
     vote_average := Undefined; score := Undefined;
     vote_count := Num (Fin 10); voteCount := Undefined;
     release_date := NoDate; criticScores := None;
     directors := None; topCast := None; genre_ids := None;
     __priority := None |}.

(** The completeness score as the specification words it: one point for
    each populated field. *)
Definition completenessAsSpecified (m : Movie) : nat :=
  (if truthyStr (poster_path m) then 1 else 0)
  + (if truthyStr (overview m) then 1 else 0)
  + (if notNullish (vote_average m) then 1 else 0)
  + (if notNullish (vote_count m) then 1 else 0)
  + (if truthyDate (release_date m) then 1 else 0)
  + (if criticScores m is Some _ then 1 else 0)
  + (if nonEmptyArray (directors m) then 1 else 0)
  + (if nonEmptyArray (topCast m) then 1 else 0)
  + (if nonEmptyArray (genre_ids m) then 1 else 0).

(** An item that has a poster and nothing else. *)
Definition posterOnlyMovie (i : Z) : Movie :=
  {| id := Some i; poster_path := Some "/p.jpg"%string; overview := None;
     vote_average := Undefined; score := Undefined;
     vote_count := Undefined; voteCount := Undefined;
     release_date := NoDate; criticScores := None;
     directors := None; topCast := None; genre_ids := None;
     __priority := None |}.

(** An item without an id. *)
Definition anonymousMovie : Movie :=
  {| id := None; poster_path := None; overview := None;
     vote_average := Num (Fin 7); score := Undefined;
     vote_count := Num (Fin 60); voteCount := Undefined;
     release_date := NoDate; criticScores := None;
     directors := None; topCast := None; genre_ids := None;
     __priority := None |}.

(** What the merge loop maintains after the entries [processed]: every
    key of [seen] points at the slot of [result] that holds the entry kept
    for that key, whose score is recorded and is the largest seen so far
    for the key; every keyed slot of [result] is the one [seen] points at;
    and every processed key is in [seen]. *)
Definition dedupeInv (processed : list entry) (st : dedupeState) : Prop :=
  (forall key idx sc, st.1 !! key = Some (idx, sc) ->
     exists c, st.2 !! idx = Some c /\ mergeKey c = Some key
               /\ scoreMovieForMerge c = sc /\ In c processed
               /\ forall e, In e processed -> mergeKey e = Some key ->
                     (scoreMovieForMerge e <= sc)%nat)
  /\ (forall idx c key, st.2 !! idx = Some c -> mergeKey c = Some key ->
        st.1 !! key = Some (idx, scoreMovieForMerge c))
  /\ (forall e key, In e processed -> mergeKey e = Some key -> is_Some (st.1 !! key)).

(** An entry that is an object carrying an id. *)
Definition hasId (e : entry) : Prop := exists m i, e = Some m /\ id m = Some i.

(** *** Collation *)

(** What the sorts need of [localeCompare]: a consistent comparison
    function.  It may return 0 for two different strings, as it does for
    canonically equivalent ones. *)
Class Collation (cmp : string -> string -> comparison) : Prop := {
  collation_antisym : forall a b, cmp b a = CompOpp (cmp a b);
  collation_trans : forall a b c, cmp a b <> Gt -> cmp b c <> Gt -> cmp a c <> Gt
}.

(** The comparison tells the elements of [l] apart: it returns 0 for no
    two different elements of [l]. *)
Definition tellsApart {A : Type} (cmp : A -> A -> comparison) (l : list A) : Prop :=
  forall a b, In a l -> In b l -> cmp a b = Eq -> a = b.

(** The two spellings of e with an acute accent, in UTF-8: the code
    point U+00E9, and e followed by the combining accent U+0301. *)
Definition eAcuteComposed : string := String "195" (String "169" "").
Definition eAcuteDecomposed : string := String "e" (String "204" (String "129" "")).

(** A comparison that, like [localeCompare], takes the two spellings
    for the same string: it compares after composing e and the accent. *)
Fixpoint composeAcute (s : string) : string :=
  match s with
  | String "e" (String "204" (String "129" rest)) =>
      String "195" (String "169" (composeAcute rest))
  | String c rest => String c (composeAcute rest)
  | EmptyString => EmptyString
  end.

Definition canonicalCompare (a b : string) : comparison :=
  String.compare (composeAcute a) (composeAcute b).

(** "Does not sort after", for a sign-valued comparator. *)
Definition notAfter {A : Type} (cmp : A -> A -> comparison) (a b : A) : Prop :=
  cmp a b <> Gt.

(** The entries of a parameter set that enter the key. *)
Definition keyedParams (params : list (string * string)) : list (string * string) :=
  List.filter (fun kv => negb (String.eqb kv.1 "api_key")) params.

(** The response the cache keeps for a payload whose body is [b]. *)
Definition storedResponse (payload : Cache.Payload) (b : string) : Cache.Response :=
  {| Cache.r_status := default 200%Z (Cache.status payload);
     Cache.r_contentType :=
       default "application/json"%string (Cache.nonEmptyString (Cache.contentType payload));
     Cache.r_body := b;
     Cache.r_metadata := Cache.metadata payload |}.

(** The durable store cannot be reached: there is none, or its calls
    throw. *)
Definition unreachable (db : Cache.Firestore) : Prop :=
  match db with
  | Cache.NoFirestore => True
  | Cache.Db healthy _ => healthy = false
  end.

Definition samplePayload : Cache.Payload :=
  {| Cache.status := Some 200%Z; Cache.contentType := None;
     Cache.body := Some "{}"%string; Cache.metadata := None |}.

Definition sampleParts : Cache.part :=
  Cache.PArr [Cache.PStr "tmdb"; Cache.PStr "/3/movie/popular"; Cache.PStr "page=1"].

(** *** Discovery runs *)

(** The keys of an insertion-ordered map occur once. *)
Definition uniqueKeys {V : Type} (m : list (string * V)) : Prop := NoDup (map fst m).

(** One discovery call for a signature: everything that may differ from
    call to call while the filters stay the same. *)
Record Call : Type := mkCall {
  c_applyFeedFilters : list Movie -> list Movie;
  c_now : Z;
  c_minFeedSize : nat;
  c_suppressedIds : gset string;
  c_fetchDiscoverPage : Z -> Discover.PageResponse;
  c_existingMovies : list entry
}.

Definition runCall (key : string) (c : Call) (h : Discover.History) : Discover.Outcome :=
  Discover.fetchMoviesFromTmdb (c_applyFeedFilters c) (c_now c) (c_minFeedSize c)
    (c_suppressedIds c) (c_fetchDiscoverPage c) key (c_existingMovies c) h.

(** The history after a call. *)
Definition historyAfter (h : Discover.History) (o : Discover.Outcome) : Discover.History :=
  match o with
  | Discover.Resolved _ h' _ => h'
  | Discover.Rejected h' _ => h'
  | Discover.Diverged => h
  end.

(** The cursor state a call wrote for the signature, if it wrote: a call
    writes exactly when it resolves after at least one page request. *)
Definition cursorWritten (key : string) (o : Discover.Outcome) : option Discover.DiscoverState :=
  match o with
  | Discover.Resolved _ h' (_ :: _) => mapGet key h'
  | _ => None
  end.


(** The page a call resumes from. *)
Definition resumePage (e : Discover.DiscoverState) : Z :=
  Z.max 1 (if (Discover.nextPage e =? 0)%Z then 1 else Discover.nextPage e).

(** The page a call for [key] starts from. *)
Definition startPage (key : string) (h : Discover.History) : Z :=
  match Discover.readTmdbDiscoverState key h with
  | Some e => resumePage e
  | None => 1
  end.


Definition noFilters : Discover.FeedFilterState :=
  {| Discover.minRating := ""; Discover.minVotes := ""; Discover.startYear := "";
     Discover.endYear := ""; Discover.selectedGenres := "__all__" |}.


(** A call against an upstream with three pages that never yield enough
    movies. *)
Definition sparseCatalogCall : Call :=
  {| c_applyFeedFilters := fun movies => movies;
     c_now := 1700000000000;
     c_minFeedSize := 12;
     c_suppressedIds := ∅;
     c_fetchDiscoverPage := fun p => Discover.Page [Some (plainMovie p 3 1)] (Some 3%Z);
     c_existingMovies := [] |}.

(** *** Sample items for the critic-score state *)

Definition heatInfo : Critic.ItemInfo :=
  {| Critic.id := Some 949%Z; Critic.imdb_id := Some "tt0113277"%string;
     Critic.imdbId := None; Critic.title := Some "Heat"%string; Critic.name := None;
     Critic.release_date := Some "1995-12-15"%string |}.

(** An item whose last fetch failed. *)
Definition failedItem : Critic.Item CriticScores :=
  {| Critic.info := heatInfo; Critic.criticScores := None;
     Critic.criticScoresState :=
       Some {| Critic.status := Critic.error; Critic.data := None;
               Critic.error_message := Some "Request failed with status 500"%string |} |}.


(** *** Ties in the ranking *)

(** The items whose priority is [p]. *)
Definition hasPriority (p : R) (m : Movie) : bool :=
  if Req_dec_T (priorityValue m) p then true else false.

(** A rating and a vote count that reach the strictest tier. *)
Definition topTierMovie (i : Z) : Movie := plainMovie i 8 100.

(** *** Merge positions *)

(** A sequence of merge keys with the later repetitions of every key
    removed; entries without a key all stay.  [seen] holds the keys met
    so far. *)
Fixpoint firstOccurrences (seen : gset string) (keys : list (option string))
    : list (option string) :=
  match keys with
  | [] => []
  | None :: rest => None :: firstOccurrences seen rest
  | Some k :: rest =>
      if bool_decide (k ∈ seen) then firstOccurrences seen rest
      else Some k :: firstOccurrences ({[k]} ∪ seen) rest
  end.

(** *** Document ids *)

(** The characters of the URL-safe base64 alphabet. *)
Definition urlSafeChar (c : ascii) : bool :=
  let n := N_of_ascii c in
  ((65 <=? n) && (n <=? 90) || (97 <=? n) && (n <=? 122) || (48 <=? n) && (n <=? 57)
   || (n =? 45) || (n =? 95))%N.

(** The string that [buildCacheId] encodes: the serialized parts joined
    by [||]. *)
Definition joinedParts (localeCompare : string -> string -> comparison) (parts : Cache.part)
    : string :=
  Cache.join "||"
    match parts with
    | Cache.PArr items => map (Cache.serializePart localeCompare) items
    | _ => [Cache.serializePart localeCompare parts]
    end.

(** The encoding of a byte sequence that [buildCacheId] applies. *)
Definition base64url (bytes : list N) : string :=
  Cache.stripPadding (Cache.urlSafe (Cache.base64Encode bytes)).

(** One digit of the URL-safe alphabet, and its value. *)
Definition urlDigit (n : N) : ascii :=
  let c := Cache.base64Digit n in
  if Ascii.eqb c "+" then "-"%char else if Ascii.eqb c "/" then "_"%char else c.

Definition digitValues : list N := map N.of_nat (seq 0 64).

Definition digitValue (c : ascii) : N :=
  default 0%N (List.find (fun n => Ascii.eqb (urlDigit n) c) digitValues).

(** *** Runs of the cache *)

(** One call of the cache, with the state of the durable store at the
    time of the call. *)
Inductive CacheCall : Type :=
| ReadCall (collection : string) (parts : Cache.part) (ttlMs : option Z) (now : Z)
    (db : Cache.Firestore)
| WriteCall (collection : string) (parts : Cache.part) (payload : Cache.Payload) (now : Z)
    (db : Cache.Firestore).

(** The in-memory map after a call. *)
Definition memoryAfter (localeCompare : string -> string -> comparison) (require : bool)
    (cache : Cache.MemCache) (call : CacheCall) : Cache.MemCache :=
  match call with
  | ReadCall collection parts ttlMs now db =>
      (Cache.readCachedResponse require localeCompare collection parts ttlMs now db cache).2
  | WriteCall collection parts payload now db =>
      (Cache.writeCachedResponse require localeCompare collection parts payload now db cache).2
  end.

(** A fresh document of the durable store. *)
Definition sampleDoc (fetchedAt : Z) : Cache.Doc :=
  {| Cache.d_status := Some 200%Z; Cache.d_contentType := Some "application/json"%string;
     Cache.d_body := Some "{}"%string; Cache.d_metadata := None;
     Cache.d_fetchedAt := Some fetchedAt |}.

(** *** The proxy *)

(** The upstream paths with no parameter part. *)
Definition fixedPaths : list string :=
  [ "/3/discover/movie"; "/3/genre/movie/list"; "/3/search/multi"; "/3/search/movie";
    "/3/trending/all/day"; "/3/trending/movie/day"; "/3/movie/popular";
    "/3/movie/upcoming" ]%string.

(** A character of a percent-encoded path segment. *)
Definition segmentChar (c : ascii) : bool := Proxy.isUnreserved c || Ascii.eqb c "%".

(** A non-empty percent-encoded path segment: no [/], [?], [#] or [&]. *)
Definition encodedSegment (e : string) : Prop :=
  e <> ""%string /\ Forall (fun c => segmentChar c = true) (list_ascii_of_string e).

(** The value [v] is sent for the name [k] in the query. *)
Definition queryCarries (query : Proxy.Query) (k v : string) : Prop :=
  exists value, In (k, value) query
    /\ (value = Proxy.QStr v \/ exists items, value = Proxy.QArr items /\ In v items).

(** A request for the credits of a movie whose id needs encoding, with a
    key and an endpoint of the client's own. *)
Definition creditsRequest : Proxy.Request :=
  {| Proxy.method := Proxy.GET;
     Proxy.query :=
       [ ("endpoint", Proxy.QStr "credits"); ("movie_id", Proxy.QStr " 603/../x ");
         ("api_key", Proxy.QStr "client-key"); ("language", Proxy.QArr ["en-US"; "de"]) ]%string |}.

Definition popularRequest : Proxy.Request :=
  {| Proxy.method := Proxy.GET;
     Proxy.query := [ ("endpoint", Proxy.QStr "popular_movies"); ("page", Proxy.QStr "2") ]%string |}.

(** An upstream that answers every request with the same JSON text. *)
Definition upstreamOk : Proxy.UpstreamRequest -> Proxy.FetchOutcome :=
  fun _ => Proxy.Responded 200 (Some "application/json;charset=utf-8"%string) "{}".

(** An upstream that is down. *)
Definition upstreamDown : Proxy.UpstreamRequest -> Proxy.FetchOutcome :=
  fun _ => Proxy.Responded 503 None "{}".

(** *** Histories of the discovery cursor *)

(** A state as [normalizeTmdbDiscoverStateEntry] leaves it. *)
Definition normalizedState (st : Discover.DiscoverState) : Prop :=
  (1 <= Discover.nextPage st)%Z
  /\ (Discover.MAX_DISCOVER_PAGES <= Discover.allowedPages st)%Z
  /\ (Discover.nextPage st <= Discover.allowedPages st)%Z
  /\ (forall t, Discover.totalPages st = Some t -> (0 < t)%Z)
  /\ (0 < Discover.updatedAt st)%Z
  /\ (forall a, Discover.lastAttempt st = Some a -> (0 < a)%Z).

(** One call of [writeTmdbDiscoverState], with the clock at the call. *)
Record CursorWrite : Type := mkCursorWrite {
  w_now : Z;
  w_key : string;
  w_state : Discover.Progress
}.

Definition historyAfterWrites (h : Discover.History) (writes : list CursorWrite)
    : Discover.History :=
  foldl (fun h w => Discover.writeTmdbDiscoverState (w_now w) (w_key w) (w_state w) h) h writes.

(** A history as a session can hold it: restored from what was
    persisted, then written to. *)
Definition sessionHistory (now : Z) (container : DiscoverStore.Container)
    (writes : list CursorWrite) : Discover.History :=
  historyAfterWrites (DiscoverStore.hydrateTmdbDiscoverState now container) writes.

(** A state as hydration can leave it when a persisted number lies
    strictly between 0 and 1: such a number passes the [> 0] test and its
    floor is 0. *)
Definition flooredState (st : Discover.DiscoverState) : Prop :=
  (0 <= Discover.nextPage st)%Z
  /\ (Discover.MAX_DISCOVER_PAGES <= Discover.allowedPages st)%Z
  /\ (Discover.nextPage st <= Discover.allowedPages st)%Z
  /\ (forall t, Discover.totalPages st = Some t -> (0 <= t)%Z)
  /\ (0 <= Discover.updatedAt st)%Z
  /\ (forall a, Discover.lastAttempt st = Some a -> (0 <= a)%Z).

(** The field reads as a number strictly between 0 and 1. *)
Definition fractionBelowOne (f : DiscoverStore.RawField) : bool :=
  match DiscoverStore.finiteNumber f with
  | Some x => negb (Qle_bool x 0) && negb (Qle_bool 1 x)
  | None => false
  end.

(** No page number and no time stamp of the entry reads as a number
    strictly between 0 and 1. *)
Definition noFractionBelowOne (raw : DiscoverStore.RawEntry) : Prop :=
  fractionBelowOne (DiscoverStore.raw_nextPage raw) = false
  /\ fractionBelowOne (DiscoverStore.raw_totalPages raw) = false
  /\ fractionBelowOne (DiscoverStore.raw_updatedAt raw) = false
  /\ fractionBelowOne (DiscoverStore.raw_lastAttempt raw) = false.

(** The persisted object read as an entry with whole numbers and
    [null]s. *)
Definition integerEntry (rawNextPage rawAllowedPages rawTotalPages : option Z)
    (rawExhausted : bool) (rawUpdatedAt rawLastAttempt : option Z) : DiscoverStore.RawEntry :=
  {| DiscoverStore.raw_nextPage := DiscoverStore.rawNumberOrNull rawNextPage;
     DiscoverStore.raw_allowedPages := DiscoverStore.rawNumberOrNull rawAllowedPages;
     DiscoverStore.raw_totalPages := DiscoverStore.rawNumberOrNull rawTotalPages;
     DiscoverStore.raw_exhausted := rawExhausted;
     DiscoverStore.raw_updatedAt := DiscoverStore.rawNumberOrNull rawUpdatedAt;
     DiscoverStore.raw_lastAttempt := DiscoverStore.rawNumberOrNull rawLastAttempt |}.

(** A persisted entry with a page number that is not positive, a total
    that is a string of letters and no time stamps. *)
Definition corruptEntry : DiscoverStore.RawEntry :=
  {| DiscoverStore.raw_nextPage := DiscoverStore.rawNumber (-4);
     DiscoverStore.raw_allowedPages := DiscoverStore.RawUndefined;
     DiscoverStore.raw_totalPages := DiscoverStore.RawValue None;
     DiscoverStore.raw_exhausted := true;
     DiscoverStore.raw_updatedAt := DiscoverStore.RawNull;
     DiscoverStore.raw_lastAttempt := DiscoverStore.RawUndefined |}.

(** A persisted entry whose next page is 0.5 and whose total is 7.9. *)
Definition fractionalEntry : DiscoverStore.RawEntry :=
  {| DiscoverStore.raw_nextPage := DiscoverStore.RawValue (Some (1 # 2));
     DiscoverStore.raw_allowedPages := DiscoverStore.rawNumber 12;
     DiscoverStore.raw_totalPages := DiscoverStore.RawValue (Some (79 # 10));
     DiscoverStore.raw_exhausted := false;
     DiscoverStore.raw_updatedAt := DiscoverStore.rawNumber 1690000000000;
     DiscoverStore.raw_lastAttempt := DiscoverStore.RawNull |}.

(** The page ceiling a call for [key] starts with: the stored one, at
    least 10 and at least the start page. *)
Definition startCeiling (key : string) (h : Discover.History) : Z :=
  Z.max
    (Z.max Discover.MAX_DISCOVER_PAGES
       (Discover.positiveOr Discover.MAX_DISCOVER_PAGES
          (Discover.allowedPages <$> Discover.readTmdbDiscoverState key h)))
    (startPage key h).

(** The pages a call requested from upstream, in the order of the
    requests. *)
Definition fetchedPages (o : Discover.Outcome) : list Z :=
  match o with
  | Discover.Resolved _ _ fetched => fetched
  | Discover.Rejected _ fetched => fetched
  | Discover.Diverged => []
  end.

(** A history that is full: 50 signatures, none of them [key]. *)
Definition fullHistory : Discover.History :=
  map (fun n : nat =>
         ("direct|" +:+ pretty n +:+ "||||__all__",
          {| Discover.nextPage := 2; Discover.allowedPages := 10;
             Discover.totalPages := None; Discover.exhausted := false;
             Discover.updatedAt := 1700000000000; Discover.lastAttempt := None |}))
    (seq 0 50).

Definition sampleState : Discover.DiscoverState :=
  {| Discover.nextPage := 4; Discover.allowedPages := 10;
     Discover.totalPages := Some 9%Z; Discover.exhausted := false;
     Discover.updatedAt := 1700000000000; Discover.lastAttempt := Some 1700000000000%Z |}.

Definition sampleProgress : Discover.Progress :=
  {| Discover.p_nextPage := 2; Discover.p_allowedPages := 10;
     Discover.p_totalPages := None; Discover.p_exhausted := false |}.

(** *** Critic-score requests *)

(** The item and the store once a request is over: [result] is how the
    fetch ends when the request gets that far. *)
Definition requestOutcome {Scores : Type} (normalizeCriticScoresObject : Scores -> Scores)
    (movie : Critic.Item Scores) (force : bool) (result : Critic.FetchResult Scores)
    (store : Critic.Store Scores) : Critic.Item Scores * Critic.Store Scores :=
  match Critic.requestStart Scores normalizeCriticScoresObject movie force store with
  | Critic.Returned _ _ movie' store' => (movie', store')
  | Critic.Pending _ _ movie' store' =>
      let '(_, movie'', store'') :=
        Critic.requestFinish Scores normalizeCriticScoresObject movie' result store' in
      (movie'', store'')
  end.

(** A freshly fetched copy of an item: the same identity, no scores and
    no state of its own. *)
Definition freshCopy {Scores : Type} (movie : Critic.Item Scores) : Critic.Item Scores :=
  {| Critic.info := Critic.info Scores movie; Critic.criticScores := None;
     Critic.criticScoresState := None |}.

Definition heatScores : CriticScores :=
  {| rottenTomatoes := Some 87%Z; metacritic := Some 76%Z; imdb := Some (83 # 10) |}.

(** An item that shows scores fetched earlier. *)
Definition scoredItem : Critic.Item CriticScores :=
  {| Critic.info := heatInfo; Critic.criticScores := Some heatScores;
     Critic.criticScoresState :=
       Some {| Critic.status := Critic.loaded; Critic.data := Some heatScores;
               Critic.error_message := None |} |}.

(** The store keeps the data it has for a key. *)
Definition keepsData {Scores : Type} (store store' : Critic.Store Scores) : Prop :=
  forall k s, store !! k = Some s -> is_Some (Critic.data Scores s) ->
    exists s', store' !! k = Some s' /\ is_Some (Critic.data Scores s').

(** *** What a discovery call collects *)

(** What the merge into [collected] maintains: the collected entries
    carry distinct ids, all of them marked seen, and a collected entry
    whose id is suppressed is one of the [existing] movies. *)
Definition collectedInv (suppressed : gset string) (existing : list entry)
    (acc : gset string * list entry) : Prop :=
  NoDup (mergeKey <$> acc.2)
  /\ (forall e, In e acc.2 -> exists k, mergeKey e = Some k /\ k ∈ acc.1)
  /\ (forall e k, In e acc.2 -> mergeKey e = Some k -> k ∈ suppressed -> In e existing).

(** A call whose upstream pages repeat a movie and bring a suppressed
    one. *)
Definition suppressingCall : Call :=
  {| c_applyFeedFilters := fun movies => movies;
     c_now := 1700000000000;
     c_minFeedSize := 2;
     c_suppressedIds := {[ "13"%string ]};
     c_fetchDiscoverPage :=
       fun p => Discover.Page [Some (plainMovie 13 9 900); Some (plainMovie 21 8 100);
                               Some (plainMovie (20 + p) 8 100)] (Some 3%Z);
     c_existingMovies := [] |}.

(** *** Runs of the automatic critic-score queue *)

(** What happens to the queue: the feed asks for scores, the fetch of a
    started request ends, the [finally] callback of a request runs, or
    other code writes to the store of states. *)
Inductive QueueEvent (Scores : Type) : Type :=
| Enqueue (movies : list (option (Critic.Item Scores)))
| FetchEnds (i : nat) (result : Critic.FetchResult Scores)
| Finally (i : nat)
| StoreChanges (store : Critic.Store Scores).

Arguments Enqueue {Scores} movies.
Arguments FetchEnds {Scores} i result.
Arguments Finally {Scores} i.
Arguments StoreChanges {Scores} store.

Definition queueStep {Scores : Type} (normalizeCriticScoresObject : Scores -> Scores)
    (enabled : bool) (s : AutoCritic.State Scores) (e : QueueEvent Scores)
    : AutoCritic.State Scores :=
  match e with
  | Enqueue movies =>
      AutoCritic.enqueueAutoCriticScores Scores normalizeCriticScoresObject enabled movies s
  | FetchEnds i result =>
      AutoCritic.settleRequest Scores normalizeCriticScoresObject i result s
  | Finally i =>
      AutoCritic.finallyCallback Scores normalizeCriticScoresObject enabled i s
  | StoreChanges store =>
      {| AutoCritic.autoCriticFetchQueue := AutoCritic.autoCriticFetchQueue Scores s;
         AutoCritic.autoCriticQueuedKeys := AutoCritic.autoCriticQueuedKeys Scores s;
         AutoCritic.autoCriticInFlightKeys := AutoCritic.autoCriticInFlightKeys Scores s;
         AutoCritic.autoCriticInFlightCount := AutoCritic.autoCriticInFlightCount Scores s;
         AutoCritic.requests := AutoCritic.requests Scores s;
         AutoCritic.criticScoreStateById := store |}
  end.

(** The queue when the page is loaded. *)
Definition initialQueue {Scores : Type} : AutoCritic.State Scores :=
  {| AutoCritic.autoCriticFetchQueue := [];
     AutoCritic.autoCriticQueuedKeys := ∅;
     AutoCritic.autoCriticInFlightKeys := ∅;
     AutoCritic.autoCriticInFlightCount := 0;
     AutoCritic.requests := [];
     AutoCritic.criticScoreStateById := ∅ |}.

Definition queueAfter {Scores : Type} (normalizeCriticScoresObject : Scores -> Scores)
    (enabled : bool) (events : list (QueueEvent Scores)) : AutoCritic.State Scores :=
  foldl (queueStep normalizeCriticScoresObject enabled) initialQueue events.

(** The cache keys of the queued movies and of the started requests. *)
Definition queuedKeysOf {Scores : Type} (s : AutoCritic.State Scores) : list string :=
  omap (fun movie => Critic.getMovieCacheKey (Critic.info Scores movie))
    (AutoCritic.autoCriticFetchQueue Scores s).

Definition inFlightKeysOf {Scores : Type} (s : AutoCritic.State Scores) : list string :=
  AutoCritic.r_key Scores <$> AutoCritic.requests Scores s.

(** What every step of the queue maintains. *)
Definition queueInv {Scores : Type} (s : AutoCritic.State Scores) : Prop :=
  AutoCritic.autoCriticInFlightCount Scores s = length (AutoCritic.requests Scores s)
  /\ (AutoCritic.autoCriticInFlightCount Scores s <= AutoCritic.AUTO_CRITIC_FETCH_CONCURRENCY)%nat
  /\ NoDup (inFlightKeysOf s)
  /\ AutoCritic.autoCriticInFlightKeys Scores s = list_to_set (inFlightKeysOf s)
  /\ NoDup (queuedKeysOf s)
  /\ AutoCritic.autoCriticQueuedKeys Scores s = list_to_set (queuedKeysOf s)
  /\ AutoCritic.autoCriticQueuedKeys Scores s ## AutoCritic.autoCriticInFlightKeys Scores s
  /\ Forall (fun movie => is_Some (Critic.getMovieCacheKey (Critic.info Scores movie)))
       (AutoCritic.autoCriticFetchQueue Scores s).

(** * Properties *)

(** ** Candidate selection *)

Lemma thresholds_values :
  thresholds = [ (7, 50); (65 # 10, 25); (6, 10) ]%Q.
Proof. reflexivity. Qed.

(** A tier match: an object whose rating and vote count are finite and
    reach the tier's thresholds. *)
Lemma meetsQualityThreshold_spec m minAverage minVotes :
  meetsQualityThreshold (Some m) minAverage minVotes = true <->
  exists average votes,
    Number (coalesce (coalesce (vote_average m) (score m)) (Num (Fin 0))) = Fin average
    /\ Number (coalesce (coalesce (vote_count m) (voteCount m)) (Num (Fin 0))) = Fin votes
    /\ (minAverage <= average)%Q /\ (minVotes <= votes)%Q.
Proof.
  unfold meetsQualityThreshold.
  destruct (Number (coalesce (coalesce (vote_average m) (score m)) (Num (Fin 0)))) as [| | |a];
    try (split; [discriminate | by intros (? & ? & ? & _)]).
  destruct (Number (coalesce (coalesce (vote_count m) (voteCount m)) (Num (Fin 0)))) as [| | |v];
    try (split; [discriminate | by intros (? & ? & _ & ? & _)]).
  rewrite andb_true_iff, !Qle_bool_iff. split.
  - intros [Ha Hv]. by exists a, v.
  - intros (a' & v' & [= <-] & [= <-] & Ha & Hv). done.
Qed.

(** C3, as stated, fails: with one strong and one weak item no tier
    reaches 12 matches, yet the weak item is not returned. *)
Lemma selectPriorityCandidates_not_as_specified :
  let movies := [Some (plainMovie 1 8 100); Some (plainMovie 2 3 1)] in
  selectPriorityCandidates movies = [Some (plainMovie 1 8 100)]
  /\ selectAsSpecified movies = movies
  /\ selectPriorityCandidates movies <> selectAsSpecified movies.
Proof.
  repeat split; try reflexivity.
  vm_compute. discriminate.
Qed.

(** C3 (amended): the tiers are tried in order and the first one with at
    least 12 matches is returned; when none reaches 12, the first tier with
    any match at all is returned; only when no tier matches anything does
    the selection fall back to every item whose [vote_average] and
    [vote_count] are both finite numbers. *)
Theorem selectPriorityCandidates_tiers (movies : list entry) :
  let t1 := tierMatches 7 50 movies in
  let t2 := tierMatches (65 # 10) 25 movies in
  let t3 := tierMatches 6 10 movies in
  selectPriorityCandidates movies =
    if (12 <=? length t1)%nat then t1
    else if (12 <=? length t2)%nat then t2
    else if (12 <=? length t3)%nat then t3
    else if negb (isEmpty t1) then t1
    else if negb (isEmpty t2) then t2
    else if negb (isEmpty t3) then t3
    else List.filter hasNumericRatingAndVotes movies.
Proof.
  intros t1 t2 t3. unfold selectPriorityCandidates.
  destruct (isEmpty movies) eqn:Hempty.
  { destruct movies; [reflexivity | discriminate]. }
  rewrite thresholds_values. cbn [selectLoop isEmpty].
  change MIN_PRIORITY_RESULTS with 12%nat.
  fold (tierMatches 7 50 movies) (tierMatches (65 # 10) 25 movies) (tierMatches 6 10 movies).
  fold t1 t2 t3.
  destruct (12 <=? length t1)%nat; [reflexivity|].
  destruct (12 <=? length t2)%nat, (12 <=? length t3)%nat,
    (isEmpty t1), (isEmpty t2), (isEmpty t3); reflexivity.
Qed.

(** ** Priority ordering *)

Lemma meetsQualityThreshold_finiteRated e a v :
  (0 < a)%Q -> (0 < v)%Q ->
  meetsQualityThreshold e a v = true -> finiteRated e.
Proof.
  intros Ha Hv. unfold meetsQualityThreshold, finiteRated.
  destruct e as [m|]; [|discriminate]. cbn.
  destruct (vote_average m) as [| |[| | |x]], (score m) as [| |[| | |y]];
    cbn; try discriminate;
    destruct (vote_count m) as [| |[| | |z]], (voteCount m) as [| |[| | |w]];
    cbn; try discriminate; intros H; apply andb_true_iff in H as [H1 H2];
    apply Qle_bool_iff in H1, H2;
    try (exfalso; apply (Qlt_not_le _ _ Ha H1));
    try (exfalso; apply (Qlt_not_le _ _ Hv H2));
    eauto.
Qed.

Lemma hasNumericRatingAndVotes_finiteRated e :
  hasNumericRatingAndVotes e = true -> finiteRated e.
Proof.
  unfold hasNumericRatingAndVotes, finiteRated.
  destruct e as [m|]; [|discriminate]. cbn.
  destruct (vote_average m) as [| |[| | |x]]; cbn; try discriminate;
    destruct (vote_count m) as [| |[| | |z]]; cbn; try discriminate; eauto.
Qed.

(** The loop over the tiers leaves with the fallback it carries or with
    one [filter] of the input. *)
Lemma selectLoop_filter movies ths bestFallback :
  Forall (fun th => (0 < th.1)%Q /\ (0 < th.2)%Q) ths ->
  (bestFallback = []
   \/ exists f, bestFallback = List.filter f movies /\ forall e, f e = true -> finiteRated e) ->
  exists f, selectLoop movies ths bestFallback = List.filter f movies
            /\ forall e, f e = true -> finiteRated e.
Proof.
  intros Hths. revert bestFallback.
  induction Hths as [|[minAverage minVotes] ths [Ha Hv] _ IH]; intros bestFallback Hbest;
    cbn [selectLoop].
  - destruct Hbest as [->|Hbest]; cbn [isEmpty negb].
    + exists hasNumericRatingAndVotes. split; [done|].
      apply hasNumericRatingAndVotes_finiteRated.
    + destruct (negb (isEmpty bestFallback)) eqn:E; [done|].
      destruct bestFallback; [|done].
      exists hasNumericRatingAndVotes. split; [done|].
      apply hasNumericRatingAndVotes_finiteRated.
  - set (f := fun movie => meetsQualityThreshold movie minAverage minVotes).
    assert (Hf : forall e, f e = true -> finiteRated e)
      by (intros e; by apply meetsQualityThreshold_finiteRated).
    destruct (MIN_PRIORITY_RESULTS <=? _)%nat; [by exists f|].
    destruct (negb (isEmpty (List.filter f movies)) && isEmpty bestFallback);
      apply IH; [right; by exists f | exact Hbest].
Qed.

(** The selection is always one [filter] of the input. *)
Lemma selectPriorityCandidates_filter movies :
  exists f, selectPriorityCandidates movies = List.filter f movies
            /\ forall e, f e = true -> finiteRated e.
Proof.
  unfold selectPriorityCandidates. destruct (isEmpty movies) eqn:E.
  - destruct movies; [|done]. exists hasNumericRatingAndVotes. split; [done|].
    apply hasNumericRatingAndVotes_finiteRated.
  - apply selectLoop_filter; [|by left].
    rewrite thresholds_values. repeat constructor.
Qed.

Lemma filter_sublist {A : Type} (f : A -> bool) (l : list A) :
  sublist (List.filter f l) l.
Proof.
  induction l as [|x l IH]; cbn; [constructor|].
  destruct (f x); by constructor.
Qed.

Lemma selectPriorityCandidates_sublist movies :
  sublist (selectPriorityCandidates movies) movies.
Proof.
  destruct (selectPriorityCandidates_filter movies) as (f & -> & _).
  apply filter_sublist.
Qed.

Lemma selectPriorityCandidates_finiteRated movies :
  Forall finiteRated (selectPriorityCandidates movies).
Proof.
  destruct (selectPriorityCandidates_filter movies) as (f & -> & Hf).
  apply List.Forall_forall. intros e He. apply filter_In in He as [_ He]. auto.
Qed.

(** *** Real-number facts behind the score *)

Lemma clampedVotes_nonneg e : (0 <= Q2R (clampedVotes e))%R.
Proof.
  unfold clampedVotes. replace 0%R with (Q2R 0) by (unfold Q2R; cbn; lra).
  apply Qreals.Qle_Rle, Q.le_max_l.
Qed.

Lemma maxVotesOf_ge_1 l : (1 <= Q2R (maxVotesOf l))%R.
Proof.
  replace 1%R with (Q2R 1) by (unfold Q2R; cbn; lra).
  apply Qreals.Qle_Rle. unfold maxVotesOf.
  induction l as [|e l IH]; cbn; [apply Qle_refl|].
  eapply Qle_trans; [exact IH | apply Q.le_max_r].
Qed.

Lemma ln_10_pos : (0 < ln 10)%R.
Proof. rewrite <- ln_1. apply ln_increasing; lra. Qed.

Lemma js_log10_Some x : (0 < x)%R -> js_log10 x = Some (ln x / ln 10)%R.
Proof. intros H. unfold js_log10. destruct (Rlt_dec 0 x); [reflexivity | contradiction]. Qed.

Lemma log10_nonneg x : (1 <= x)%R -> (0 <= ln x / ln 10)%R.
Proof.
  intros H. apply Rmult_le_pos.
  - destruct H as [H| <-]; [|rewrite ln_1; lra].
    left. rewrite <- ln_1. apply ln_increasing; lra.
  - left. apply Rinv_0_lt_compat, ln_10_pos.
Qed.

Lemma log10_pos x : (1 < x)%R -> (0 < ln x / ln 10)%R.
Proof.
  intros H. apply Rmult_lt_0_compat.
  - rewrite <- ln_1. apply ln_increasing; lra.
  - apply Rinv_0_lt_compat, ln_10_pos.
Qed.

Lemma js_div_Some a b : b <> 0%R -> js_div a b = Some (a / b)%R.
Proof. intros H. unfold js_div. destruct (Req_dec_T b 0); [contradiction | reflexivity]. Qed.

Lemma js_sqrt_Some x : (0 <= x)%R -> js_sqrt x = Some (sqrt x).
Proof. intros H. unfold js_sqrt. destruct (Rle_dec 0 x); [reflexivity | contradiction]. Qed.

Lemma Q2R_Qmax a b : Q2R (Qmax a b) = Rmax (Q2R a) (Q2R b).
Proof.
  destruct (Q.max_spec_le a b) as [[Hle Heq]|[Hle Heq]];
    apply Qreals.Qeq_eqR in Heq; rewrite Heq; apply Qreals.Qle_Rle in Hle.
  - symmetry. apply Rmax_right. exact Hle.
  - symmetry. apply Rmax_left. exact Hle.
Qed.

Lemma votesOf_nonneg m : (0 <= votesOf m)%R.
Proof. apply clampedVotes_nonneg. Qed.

Lemma largestVotes_nonneg l : (0 <= largestVotes l)%R.
Proof.
  unfold largestVotes. destruct l as [|m l]; cbn; [lra|].
  eapply Rle_trans; [apply (votesOf_nonneg m) | apply Rmax_l].
Qed.

(** The divisor the code uses: the largest vote count, but at least 1. *)
Lemma maxVotesOf_largestVotes (l : list Movie) :
  Q2R (maxVotesOf (map Some l)) = Rmax 1 (largestVotes l).
Proof.
  unfold maxVotesOf, largestVotes.
  induction l as [|m l IH]; cbn.
  - unfold Q2R; cbn. rewrite Rmax_left; lra.
  - rewrite Q2R_Qmax. fold (maxVotesOf (map Some l)) in *.
    change (fold_right Qmax 1%Q (map clampedVotes (map Some l)))
      with (maxVotesOf (map Some l)).
    rewrite IH. fold (votesOf m).
    change (fold_right Rmax 0%R (map votesOf l)) with (largestVotes l).
    pose proof (votesOf_nonneg m). pose proof (largestVotes_nonneg l).
    unfold Rmax; repeat destruct Rle_dec; lra.
Qed.

Lemma recencyOfMovie_recency now m :
  recencyOfMovie now m = recency (ageOf now m).
Proof. unfold recencyOfMovie, recency, ageOf. destruct (release_date m); reflexivity. Qed.

(** The callback's priority is the specified composite score, for any
    divisor base of at least 1. *)
Lemma priorityOf_compositeScore now maxVotes m :
  (1 <= Q2R maxVotes)%R ->
  exists p,
    priorityOf now maxVotes (Some m) = Some p
    /\ compositeScore (ratingOf m) (votesOf m) (Q2R maxVotes) (ageOf now m) = Some p.
Proof.
  intros Hmax. pose proof (votesOf_nonneg m) as Hvotes. unfold votesOf in Hvotes.
  unfold priorityOf, compositeScore, normalizedLogVoteVolume.
  rewrite !js_log10_Some by lra. cbn [mbind option_bind].
  assert (Hden : (0 < ln (Q2R maxVotes + 1) / ln 10)%R) by (apply log10_pos; lra).
  assert (Hnum : (0 <= ln (Q2R (clampedVotes (Some m)) + 1) / ln 10)%R)
    by (apply log10_nonneg; lra).
  rewrite !js_div_Some by lra. cbn [mbind option_bind].
  set (volume := (ln (Q2R (clampedVotes (Some m)) + 1) / ln 10
                  / (ln (Q2R maxVotes + 1) / ln 10))%R).
  assert (Hvol : (0 <= volume)%R).
  { unfold volume. apply Rmult_le_pos; [exact Hnum|]. left. apply Rinv_0_lt_compat, Hden. }
  rewrite (Rmax_right 0 volume Hvol), js_sqrt_Some by exact Hvol.
  cbn [mbind option_bind]. eexists. split; [reflexivity|].
  f_equal. rewrite recencyOfMovie_recency.
  unfold confidenceAdjustedRating, ratingOf, votesOf. cbv zeta.
  unfold volume. lra.
Qed.

(** *** The sort *)

Lemma insertByPriority_perm x l : Permutation (x :: l) (insertByPriority x l).
Proof.
  induction l as [|y l IH]; cbn; [reflexivity|].
  destruct (Rle_dec _ _); [reflexivity|].
  rewrite perm_swap. by constructor.
Qed.

Lemma sortByPriority_perm l : Permutation l (sortByPriority l).
Proof.
  induction l as [|x l IH]; cbn; [constructor|].
  rewrite <- insertByPriority_perm. by constructor.
Qed.

Lemma insertByPriority_sorted x l :
  StronglySorted byPriorityDesc l -> StronglySorted byPriorityDesc (insertByPriority x l).
Proof.
  induction 1 as [|y l Hl IH Hy]; cbn.
  - repeat constructor.
  - destruct (Rle_dec _ _) as [Hle|Hgt].
    + constructor; [by constructor|].
      constructor; [unfold byPriorityDesc; lra|].
      eapply List.Forall_impl; [|exact Hy].
      unfold byPriorityDesc. intros; lra.
    + constructor; [exact IH|].
      rewrite <- insertByPriority_perm.
      constructor; [unfold byPriorityDesc; lra | exact Hy].
Qed.

Lemma sortByPriority_sorted l : StronglySorted byPriorityDesc (sortByPriority l).
Proof.
  induction l as [|x l IH]; cbn; [constructor|].
  by apply insertByPriority_sorted.
Qed.

(** *** The ordering as a whole *)

Lemma Forall_is_Some_map {A : Type} (l : list (option A)) :
  Forall is_Some l -> exists k, l = map Some k.
Proof.
  induction 1 as [|x l [a ->] _ [k ->]].
  - by exists [].
  - by exists (a :: k).
Qed.

Lemma selectPriorityCandidates_objects movies :
  exists cands, selectPriorityCandidates movies = map Some cands.
Proof.
  apply Forall_is_Some_map.
  eapply List.Forall_impl; [|apply selectPriorityCandidates_finiteRated].
  by intros e [He _].
Qed.

Lemma scoreCandidate_compositeScore now maxVotes m :
  (1 <= Q2R maxVotes)%R ->
  exists p,
    compositeScore (ratingOf m) (votesOf m) (Q2R maxVotes) (ageOf now m) = Some p
    /\ scoreCandidate now maxVotes (Some m) = Some (withPriority m p).
Proof.
  intros H. destruct (priorityOf_compositeScore now maxVotes m H) as (p & Hp & Hs).
  exists p. split; [exact Hs|]. unfold scoreCandidate. by rewrite Hp.
Qed.

(** The ordering never fails, and it is the sort of the candidates, each
    annotated with the composite score whose divisor is based on the
    largest vote count floored at 1. *)
Lemma applyPriorityOrdering_scored now movies :
  exists cands scored,
    selectPriorityCandidates movies = map Some cands
    /\ Forall2 (fun m m' =>
          exists p,
            compositeScore (ratingOf m) (votesOf m) (Rmax 1 (largestVotes cands))
              (ageOf now m) = Some p
            /\ m' = withPriority m p) cands scored
    /\ applyPriorityOrdering now movies = Some (sortByPriority scored).
Proof.
  destruct (selectPriorityCandidates_objects movies) as [cands Hc].
  exists cands.
  assert (Hall : Forall (fun m => exists p,
            compositeScore (ratingOf m) (votesOf m) (Rmax 1 (largestVotes cands))
              (ageOf now m) = Some p
            /\ scoreCandidate now (maxVotesOf (map Some cands)) (Some m)
               = Some (withPriority m p)) cands).
  { apply List.Forall_forall. intros m _.
    rewrite <- maxVotesOf_largestVotes.
    apply scoreCandidate_compositeScore, maxVotesOf_ge_1. }
  assert (Hscored : exists scored,
            Forall2 (fun m m' => exists p,
              compositeScore (ratingOf m) (votesOf m) (Rmax 1 (largestVotes cands))
                (ageOf now m) = Some p /\ m' = withPriority m p) cands scored
            /\ mapM (scoreCandidate now (maxVotesOf (map Some cands))) (map Some cands)
               = Some scored).
  { clear Hc. generalize (maxVotesOf (map Some cands)) (Rmax 1 (largestVotes cands)) Hall.
    intros q r. clear Hall.
    induction 1 as [|m l (p & Hp & Hs) _ (scored & HF & HM)].
    - exists []. split; [constructor | reflexivity].
    - exists (withPriority m p :: scored). split.
      + constructor; [eauto | exact HF].
      + cbn [map]. cbn [mapM]. rewrite Hs. cbn. rewrite HM. reflexivity. }
  destruct Hscored as (scored & HF & HM).
  exists scored. split; [exact Hc|]. split; [exact HF|].
  unfold applyPriorityOrdering. rewrite Hc, HM.
  destruct (isEmpty movies) eqn:E1.
  { destruct movies; [|discriminate]. cbn in Hc. destruct cands; [|discriminate].
    cbn in HM. by inversion HM. }
  destruct (isEmpty (map Some cands)) eqn:E2; [|reflexivity].
  destruct cands; [|discriminate]. cbn in HM. by inversion HM.
Qed.

(** The rating that enters the score is normalized to 0..1. *)
Lemma ratingOf_range m : (0 <= ratingOf m <= 1)%R.
Proof.
  unfold ratingOf, rawAverageOf.
  set (x := default 0%Q (getVoteAverageValue (Some m))).
  assert (H0 : (0 <= Qmax 0 (Qmin 10 x) / 10)%Q).
  { apply Qle_shift_div_l; [reflexivity|]. rewrite Qmult_0_l. apply Q.le_max_l. }
  assert (H1 : (Qmax 0 (Qmin 10 x) / 10 <= 1)%Q).
  { apply Qle_shift_div_r; [reflexivity|]. rewrite Qmult_1_l.
    apply Q.max_lub; [discriminate | apply Q.le_min_l]. }
  apply Qreals.Qle_Rle in H0, H1.
  replace (Q2R 0) with 0%R in H0 by (unfold Q2R; cbn; lra).
  replace (Q2R 1) with 1%R in H1 by (unfold Q2R; cbn; lra).
  lra.
Qed.


(** C1, as stated, fails on a candidate set without votes: the largest
    vote count is 0, so the claimed divisor [log10(0+1)] is 0 and the
    claimed quotient has no value, while the code scores the item 0.28. *)
Lemma applyPriorityOrdering_unvoted_candidate :
  let m := plainMovie 1 5 0 in
  selectPriorityCandidates [Some m] = [Some m]
  /\ applyPriorityOrdering 0 [Some m] = Some [withPriority m 0.28%R]
  /\ largestVotes [m] = 0%R
  /\ compositeScore (ratingOf m) (votesOf m) (largestVotes [m]) (ageOf 0 m) = None.
Proof.
  intros m.
  assert (Hv : votesOf m = 0%R)
    by (unfold votesOf; vm_compute (clampedVotes _); unfold Q2R; cbn; lra).
  assert (Hr : ratingOf m = 0.5%R)
    by (unfold ratingOf; vm_compute (rawAverageOf _); unfold Q2R; cbn; lra).
  assert (Hl : largestVotes [m] = 0%R).
  { unfold largestVotes. cbn [map fold_right]. rewrite Hv. apply Rmax_left; lra. }
  split; [reflexivity|]. split; [|split; [exact Hl|]].
  - destruct (applyPriorityOrdering_scored 0 [Some m]) as (cands & scored & Hc & HF & ->).
    change (selectPriorityCandidates [Some m]) with (map Some [m]) in Hc.
    apply (inj (fmap Some)) in Hc. subst cands.
    inversion HF as [|? ? ? ? (p & Hp & ->) HF']; subst. inversion HF'; subst.
    cbn. do 3 f_equal.
    rewrite Hl, Hv, Hr in Hp.
    unfold compositeScore, normalizedLogVoteVolume in Hp.
    rewrite Rmax_left in Hp by lra.
    rewrite js_div_Some in Hp by (pose proof (log10_pos (1 + 1)); lra).
    cbn in Hp. inversion Hp as [Hp']. clear Hp.
    replace (0 + 1)%R with 1%R by lra. rewrite ln_1.
    replace (0 / ln 10 / (ln (1 + 1) / ln 10))%R with 0%R
      by (unfold Rdiv; rewrite !Rmult_0_l; reflexivity).
    rewrite sqrt_0. unfold confidenceAdjustedRating.
    replace (0 / 150)%R with 0%R by lra.
    rewrite Rmin_right by lra. lra.
  - rewrite Hl. unfold compositeScore, normalizedLogVoteVolume.
    replace (0 + 1)%R with 1%R by lra. rewrite ln_1.
    unfold js_div. destruct (Req_dec_T (0 / ln 10) 0) as [_|Hne]; [reflexivity|].
    exfalso. apply Hne. unfold Rdiv. apply Rmult_0_l.
Qed.

(** C1 (amended): the ordering never fails; its output is the selected
    candidates, each carrying as [__priority] the composite score
    [0.3 * confidenceAdjustedRating + 0.5 * sqrt(normalizedLogVoteVolume)
    + 0.2 * recency], where the divisor of the vote volume is taken from
    the largest vote count among the candidates floored at 1 (vote counts
    below 0 counted as 0); and the output is sorted by decreasing score. *)
Theorem applyPriorityOrdering_composite_score (now : Z) (movies : list entry) :
  exists cands scored out,
    selectPriorityCandidates movies = map Some cands
    /\ applyPriorityOrdering now movies = Some out
    /\ Forall2 (fun m m' =>
          exists p,
            compositeScore (ratingOf m) (votesOf m) (Rmax 1 (largestVotes cands))
              (ageOf now m) = Some p
            /\ m' = withPriority m p
            /\ priorityValue m' = p
            /\ (0 <= ratingOf m <= 1)%R /\ (0 <= votesOf m)%R) cands scored
    /\ Permutation scored out
    /\ StronglySorted byPriorityDesc out.
Proof.
  destruct (applyPriorityOrdering_scored now movies) as (cands & scored & Hc & HF & Ho).
  exists cands, scored, (sortByPriority scored).
  repeat split; [exact Hc | exact Ho | | apply sortByPriority_perm | apply sortByPriority_sorted].
  eapply Forall2_impl; [exact HF|].
  intros m m' (p & Hp & ->). exists p.
  pose proof (ratingOf_range m) as [? ?]. pose proof (votesOf_nonneg m).
  repeat split; assumption || reflexivity.
Qed.

(** C10: ranking filters as well as orders.  The output is a reordering
    of a sub-list of the input (the selected candidates), each element
    equal to its input element except for the [__priority] field, which
    holds a number; every kept element is an object with a finite rating
    and a finite vote count, so every item lacking one of them is removed;
    and some inputs lose items, so the output is not a permutation of the
    input. *)
Theorem applyPriorityOrdering_filters :
  (forall (now : Z) (movies : list entry),
      exists kept scored out,
        applyPriorityOrdering now movies = Some out
        /\ kept = selectPriorityCandidates movies
        /\ sublist kept movies
        /\ Forall finiteRated kept
        /\ (forall e, In e movies -> ~ finiteRated e -> ~ In e kept)
        /\ Forall2 (fun e m' =>
              exists m p, e = Some m /\ m' = withPriority m p /\ __priority m' = Some p)
             kept scored
        /\ Permutation scored out
        /\ (length out <= length movies)%nat)
  /\ (exists now movies out,
        applyPriorityOrdering now movies = Some out
        /\ (length out < length movies)%nat).
Proof.
  assert (Hall : forall (now : Z) (movies : list entry),
      exists kept scored out,
        applyPriorityOrdering now movies = Some out
        /\ kept = selectPriorityCandidates movies
        /\ sublist kept movies
        /\ Forall finiteRated kept
        /\ (forall e, In e movies -> ~ finiteRated e -> ~ In e kept)
        /\ Forall2 (fun e m' =>
              exists m p, e = Some m /\ m' = withPriority m p /\ __priority m' = Some p)
             kept scored
        /\ Permutation scored out
        /\ (length out <= length movies)%nat).
  { intros now movies.
    destruct (applyPriorityOrdering_scored now movies) as (cands & scored & Hc & HF & Ho).
    exists (selectPriorityCandidates movies), scored, (sortByPriority scored).
    pose proof (selectPriorityCandidates_finiteRated movies) as Hfin.
    pose proof (selectPriorityCandidates_sublist movies) as Hsub.
    assert (HF2 : Forall2 (fun e m' =>
              exists m p, e = Some m /\ m' = withPriority m p /\ __priority m' = Some p)
             (selectPriorityCandidates movies) scored).
    { rewrite Hc. apply Forall2_fmap_l.
      eapply Forall2_impl; [exact HF|].
      intros m m' (p & _ & ->). exists m, p. by repeat split. }
    repeat split; try done.
    - intros e _ Hnot Hin. apply Hnot.
      eapply List.Forall_forall in Hfin; eauto.
    - apply sortByPriority_perm.
    - rewrite <- (Permutation_length (sortByPriority_perm scored)).
      rewrite <- (Forall2_length _ _ _ HF2).
      by apply sublist_length. }
  split; [exact Hall|].
  exists 0%Z, [Some (plainMovie 1 8 100); Some (unratedMovie 2)].
  destruct (Hall 0%Z [Some (plainMovie 1 8 100); Some (unratedMovie 2)])
    as (kept & scored & out & Ho & Hk & _ & _ & _ & HF & Hp & _).
  exists out. split; [exact Ho|].
  rewrite <- (Permutation_length Hp), <- (Forall2_length _ _ _ HF), Hk.
  vm_compute. lia.
Qed.

(** ** Merge of duplicates *)

Lemma dedupeMoviesById_foldl movies :
  dedupeMoviesById movies = (foldl dedupeStep (∅, []) movies).2.
Proof. by destruct movies. Qed.

Lemma dedupeInv_init : dedupeInv [] (∅, []).
Proof.
  repeat split; cbn.
  - intros key idx sc H. by rewrite lookup_empty in H.
  - intros idx c key H. by rewrite lookup_nil in H.
  - intros e key [].
Qed.

Lemma dedupeInv_step processed st x :
  dedupeInv processed st -> dedupeInv (processed ++ [x]) (dedupeStep st x).
Proof.
  destruct st as [seen result]. intros (Ha & Hb & Hc). cbn in Ha, Hb, Hc.
  unfold dedupeStep.
  destruct (mergeKey x) as [key|] eqn:Hkey.
  2:{ (* pushed through unmerged *)
    repeat split; cbn.
    - intros k idx sc Hs. destruct (Ha k idx sc Hs) as (c & Hr & Hk & Hsc & Hin & Hmax).
      exists c. repeat split; auto.
      + rewrite lookup_app_l; [done | by eapply lookup_lt_Some].
      + apply in_or_app; by left.
      + intros e He Hek. apply in_app_or in He as [He|[<-|[]]]; [eauto | congruence].
    - intros idx c k Hr Hk.
      apply lookup_app_Some in Hr as [Hr|[_ Hr]]; [eauto|].
      apply list_lookup_singleton_Some in Hr as [_ <-]. congruence.
    - intros e k He Hek. apply in_app_or in He as [He|[<-|[]]]; [eauto | congruence]. }
  destruct (seen !! key) as [[idx0 sc0]|] eqn:Hseen; cbn [fst snd].
  2:{ (* first entry with this key *)
    repeat split; cbn.
    - intros k idx sc Hs. destruct (decide (key = k)) as [<-|Hne].
      + rewrite lookup_insert_eq in Hs. injection Hs as <- <-.
        exists x. repeat split; auto.
        * by rewrite lookup_app_r, Nat.sub_diag.
        * apply in_or_app; right; by left.
        * intros e He Hek. apply in_app_or in He as [He|[<-|[]]]; [|done].
          destruct (Hc e key He Hek) as [? Hsome]. congruence.
      + rewrite lookup_insert_ne in Hs by done.
        destruct (Ha k idx sc Hs) as (c & Hr & Hk & Hsc & Hin & Hmax).
        exists c. repeat split; auto.
        * rewrite lookup_app_l; [done | by eapply lookup_lt_Some].
        * apply in_or_app; by left.
        * intros e He Hek. apply in_app_or in He as [He|[<-|[]]]; [eauto | congruence].
    - intros idx c k Hr Hk.
      apply lookup_app_Some in Hr as [Hr|[Hlen Hr]].
      + pose proof (Hb idx c k Hr Hk) as Hs.
        rewrite lookup_insert_ne; [done | congruence].
      + apply list_lookup_singleton_Some in Hr as [Hidx <-].
        assert (k = key) as -> by congruence.
        rewrite lookup_insert_eq. do 2 f_equal. lia.
    - intros e k He Hek. apply lookup_insert_is_Some'.
      apply in_app_or in He as [He|[<-|[]]]; [right; eauto | left; congruence]. }
  destruct (Ha key idx0 sc0 Hseen) as (c0 & Hr0 & Hk0 & Hsc0 & Hin0 & Hmax0).
  destruct (sc0 <? scoreMovieForMerge x)%nat eqn:Hlt.
  - (* a better duplicate replaces the kept entry *)
    apply Nat.ltb_lt in Hlt.
    repeat split; cbn.
    + intros k idx sc Hs. destruct (decide (key = k)) as [<-|Hne].
      * rewrite lookup_insert_eq in Hs. injection Hs as <- <-.
        exists x. repeat split; auto.
        -- apply list_lookup_insert_eq. by eapply lookup_lt_Some.
        -- apply in_or_app; right; by left.
        -- intros e He Hek. apply in_app_or in He as [He|[<-|[]]]; [|done].
           specialize (Hmax0 e He Hek). lia.
      * rewrite lookup_insert_ne in Hs by done.
        destruct (Ha k idx sc Hs) as (c & Hr & Hk & Hsc & Hin & Hmax).
        exists c. repeat split; auto.
        -- rewrite list_lookup_insert_ne; [done|].
           intros <-. congruence.
        -- apply in_or_app; by left.
        -- intros e He Hek. apply in_app_or in He as [He|[<-|[]]]; [eauto | congruence].
    + intros idx c k Hr Hk. destruct (decide (idx0 = idx)) as [<-|Hne].
      * rewrite list_lookup_insert_eq in Hr by (by eapply lookup_lt_Some).
        injection Hr as <-. assert (k = key) as -> by congruence.
        by rewrite lookup_insert_eq.
      * rewrite list_lookup_insert_ne in Hr by done.
        pose proof (Hb idx c k Hr Hk) as Hs.
        rewrite lookup_insert_ne; [done|]. intros <-. congruence.
    + intros e k He Hek. apply lookup_insert_is_Some'.
      apply in_app_or in He as [He|[<-|[]]]; [right; eauto | left; congruence].
  - (* the kept entry stays *)
    apply Nat.ltb_ge in Hlt.
    repeat split; cbn.
    + intros k idx sc Hs.
      destruct (Ha k idx sc Hs) as (c & Hr & Hk & Hsc & Hin & Hmax).
      exists c. repeat split; auto.
      * apply in_or_app; by left.
      * intros e He Hek. apply in_app_or in He as [He|[<-|[]]]; [eauto|].
        assert (k = key) as -> by congruence.
        assert (sc = sc0) as -> by congruence. done.
    + exact Hb.
    + intros e k He Hek.
      apply in_app_or in He as [He|[<-|[]]]; [eauto|].
      assert (k = key) as -> by congruence. eauto.
Qed.

Lemma dedupeInv_foldl movies processed st :
  dedupeInv processed st -> dedupeInv (processed ++ movies) (foldl dedupeStep st movies).
Proof.
  revert processed st. induction movies as [|x movies IH]; intros processed st H; cbn.
  - by rewrite app_nil_r.
  - replace (processed ++ x :: movies) with ((processed ++ [x]) ++ movies)
      by (by rewrite <- app_assoc).
    apply IH, dedupeInv_step, H.
Qed.

Lemma dedupeInv_final movies :
  dedupeInv movies (foldl dedupeStep (∅, []) movies).
Proof. apply (dedupeInv_foldl movies [] _ dedupeInv_init). Qed.

Lemma mergeKey_Some_id (m : Movie) (k : Z) :
  mergeKey (Some m) = Some (pretty k) <-> id m = Some k.
Proof.
  unfold mergeKey; cbn. destruct (id m) as [i|]; cbn; split; intros H; try done.
  - injection H as H. by apply (inj pretty) in H as ->.
  - by injection H as ->.
Qed.

Lemma hasId_mergeKey e : hasId e -> is_Some (mergeKey e).
Proof. intros (m & i & -> & Hi). unfold mergeKey; cbn. rewrite Hi. by eexists. Qed.

(** C2, as stated, fails: by the one-point-per-field score the second
    entry is the more complete one, yet the merge keeps the first. *)
Lemma dedupeMoviesById_poster_outweighs :
  let a := posterOnlyMovie 1 in
  let b := plainMovie 1 8 100 in
  id a = id b
  /\ (completenessAsSpecified a < completenessAsSpecified b)%nat
  /\ dedupeMoviesById [Some a; Some b] = [Some a].
Proof. repeat split. vm_compute. lia. Qed.

(** C2 (amended): for every list and every pair of entries sharing an id,
    the merge keeps exactly one entry with that id, and it is one whose
    completeness score is at least that of both entries of the pair (and
    of every other entry with the id), where the score adds 3 for a
    poster, 2 for an overview and 1 each for rating, vote count, release
    date, critic scores, non-empty director list, non-empty cast list and
    non-empty genre list. *)
Theorem dedupeMoviesById_keeps_highest
    (movies : list entry) (i j : nat) (a b : Movie) (k : Z) :
  movies !! i = Some (Some a) ->
  movies !! j = Some (Some b) ->
  id a = Some k ->
  id b = Some k ->
  exists p c,
    dedupeMoviesById movies !! p = Some (Some c)
    /\ id c = Some k
    /\ In (Some c) movies
    /\ (scoreMovieForMerge (Some a) <= scoreMovieForMerge (Some c))%nat
    /\ (scoreMovieForMerge (Some b) <= scoreMovieForMerge (Some c))%nat
    /\ (forall q c', dedupeMoviesById movies !! q = Some (Some c') -> id c' = Some k -> q = p)
    /\ scoreMovieForMerge (Some c) =
         ((if truthyStr (poster_path c) then 3 else 0)
          + (if truthyStr (overview c) then 2 else 0)
          + (if notNullish (vote_average c) then 1 else 0)
          + (if notNullish (vote_count c) then 1 else 0)
          + (if truthyDate (release_date c) then 1 else 0)
          + (if criticScores c is Some _ then 1 else 0)
          + (if nonEmptyArray (directors c) then 1 else 0)
          + (if nonEmptyArray (topCast c) then 1 else 0)
          + (if nonEmptyArray (genre_ids c) then 1 else 0))%nat.
Proof.
  intros Hi Hj Ha Hb.
  assert (Hina : In (Some a) movies)
    by (apply list_elem_of_In; eapply list_elem_of_lookup_2; eauto).
  assert (Hinb : In (Some b) movies)
    by (apply list_elem_of_In; eapply list_elem_of_lookup_2; eauto).
  rewrite dedupeMoviesById_foldl.
  destruct (dedupeInv_final movies) as (Hseen & Hslots & Hkeys).
  apply mergeKey_Some_id in Ha, Hb.
  destruct (Hkeys _ _ Hina Ha) as [[p sc] Hlookup].
  destruct (Hseen _ _ _ Hlookup) as (c & Hslot & Hk & Hsc & Hcin & Hmax).
  destruct c as [c|]; [|discriminate].
  exists p, c. repeat split; auto.
  - by apply mergeKey_Some_id.
  - rewrite Hsc. by apply Hmax.
  - rewrite Hsc. by apply Hmax.
  - intros q c' Hq Hk'. apply mergeKey_Some_id in Hk'.
    pose proof (Hslots _ _ _ Hq Hk') as Hs. congruence.
Qed.

Lemma dedupeMoviesById_keeps_highest_witness :
  let a := posterOnlyMovie 1 in
  let b := plainMovie 1 8 100 in
  exists p c,
    dedupeMoviesById [Some b; Some a] !! p = Some (Some c)
    /\ id c = Some 1%Z
    /\ In (Some c) [Some b; Some a]
    /\ (scoreMovieForMerge (Some b) <= scoreMovieForMerge (Some c))%nat
    /\ (scoreMovieForMerge (Some a) <= scoreMovieForMerge (Some c))%nat.
Proof.
  intros a b.
  destruct (dedupeMoviesById_keeps_highest [Some b; Some a] 0 1 b a 1%Z
              eq_refl eq_refl eq_refl eq_refl)
    as (p & c & H1 & H2 & H3 & H4 & H5 & _).
  exists p, c. repeat split; assumption.
Defined.

(** *** Idempotence *)

Lemma dedupeStep_absorbed processed st x :
  dedupeInv processed st -> In x processed -> is_Some (mergeKey x) ->
  dedupeStep st x = st.
Proof.
  destruct st as [seen result]. intros (Ha & Hb & Hc) Hin [key Hkey].
  cbn [fst snd] in Ha, Hb, Hc.
  unfold dedupeStep. rewrite Hkey.
  destruct (Hc _ _ Hin Hkey) as [[idx sc] Hseen]. rewrite Hseen. cbn [fst snd].
  destruct (Ha _ _ _ Hseen) as (c & _ & _ & _ & _ & Hmax).
  specialize (Hmax x Hin Hkey).
  destruct (Nat.ltb_spec sc (scoreMovieForMerge x)) as [E|E]; [lia | reflexivity].
Qed.

Lemma foldl_dedupeStep_absorbed processed st movies :
  dedupeInv processed st ->
  (forall x, In x movies -> In x processed /\ is_Some (mergeKey x)) ->
  foldl dedupeStep st movies = st.
Proof.
  intros Hinv. induction movies as [|x movies IH]; intros Hall; cbn; [done|].
  destruct (Hall x (or_introl eq_refl)) as [Hin Hk].
  rewrite (dedupeStep_absorbed processed st x Hinv Hin Hk).
  apply IH. intros y Hy. apply Hall. by right.
Qed.

(** C9, as stated, fails: an entry without an id is pushed through on
    every occurrence, so doubling the list doubles it. *)
Lemma dedupeMoviesById_anonymous_doubles :
  let l := [Some anonymousMovie] in
  dedupeMoviesById l = [Some anonymousMovie]
  /\ dedupeMoviesById (l ++ l) = [Some anonymousMovie; Some anonymousMovie]
  /\ length (dedupeMoviesById (l ++ l)) <> length (dedupeMoviesById l)
  /\ dedupeMoviesById (l ++ l) <> dedupeMoviesById l.
Proof.
  repeat split; try reflexivity.
  - vm_compute. lia.
  - vm_compute. discriminate.
Qed.

(** C9 (amended): on every list whose entries all carry an id, merging
    the list concatenated with itself gives exactly the result of merging
    the list once: the same length, the same kept elements, the same
    scores. *)
Theorem dedupeMoviesById_idempotent (l : list entry) :
  Forall hasId l ->
  dedupeMoviesById (l ++ l) = dedupeMoviesById l
  /\ length (dedupeMoviesById (l ++ l)) = length (dedupeMoviesById l)
  /\ map scoreMovieForMerge (dedupeMoviesById (l ++ l))
     = map scoreMovieForMerge (dedupeMoviesById l).
Proof.
  intros Hall.
  assert (Heq : dedupeMoviesById (l ++ l) = dedupeMoviesById l).
  { rewrite !dedupeMoviesById_foldl, foldl_app.
    rewrite (foldl_dedupeStep_absorbed l _ l (dedupeInv_final l)); [done|].
    intros x Hx. split; [done|].
    apply hasId_mergeKey. by eapply List.Forall_forall in Hall. }
  by rewrite Heq.
Qed.

Lemma dedupeMoviesById_idempotent_witness :
  let l := [Some (posterOnlyMovie 1); Some (plainMovie 2 8 100); Some (plainMovie 1 8 100)] in
  Forall hasId l
  /\ dedupeMoviesById (l ++ l) = dedupeMoviesById l.
Proof.
  intros l.
  assert (H : Forall hasId l) by (repeat constructor; by do 2 eexists).
  split; [exact H|].
  exact (proj1 (dedupeMoviesById_idempotent l H)).
Defined.

(** ** Cache keys *)

Section StableSort.

Context {A : Type} (cmp : A -> A -> comparison).
Hypothesis cmp_total : forall a b, cmp a b = Gt -> cmp b a <> Gt.
Hypothesis cmp_trans : forall a b c, cmp a b <> Gt -> cmp b c <> Gt -> cmp a c <> Gt.

Lemma insertSorted_perm x l : Permutation (x :: l) (Cache.insertSorted cmp x l).
Proof.
  induction l as [|y l IH]; cbn; [reflexivity|].
  destruct (cmp x y); try reflexivity.
  rewrite perm_swap. by constructor.
Qed.

Lemma stableSort_perm l : Permutation l (Cache.stableSort cmp l).
Proof.
  induction l as [|x l IH]; cbn; [constructor|].
  rewrite <- insertSorted_perm. by constructor.
Qed.

Lemma insertSorted_sorted x l :
  StronglySorted (notAfter cmp) l -> StronglySorted (notAfter cmp) (Cache.insertSorted cmp x l).
Proof using cmp_total cmp_trans.
  induction 1 as [|y l Hl IH Hy]; cbn.
  - repeat constructor.
  - destruct (cmp x y) eqn:E.
    + constructor; [by constructor|].
      assert (Hxy : notAfter cmp x y) by (unfold notAfter; congruence).
      constructor; [exact Hxy|].
      eapply List.Forall_impl; [|exact Hy]. intros z Hz. by eapply cmp_trans.
    + constructor; [by constructor|].
      assert (Hxy : notAfter cmp x y) by (unfold notAfter; congruence).
      constructor; [exact Hxy|].
      eapply List.Forall_impl; [|exact Hy]. intros z Hz. by eapply cmp_trans.
    + constructor; [exact IH|].
      rewrite <- insertSorted_perm.
      constructor; [by apply cmp_total | exact Hy].
Qed.

Lemma stableSort_sorted l : StronglySorted (notAfter cmp) (Cache.stableSort cmp l).
Proof using cmp_total cmp_trans.
  induction l as [|x l IH]; cbn; [constructor|].
  by apply insertSorted_sorted.
Qed.

(** Two sorted arrangements of the same elements coincide when the
    comparator tells the elements apart. *)
Lemma sorted_perm_unique l1 l2 :
  (forall a b, In a l1 -> In b l1 -> cmp a b <> Gt -> cmp b a <> Gt -> a = b) ->
  StronglySorted (notAfter cmp) l1 -> StronglySorted (notAfter cmp) l2 ->
  Permutation l1 l2 -> l1 = l2.
Proof.
  revert l2. induction l1 as [|x l1 IH]; intros l2 Hanti H1 H2 Hp.
  - by apply Permutation_nil in Hp.
  - destruct l2 as [|y l2]; [by apply Permutation_sym, Permutation_nil in Hp|].
    apply StronglySorted_inv in H1 as [H1 Hx], H2 as [H2 Hy].
    assert (x = y) as <-.
    { assert (Hyin : In y (x :: l1))
        by (eapply Permutation_in; [symmetry; exact Hp | by left]).
      assert (Hxin : In x (y :: l2))
        by (eapply Permutation_in; [exact Hp | by left]).
      destruct Hyin as [->|Hyin]; [done|].
      destruct Hxin as [->|Hxin]; [done|].
      apply Hanti; [by left | by right | |].
      - eapply List.Forall_forall in Hx; eauto.
      - eapply List.Forall_forall in Hy; eauto. }
    f_equal. apply IH; auto.
    + intros a b Ha Hb. apply Hanti; by right.
    + by eapply Permutation_cons_inv.
Qed.

Lemma stableSort_perm_eq l1 l2 :
  (forall a b, In a l1 -> In b l1 -> cmp a b <> Gt -> cmp b a <> Gt -> a = b) ->
  Permutation l1 l2 -> Cache.stableSort cmp l1 = Cache.stableSort cmp l2.
Proof using cmp_total cmp_trans.
  intros Hanti Hp. apply sorted_perm_unique.
  - intros a b Ha Hb.
    apply Hanti; (eapply Permutation_in; [symmetry; apply stableSort_perm | assumption]).
  - apply stableSort_sorted.
  - apply stableSort_sorted.
  - rewrite <- !stableSort_perm. exact Hp.
Qed.

End StableSort.

(** ** Time to live *)

Lemma mapGet_mapSet {V : Type} key (value : V) m :
  mapGet key (mapSet key value m) = Some value.
Proof.
  induction m as [|[k v] m IH]; cbn.
  - by rewrite String.eqb_refl.
  - destruct (String.eqb k key) eqn:E; cbn; rewrite E; [done | exact IH].
Qed.

Lemma mapGet_mapDelete_ne {V : Type} key key' (m : list (string * V)) :
  key <> key' -> mapGet key (mapDelete key' m) = mapGet key m.
Proof.
  intros Hne. induction m as [|[k v] m IH]; cbn; [done|].
  destruct (String.eqb_spec k key'), (String.eqb_spec k key); cbn; subst; try done.
  - destruct (String.eqb_spec key key); done.
  - destruct (String.eqb_spec k key); done.
Qed.

Lemma length_mapSet {V : Type} key (value : V) m :
  length (mapSet key value m)
  = if mapGet key m is Some _ then length m else S (length m).
Proof.
  induction m as [|[k v] m IH]; cbn; [done|].
  destruct (String.eqb k key); cbn; [done|]. rewrite IH. by destruct (mapGet key m).
Qed.

Lemma mapSet_head {V : Type} key (value : V) m k0 v0 m' :
  mapSet key value m = (k0, v0) :: m' ->
  mapGet key m = None -> m <> [] -> k0 <> key.
Proof.
  destruct m as [|[k v] m]; [done|]. cbn.
  destruct (String.eqb_spec k key) as [->|Hne]; [done|].
  intros [= -> _ _] _ _. done.
Qed.

(** Remembering an entry in a map within its size bound makes it
    readable: the eviction never removes the entry just stored. *)
Lemma rememberInMemory_get docId payload b fetchedAt cache :
  docId <> ""%string ->
  Cache.nonEmptyString (Cache.body payload) = Some b ->
  (length cache <= Cache.MAX_IN_MEMORY_CACHE_ENTRIES)%nat ->
  mapGet docId (Cache.rememberInMemory false docId payload fetchedAt cache)
  = Some {| Cache.m_response := storedResponse payload b; Cache.m_fetchedAt := fetchedAt |}.
Proof.
  intros Hid Hb Hlen. unfold Cache.rememberInMemory. rewrite Hb.
  destruct docId as [|c docId']; [done|].
  set (docId := String c docId'). set (e := Cache.mkMemEntry _ _).
  destruct (Nat.ltb_spec Cache.MAX_IN_MEMORY_CACHE_ENTRIES
              (length (mapSet docId e cache))) as [Hover|_];
    [|apply mapGet_mapSet].
  rewrite length_mapSet in Hover.
  destruct (mapGet docId cache) eqn:Hget; [lia|].
  destruct (mapSet docId e cache) as [|[k0 v0] m'] eqn:Hset;
    [rewrite <- Hset; apply mapGet_mapSet|].
  rewrite mapGet_mapDelete_ne; [rewrite <- Hset; apply mapGet_mapSet|].
  intros Heq. eapply mapSet_head; eauto.
  intros ->. cbn in Hover. unfold Cache.MAX_IN_MEMORY_CACHE_ENTRIES in Hover. lia.
Qed.

Lemma rememberInMemory_length require docId payload fetchedAt cache :
  (length cache <= Cache.MAX_IN_MEMORY_CACHE_ENTRIES)%nat ->
  (length (Cache.rememberInMemory require docId payload fetchedAt cache)
   <= Cache.MAX_IN_MEMORY_CACHE_ENTRIES)%nat.
Proof.
  intros Hlen. unfold Cache.rememberInMemory.
  destruct require; [done|].
  destruct docId as [|c docId']; [done|].
  destruct (Cache.nonEmptyString (Cache.body payload)); [|done].
  set (docId := String c docId'). set (e := Cache.mkMemEntry _ _).
  destruct (Nat.ltb_spec Cache.MAX_IN_MEMORY_CACHE_ENTRIES
              (length (mapSet docId e cache))) as [Hover|Hok]; [|done].
  rewrite length_mapSet in Hover.
  destruct (mapGet docId cache) eqn:Hget; [lia|].
  pose proof (length_mapSet docId e cache) as Hl. rewrite Hget in Hl.
  destruct (mapSet docId e cache) as [|[k0 v0] m'] eqn:Hset; [cbn in Hl; lia|].
  cbn. rewrite String.eqb_refl. cbn in Hl. lia.
Qed.

Lemma expired_before ttl T : (0 < ttl)%Z -> Cache.expired (Some ttl) (T + ttl - 1) T = false.
Proof.
  intros H. unfold Cache.expired.
  destruct (Z.ltb_spec 0 ttl), (Z.ltb_spec ttl (T + ttl - 1 - T)); cbn; try done; lia.
Qed.

Lemma expired_after ttl T : (0 < ttl)%Z -> Cache.expired (Some ttl) (T + ttl + 1) T = true.
Proof.
  intros H. unfold Cache.expired.
  destruct (Z.ltb_spec 0 ttl), (Z.ltb_spec ttl (T + ttl + 1 - T)); cbn; try done; lia.
Qed.

(** The in-memory read of an entry remembered at [T]. *)
Lemma readInMemoryCache_ttl docId payload b T ttl cache :
  docId <> ""%string ->
  Cache.nonEmptyString (Cache.body payload) = Some b ->
  (length cache <= Cache.MAX_IN_MEMORY_CACHE_ENTRIES)%nat ->
  (0 < ttl)%Z ->
  let cache' := Cache.rememberInMemory false docId payload T cache in
  (Cache.readInMemoryCache false docId (Some ttl) (T + ttl - 1) cache').1
  = Some (storedResponse payload b)
  /\ (Cache.readInMemoryCache false docId (Some ttl) (T + ttl + 1) cache').1 = None.
Proof.
  intros Hid Hb Hlen Httl cache'.
  pose proof (rememberInMemory_get docId payload b T cache Hid Hb Hlen) as Hget.
  fold cache' in Hget. unfold Cache.readInMemoryCache. rewrite Hget.
  destruct docId; [done|]. cbn [Cache.m_fetchedAt Cache.m_response].
  by rewrite expired_before, expired_after.
Qed.

Lemma storedResponse_normalized payload b :
  Cache.nonEmptyString (Cache.body payload) = Some b ->
  storedResponse
    {| Cache.status := Some (default 200%Z (Cache.status payload));
       Cache.contentType :=
         Some (default "application/json"%string
                 (Cache.nonEmptyString (Cache.contentType payload)));
       Cache.body := Some b;
       Cache.metadata := Cache.metadata payload |} b
  = storedResponse payload b
  /\ Cache.nonEmptyString (Some b) = Some b.
Proof.
  intros Hb. unfold storedResponse. cbn.
  assert (Hb' : Cache.nonEmptyString (Some b) = Some b).
  { destruct (Cache.body payload) as [[|c s]|]; cbn in Hb; try done. by injection Hb as <-. }
  split; [|exact Hb']. f_equal.
  destruct (Cache.contentType payload) as [[|c s]|]; reflexivity.
Qed.

(** C8: an entry written at time [T] is returned by a read of the same
    key at [T + ttl - 1] and is a miss at [T + ttl + 1], for every
    positive [ttl]: (1) on the in-memory fallback, when the durable store
    cannot be reached and is not required; (2) on the durable-store path,
    when the store is healthy, whether or not it is required. *)
Theorem cache_ttl_respected
    (localeCompare : string -> string -> comparison) (require : bool)
    (collection : string) (parts : Cache.part) (payload : Cache.Payload) (b : string)
    (T ttl : Z) (db : Cache.Firestore) (cache : Cache.MemCache) :
  Cache.nonEmptyString (Cache.body payload) = Some b ->
  Cache.buildCacheId localeCompare parts <> ""%string ->
  (0 < ttl)%Z ->
  (0 < T)%Z ->
  (length cache <= Cache.MAX_IN_MEMORY_CACHE_ENTRIES)%nat ->
  let after := Cache.writeCachedResponse require localeCompare collection parts payload T db cache in
  let read now :=
    (Cache.readCachedResponse require localeCompare collection parts (Some ttl) now
       after.1 after.2).1 in
  (require = false -> unreachable db ->
     read (T + ttl - 1)%Z = Some (storedResponse payload b)
     /\ read (T + ttl + 1)%Z = None)
  /\ (forall docs, db = Cache.Db true docs ->
        read (T + ttl - 1)%Z = Some (storedResponse payload b)
        /\ read (T + ttl + 1)%Z = None).
Proof.
  intros Hb Hid Httl HT Hlen after read.
  destruct (storedResponse_normalized payload b Hb) as [Hnorm Hb'].
  split.
  - intros -> Hun.
    assert (Hafter : exists db', unreachable db' /\ after =
              (db', Cache.rememberInMemory false (Cache.buildCacheId localeCompare parts)
                      {| Cache.status := Some (default 200%Z (Cache.status payload));
                         Cache.contentType :=
                           Some (default "application/json"%string
                                   (Cache.nonEmptyString (Cache.contentType payload)));
                         Cache.body := Some b;
                         Cache.metadata := Cache.metadata payload |} T cache)).
    { unfold after, Cache.writeCachedResponse. rewrite Hb.
      destruct db as [|[] docs]; cbn in Hun; try done; eexists; split; try reflexivity; done. }
    destruct Hafter as (db' & Hun' & Hafter).
    assert (Hread : forall now,
              read now = (Cache.readInMemoryCache false (Cache.buildCacheId localeCompare parts)
                            (Some ttl) now after.2).1).
    { intros now. unfold read, Cache.readCachedResponse. rewrite Hafter. cbn [fst snd].
      destruct db' as [|[] docs]; cbn in Hun'; try done. }
    rewrite !Hread, Hafter. cbn [snd]. rewrite <- Hnorm.
    by apply readInMemoryCache_ttl.
  - intros docs ->.
    unfold read, after, Cache.writeCachedResponse, Cache.readCachedResponse.
    rewrite Hb. cbn [fst snd]. rewrite lookup_insert_eq.
    cbn [Cache.d_body Cache.d_fetchedAt Cache.d_status Cache.d_contentType Cache.d_metadata
         Cache.body Cache.status Cache.contentType Cache.metadata].
    rewrite Hb'.
    destruct (Z.eqb_spec T 0) as [->|_]; [lia|].
    rewrite expired_before, expired_after by done. cbn [fst].
    split; [|done]. f_equal. unfold storedResponse. cbn. f_equal.
    destruct (Cache.contentType payload) as [[|c s]|]; reflexivity.
Qed.

Lemma cache_ttl_respected_witness :
  let durable :=
    Cache.writeCachedResponse false String.compare "tmdbCache" sampleParts samplePayload
      1000 (Cache.Db true ∅) [] in
  let inMemory :=
    Cache.writeCachedResponse false String.compare "tmdbCache" sampleParts samplePayload
      1000 Cache.NoFirestore [] in
  let read (after : Cache.Firestore * Cache.MemCache) now :=
    (Cache.readCachedResponse false String.compare "tmdbCache" sampleParts (Some 60%Z) now
       after.1 after.2).1 in
  (read durable (1000 + 60 - 1)%Z = Some (storedResponse samplePayload "{}")
   /\ read durable (1000 + 60 + 1)%Z = None)
  /\ (read inMemory (1000 + 60 - 1)%Z = Some (storedResponse samplePayload "{}")
      /\ read inMemory (1000 + 60 + 1)%Z = None).
Proof.
  intros durable inMemory read.
  assert (H1 : Cache.nonEmptyString (Cache.body samplePayload) = Some "{}"%string)
    by reflexivity.
  assert (H2 : Cache.buildCacheId String.compare sampleParts <> ""%string)
    by (vm_compute; discriminate).
  assert (H3 : (0 < 60)%Z) by lia.
  assert (H4 : (0 < 1000)%Z) by lia.
  assert (H5 : (length (@nil (string * Cache.MemEntry))
                <= Cache.MAX_IN_MEMORY_CACHE_ENTRIES)%nat)
    by (unfold Cache.MAX_IN_MEMORY_CACHE_ENTRIES; cbn; lia).
  split.
  - destruct (cache_ttl_respected String.compare false "tmdbCache" sampleParts samplePayload
                "{}" 1000 60 (Cache.Db true ∅) [] H1 H2 H3 H4 H5) as [_ Hdurable].
    exact (Hdurable ∅ eq_refl).
  - destruct (cache_ttl_respected String.compare false "tmdbCache" sampleParts samplePayload
                "{}" 1000 60 Cache.NoFirestore [] H1 H2 H3 H4 H5) as [Hmemory _].
    exact (Hmemory eq_refl I).
Defined.

(** ** Discovery cursor *)

Lemma mapGet_None_notin {V : Type} key (m : list (string * V)) :
  mapGet key m = None <-> ~ In key (map fst m).
Proof.
  induction m as [|[k v] m IH]; cbn; [tauto|].
  destruct (String.eqb_spec k key) as [->|Hne]; [split; [done | tauto]|].
  rewrite IH. tauto.
Qed.

Lemma mapDelete_keys_subset {V : Type} key k (m : list (string * V)) :
  In k (map fst (mapDelete key m)) -> In k (map fst m).
Proof.
  induction m as [|[k' v] m IH]; cbn; [done|].
  destruct (String.eqb k' key); cbn; tauto.
Qed.

Lemma mapDelete_uniqueKeys {V : Type} key (m : list (string * V)) :
  uniqueKeys m -> uniqueKeys (mapDelete key m).
Proof.
  unfold uniqueKeys. induction m as [|[k v] m IH]; cbn; [done|].
  intros [Hnotin Hnd]%NoDup_cons.
  destruct (String.eqb k key); cbn; [done|].
  apply NoDup_cons. split; [|auto].
  rewrite list_elem_of_In in *. intros Hin. apply Hnotin. by eapply mapDelete_keys_subset.
Qed.

Lemma mapGet_mapDelete {V : Type} key (m : list (string * V)) :
  uniqueKeys m -> mapGet key (mapDelete key m) = None.
Proof.
  unfold uniqueKeys. induction m as [|[k v] m IH]; cbn; [done|].
  intros [Hnotin Hnd]%NoDup_cons.
  destruct (String.eqb_spec k key) as [->|Hne]; cbn.
  - apply mapGet_None_notin. by rewrite <- list_elem_of_In.
  - destruct (String.eqb_spec k key); [done | auto].
Qed.

Lemma mapSet_fresh {V : Type} key (value : V) m :
  mapGet key m = None -> mapSet key value m = m ++ [(key, value)].
Proof.
  induction m as [|[k v] m IH]; cbn; [done|].
  destruct (String.eqb k key); [done|]. intros H. by rewrite IH.
Qed.

Lemma mapSet_keys {V : Type} key (value : V) m :
  is_Some (mapGet key m) -> map fst (mapSet key value m) = map fst m.
Proof.
  induction m as [|[k v] m IH]; cbn; [by intros [? ?]|].
  destruct (String.eqb k key); cbn; [done|]. intros H. by rewrite IH.
Qed.

Lemma mapSet_uniqueKeys {V : Type} key (value : V) m :
  uniqueKeys m -> uniqueKeys (mapSet key value m).
Proof.
  unfold uniqueKeys. intros Hnd.
  destruct (mapGet key m) eqn:Hget.
  - rewrite mapSet_keys; [done | by eexists].
  - rewrite mapSet_fresh by done. rewrite map_app. cbn.
    apply NoDup_app. repeat split; [done | | apply NoDup_singleton].
    intros k Hk [->|[]]%list_elem_of_In. apply mapGet_None_notin in Hget.
    by apply Hget, list_elem_of_In.
Qed.





Section DiscoverLoop.

Context (applyFeedFilters : list Movie -> list Movie) (now : Z) (minFeedSize : nat)
  (suppressedIds : gset string) (fetchDiscoverPage : Z -> Discover.PageResponse).

Abbreviation loop := (Discover.discoverLoop applyFeedFilters now minFeedSize suppressedIds
                        fetchDiscoverPage).

(** Pages are requested one by one in increasing order, starting at the
    page the loop is entered with; the loop leaves with [page] one past
    the last page requested. *)
Lemma discoverLoop_pages fuel st :
  match loop fuel st with
  | Discover.Enough st' =>
      (Discover.l_page st < Discover.l_page st')%Z
      /\ Discover.l_fetched st'
         = Discover.l_fetched st
           ++ seqZ (Discover.l_page st) (Discover.l_page st' - Discover.l_page st)
  | Discover.Finished _ st' =>
      (Discover.l_page st <= Discover.l_page st')%Z
      /\ Discover.l_fetched st'
         = Discover.l_fetched st
           ++ seqZ (Discover.l_page st) (Discover.l_page st' - Discover.l_page st)
  | Discover.Threw st' =>
      exists k, (0 < k)%Z
        /\ Discover.l_fetched st' = Discover.l_fetched st ++ seqZ (Discover.l_page st) k
  | Discover.OutOfFuel => True
  end.
Proof.
  revert st. induction fuel as [|fuel IH]; intros st; cbn [Discover.discoverLoop].
  - destruct (negb _); [|done]. split; [lia|].
    by rewrite Z.sub_diag, seqZ_nil, app_nil_r.
  - destruct (negb _); [split; [lia|]; by rewrite Z.sub_diag, seqZ_nil, app_nil_r|].
    destruct (fetchDiscoverPage (Discover.l_page st)) as [pageResults reportedTotal|].
    2:{ exists 1%Z. split; [lia|]. cbn. by rewrite seqZ_cons, seqZ_nil by lia. }
    cbv zeta.
    set (merged := foldl _ _ pageResults).
    set (totalPages := match Discover.positiveOrNull reportedTotal with
                       | Some t => Some t | None => Discover.l_totalPages st end).
    destruct (minFeedSize <=? _)%nat.
    { cbn. split; [lia|]. f_equal.
      replace (Discover.l_page st + 1 - Discover.l_page st)%Z with 1%Z by lia.
      by rewrite seqZ_cons, seqZ_nil by lia. }
    destruct (isEmpty pageResults && _).
    { cbn. split; [lia|]. f_equal.
      replace (Discover.l_page st + 1 - Discover.l_page st)%Z with 1%Z by lia.
      by rewrite seqZ_cons, seqZ_nil by lia. }
    match goal with |- context [loop fuel ?s] => specialize (IH s); destruct (loop fuel s) end;
      cbn [Discover.l_page Discover.l_fetched] in IH.
    + destruct IH as [Hlt ->]. split; [lia|]. rewrite <- app_assoc. f_equal. cbn.
      rewrite (seqZ_cons (Discover.l_page st)) by lia. do 2 f_equal; lia.
    + destruct IH as [Hle ->]. split; [lia|]. rewrite <- app_assoc. f_equal. cbn.
      rewrite (seqZ_cons (Discover.l_page st)) by lia. do 2 f_equal; lia.
    + destruct IH as (k & Hk & ->). exists (k + 1)%Z. split; [lia|].
      rewrite <- app_assoc. f_equal. cbn.
      rewrite (seqZ_cons (Discover.l_page st)) by lia. do 2 f_equal; lia.
    + done.
Qed.

(** The loop never runs out of iterations. *)
Lemma discoverLoop_terminates fuel st :
  (Z.max (Discover.l_allowedPages st) Discover.MAX_DISCOVER_PAGES_LIMIT
   - Discover.l_page st + 1 <= Z.of_nat fuel)%Z ->
  loop fuel st <> Discover.OutOfFuel.
Proof.
  revert st. induction fuel as [|fuel IH]; intros st Hfuel; cbn [Discover.discoverLoop].
  - destruct (Z.leb_spec (Discover.l_page st) (Discover.l_allowedPages st)); cbn; [lia|done].
  - destruct (negb _) eqn:Hcond; [done|].
    apply negb_false_iff, andb_true_iff in Hcond as [Hle%Z.leb_le _].
    destruct (fetchDiscoverPage (Discover.l_page st)) as [pageResults reportedTotal|]; [|done].
    cbv zeta. destruct (minFeedSize <=? _)%nat; [done|].
    destruct (isEmpty pageResults && _); [done|].
    apply IH. cbn [Discover.l_page Discover.l_allowedPages].
    unfold Discover.MAX_DISCOVER_PAGES_LIMIT, Discover.INITIAL_DISCOVER_PAGES in *.
    destruct (_ && _); lia.
Qed.

End DiscoverLoop.

(** The ranking used by the discovery call is the priority ordering,
    which never fails. *)
Lemma rank_applyPriorityOrdering now collected :
  applyPriorityOrdering now collected = Some (Discover.rank now collected).
Proof.
  unfold Discover.rank.
  destruct (applyPriorityOrdering_scored now collected) as (_ & scored & _ & _ & ->).
  reflexivity.
Qed.

Lemma resumePage_ge e : (Discover.nextPage e <= resumePage e)%Z /\ (1 <= resumePage e)%Z.
Proof. unfold resumePage. destruct (Z.eqb_spec (Discover.nextPage e) 0); lia. Qed.

Lemma startPage_ge_1 key h : (1 <= startPage key h)%Z.
Proof.
  unfold startPage. destruct (Discover.readTmdbDiscoverState key h); [apply resumePage_ge | lia].
Qed.


(** A call always settles: the iterations granted to the loop suffice. *)
Lemma fetchMoviesFromTmdb_settles applyFeedFilters now minFeedSize suppressedIds
    fetchDiscoverPage key existingMovies h :
  Discover.fetchMoviesFromTmdb applyFeedFilters now minFeedSize suppressedIds
    fetchDiscoverPage key existingMovies h <> Discover.Diverged.
Proof.
  unfold Discover.fetchMoviesFromTmdb.
  destruct (minFeedSize <=? _)%nat; [done|].
  match goal with |- context [if ?c then Discover.Resolved _ h [] else _] => destruct c end;
    [done|].
  match goal with
  | |- context [Discover.discoverLoop ?a ?b ?c ?d ?e ?fuel ?st] =>
      pose proof (discoverLoop_terminates a b c d e fuel st) as Hterm;
      destruct (Discover.discoverLoop a b c d e fuel st)
  end; try done.
  exfalso. apply Hterm; [|done].
  cbn [Discover.l_page Discover.l_allowedPages]. unfold Discover.loopFuel. lia.
Qed.









(** An exhausted cursor whose total page count is unknown gives no range
    to skip: the next call requests the resume page again. *)
Remark exhausted_without_total_is_probed_again :
  let key := Discover.buildTmdbDiscoverKey true noFilters in
  let probe :=
    {| c_applyFeedFilters := fun movies => movies; c_now := 1700000000000;
       c_minFeedSize := 12; c_suppressedIds := ∅;
       c_fetchDiscoverPage := fun _ => Discover.Page [] None;
       c_existingMovies := [] |} in
  let first := runCall key probe [] in
  (exists st, cursorWritten key first = Some st
              /\ Discover.exhausted st = true /\ Discover.totalPages st = None
              /\ Discover.nextPage st = 2%Z)
  /\ exists movies h', runCall key probe (historyAfter [] first)
                       = Discover.Resolved movies h' [2%Z].
Proof.
  intros key probe first. split.
  - eexists. split; [vm_compute; reflexivity|]. by repeat split.
  - do 2 eexists. vm_compute. reflexivity.
Qed.

(** ** Critic-score state *)

Section CriticState.

Context {Scores : Type} (normalizeCriticScoresObject : Scores -> Scores).

Abbreviation getState := (Critic.getCriticScoreState Scores normalizeCriticScoresObject).
Abbreviation setState := (Critic.setCriticScoreState Scores normalizeCriticScoresObject).
Abbreviation statusOf := (Critic.statusOf Scores normalizeCriticScoresObject).


(** Observing the state does not change what is observed, nor the
    identity of the item. *)
Lemma getCriticScoreState_stable movie store :
  let '(state, movie', store') := getState movie store in
  statusOf movie' store' = Critic.status Scores state
  /\ Critic.info Scores movie' = Critic.info Scores movie.
Proof.
  unfold Critic.statusOf. unfold Critic.getCriticScoreState at 1.
  destruct (Critic.criticScoresState Scores movie) as [state|] eqn:Hst.
  { unfold Critic.getCriticScoreState. rewrite Hst. done. }
  destruct (Critic.getMovieCacheKey (Critic.info Scores movie) ≫= _) as [state|] eqn:Hkey.
  { done. }
  destruct (normalizeCriticScoresObject <$> Critic.criticScores Scores movie)
    as [scores|] eqn:Hsc.
  { done. }
  unfold Critic.getCriticScoreState. rewrite Hst, Hkey, Hsc. done.
Qed.

End CriticState.



(** * Further properties of the code *)

(** ** Candidate selection *)

Lemma meetsQualityThreshold_weaken e a v a' v' :
  (a' <= a)%Q -> (v' <= v)%Q ->
  meetsQualityThreshold e a v = true -> meetsQualityThreshold e a' v' = true.
Proof.
  intros Ha Hv. unfold meetsQualityThreshold. destruct e as [m|]; [|done].
  cbv zeta. destruct (Number _); try done. destruct (Number _); try done.
  rewrite !andb_true_iff, !Qle_bool_iff. intros [H1 H2].
  split; eapply Qle_trans; eauto.
Qed.

(** X1: an item that reaches the strictest quality tier (rating at least
    7 with at least 50 votes) is always among the selected candidates,
    whichever tier the selection settles on. *)
Theorem selectPriorityCandidates_keeps_top_tier (movies : list entry) (e : entry) :
  In e movies ->
  meetsQualityThreshold e MIN_VOTE_AVERAGE (inject_Z MIN_VOTE_COUNT) = true ->
  In e (selectPriorityCandidates movies).
Proof.
  intros Hin Hmeets. unfold selectPriorityCandidates.
  destruct movies as [|x movies']; [destruct Hin|]. cbn [isEmpty].
  set (movies := x :: movies') in *.
  rewrite thresholds_values. cbn [selectLoop].
  assert (H1 : In e (List.filter (fun movie => meetsQualityThreshold movie 7 50) movies))
    by (apply filter_In; split; [exact Hin | exact Hmeets]).
  assert (H2 : In e (List.filter (fun movie => meetsQualityThreshold movie (65 # 10) 25) movies)).
  { apply filter_In; split; [exact Hin|].
    eapply meetsQualityThreshold_weaken; [| |exact Hmeets]; by vm_compute. }
  assert (H3 : In e (List.filter (fun movie => meetsQualityThreshold movie 6 10) movies)).
  { apply filter_In; split; [exact Hin|].
    eapply meetsQualityThreshold_weaken; [| |exact Hmeets]; by vm_compute. }
  destruct (List.filter (fun movie => meetsQualityThreshold movie 7 50) movies)
    as [|y t1] eqn:E1; [destruct H1|].
  destruct (List.filter (fun movie => meetsQualityThreshold movie (65 # 10) 25) movies)
    as [|y2 t2] eqn:E2; [destruct H2|].
  destruct (List.filter (fun movie => meetsQualityThreshold movie 6 10) movies)
    as [|y3 t3] eqn:E3; [destruct H3|].
  cbn [isEmpty negb andb].
  repeat (match goal with |- context [if ?c then _ else _] => destruct c end);
    assumption.
Qed.

Lemma selectPriorityCandidates_keeps_top_tier_witness :
  In (Some (topTierMovie 1)) (selectPriorityCandidates [Some (unratedMovie 2); Some (topTierMovie 1)]).
Proof.
  apply selectPriorityCandidates_keeps_top_tier; [right; left; reflexivity | reflexivity].
Defined.

(** X2: the selection is empty only when no item has both a finite
    [vote_average] and a finite [vote_count]. *)
Theorem selectPriorityCandidates_nonempty (movies : list entry) (e : entry) :
  In e movies ->
  hasNumericRatingAndVotes e = true ->
  selectPriorityCandidates movies <> [].
Proof.
  intros Hin Hnum. unfold selectPriorityCandidates.
  destruct movies as [|x movies']; [destruct Hin|]. cbn [isEmpty].
  set (movies := x :: movies') in *.
  assert (Hlast : List.filter hasNumericRatingAndVotes movies <> []).
  { intros Hnil. assert (H : In e (List.filter hasNumericRatingAndVotes movies))
      by (apply filter_In; by split).
    rewrite Hnil in H. destruct H. }
  assert (Hloop : forall ths bestFallback,
             selectLoop movies ths bestFallback <> []).
  { induction ths as [|[a v] ths IH]; intros best; cbn [selectLoop].
    - destruct best; cbn [isEmpty negb]; [exact Hlast | done].
    - destruct (Nat.leb_spec MIN_PRIORITY_RESULTS
                  (length (List.filter (fun movie => meetsQualityThreshold movie a v) movies)))
        as [Hge|_].
      + intros Hnil. rewrite Hnil in Hge. cbn in Hge. unfold MIN_PRIORITY_RESULTS in Hge. lia.
      + destruct (_ && _); apply IH. }
  apply Hloop.
Qed.

Lemma selectPriorityCandidates_nonempty_witness :
  hasNumericRatingAndVotes (Some (plainMovie 1 3 1)) = true
  /\ selectPriorityCandidates [Some (unratedMovie 2); Some (plainMovie 1 3 1)] <> [].
Proof.
  split; [reflexivity|].
  apply (selectPriorityCandidates_nonempty _ (Some (plainMovie 1 3 1)));
    [right; left; reflexivity | reflexivity].
Defined.

(** ** Priority ordering *)

Lemma recency_range age : (0 <= recency age <= 1)%R.
Proof.
  destruct age as [d|]; cbn [recency]; [|lra].
  destruct (Z.leb_spec d 0) as [_|Hpos]; [lra|].
  destruct (Z.leb_spec yearMs d) as [_|Hlt]; [lra|].
  assert (Hy : (0 < IZR yearMs)%R) by (apply IZR_lt; reflexivity).
  apply IZR_lt in Hpos, Hlt.
  set (q := (IZR d / IZR yearMs)%R).
  assert (Hq : (q * IZR yearMs = IZR d)%R) by (unfold q; field; lra).
  assert (0 <= q <= 1)%R; [|lra].
  split; apply Rnot_lt_le; intros Hc; nra.
Qed.

Lemma confidenceAdjustedRating_range rating votes :
  (0 <= rating <= 1)%R -> (0 <= votes)%R ->
  (0 <= confidenceAdjustedRating rating votes <= 1)%R.
Proof.
  intros Hr Hv. unfold confidenceAdjustedRating. cbv zeta.
  assert (Hw : (0 <= Rmin 1 (votes / 150) <= 1)%R).
  { split; [apply Rmin_glb; lra | apply Rmin_l]. }
  set (w := Rmin 1 (votes / 150)) in *. nra.
Qed.

Lemma normalizedLogVoteVolume_range votes maxVotesInSet volume :
  (0 <= votes <= maxVotesInSet)%R -> (1 <= maxVotesInSet)%R ->
  normalizedLogVoteVolume votes maxVotesInSet = Some volume ->
  (0 <= volume <= 1)%R.
Proof.
  intros Hv Hm. unfold normalizedLogVoteVolume, js_div.
  destruct (Req_dec_T _ 0) as [|Hne]; [done|]. intros [= <-].
  pose proof ln_10_pos as H10.
  assert (Ha : (0 <= ln (votes + 1) / ln 10)%R) by (apply log10_nonneg; lra).
  assert (Hb : (0 < ln (maxVotesInSet + 1) / ln 10)%R) by (apply log10_pos; lra).
  assert (Hle : (ln (votes + 1) <= ln (maxVotesInSet + 1))%R).
  { destruct (Req_dec_T votes maxVotesInSet) as [->|Hneq]; [lra|].
    left. apply ln_increasing; lra. }
  set (a := (ln (votes + 1) / ln 10)%R) in *.
  set (b := (ln (maxVotesInSet + 1) / ln 10)%R) in *.
  assert (Hab : (a <= b)%R).
  { unfold a, b. apply Rmult_le_compat_r; [|exact Hle].
    left. by apply Rinv_0_lt_compat. }
  set (q := (a / b)%R).
  assert (Hq : (q * b = a)%R) by (unfold q; field; lra).
  split; apply Rnot_lt_le; intros Hc; nra.
Qed.

Lemma compositeScore_range rating votes maxVotesInSet age p :
  (0 <= rating <= 1)%R -> (0 <= votes <= maxVotesInSet)%R -> (1 <= maxVotesInSet)%R ->
  compositeScore rating votes maxVotesInSet age = Some p ->
  (0 <= p <= 1)%R.
Proof.
  intros Hr Hv Hm. unfold compositeScore.
  destruct (normalizedLogVoteVolume votes maxVotesInSet) as [volume|] eqn:Hvol; [|done].
  cbn. intros [= <-].
  pose proof (normalizedLogVoteVolume_range _ _ _ Hv Hm Hvol) as Hrange.
  pose proof (confidenceAdjustedRating_range rating votes Hr (proj1 Hv)) as Hc.
  pose proof (recency_range age) as Hrec.
  assert (Hs : (0 <= sqrt volume <= 1)%R).
  { split; [apply sqrt_pos|]. rewrite <- sqrt_1. apply sqrt_le_1; lra. }
  lra.
Qed.

Lemma votesOf_le_largestVotes m l : In m l -> (votesOf m <= largestVotes l)%R.
Proof.
  unfold largestVotes. induction l as [|x l IH]; [intros []|].
  intros [->|Hin]; cbn [map fold_right].
  - apply Rmax_l.
  - etransitivity; [apply IH, Hin | apply Rmax_r].
Qed.

(** X3: the ordering always succeeds, and the score it attaches to every
    item it returns lies between 0 and 1. *)
Theorem applyPriorityOrdering_priority_range (now : Z) (movies : list entry) :
  exists out,
    applyPriorityOrdering now movies = Some out
    /\ Forall (fun m => exists p, __priority m = Some p /\ (0 <= p <= 1)%R) out.
Proof.
  destruct (applyPriorityOrdering_scored now movies) as (cands & scored & _ & HF & Ho).
  exists (sortByPriority scored). split; [exact Ho|].
  apply List.Forall_forall. intros m' Hin.
  apply (Permutation_in _ (Permutation_sym (sortByPriority_perm scored))) in Hin.
  apply list_elem_of_In, list_elem_of_lookup in Hin as [i Hi].
  destruct (Forall2_lookup_r _ _ _ _ _ HF Hi) as (m & Hm & p & Hp & ->).
  exists p. split; [reflexivity|].
  apply list_elem_of_lookup_2, list_elem_of_In in Hm.
  eapply compositeScore_range; [apply ratingOf_range | | apply Rmax_l | exact Hp].
  split; [apply votesOf_nonneg|].
  etransitivity; [apply votesOf_le_largestVotes, Hm | apply Rmax_r].
Qed.

Lemma insertByPriority_filter p x l :
  List.filter (hasPriority p) (insertByPriority x l) = List.filter (hasPriority p) (x :: l).
Proof.
  induction l as [|y l IH]; [reflexivity|]. cbn [insertByPriority].
  destruct (Rle_dec (priorityValue y - priorityValue x) 0) as [|Hgt]; [reflexivity|].
  cbn [List.filter] in *. rewrite IH. unfold hasPriority.
  destruct (Req_dec_T (priorityValue x) p), (Req_dec_T (priorityValue y) p);
    try reflexivity.
  exfalso. apply Hgt. lra.
Qed.

Lemma sortByPriority_filter p l :
  List.filter (hasPriority p) (sortByPriority l) = List.filter (hasPriority p) l.
Proof.
  induction l as [|x l IH]; [reflexivity|].
  unfold sortByPriority in *. cbn [fold_right].
  rewrite insertByPriority_filter. cbn [List.filter]. by rewrite IH.
Qed.

(** X4: the ordering is stable: the returned items that carry the same
    score stand in the order they had among the selected candidates. *)
Theorem applyPriorityOrdering_stable (now : Z) (movies : list entry) :
  exists scored out,
    Forall2 (fun e m' => exists m p, e = Some m /\ m' = withPriority m p)
      (selectPriorityCandidates movies) scored
    /\ applyPriorityOrdering now movies = Some out
    /\ forall p, List.filter (hasPriority p) out = List.filter (hasPriority p) scored.
Proof.
  destruct (applyPriorityOrdering_scored now movies) as (cands & scored & Hc & HF & Ho).
  exists scored, (sortByPriority scored). split; [|split; [exact Ho|]].
  - rewrite Hc. apply Forall2_fmap_l.
    eapply Forall2_impl; [exact HF|].
    intros m m' (p & _ & ->). by exists m, p.
  - intros p. apply sortByPriority_filter.
Qed.

(** ** Merge of duplicates *)

(** The keys of the slots after merging [l] from a state that satisfies
    the loop invariant. *)
Lemma foldl_dedupeStep_keys l processed st :
  dedupeInv processed st ->
  mergeKey <$> (foldl dedupeStep st l).2
  = (mergeKey <$> st.2) ++ firstOccurrences (dom st.1) (mergeKey <$> l).
Proof.
  revert processed st. induction l as [|x l IH]; intros processed st Hinv.
  { cbn. by rewrite app_nil_r. }
  cbn [foldl]. rewrite (IH (processed ++ [x]) _ (dedupeInv_step _ _ _ Hinv)).
  destruct st as [seen result]. destruct Hinv as (Ha & _ & _). cbn [fst snd] in *.
  rewrite fmap_cons. unfold dedupeStep.
  destruct (mergeKey x) as [key|] eqn:Hkey; cbn [firstOccurrences fst snd].
  - destruct (seen !! key) as [[idx sc]|] eqn:Hseen.
    + rewrite bool_decide_eq_true_2 by (apply elem_of_dom; eauto).
      destruct (Ha _ _ _ Hseen) as (c & Hslot & Hck & _).
      cbn [fst snd]. destruct (sc <? scoreMovieForMerge x)%nat; cbn [fst snd]; [|done].
      rewrite dom_insert_lookup_L by eauto.
      rewrite list_fmap_insert, Hkey, <- Hck.
      rewrite list_insert_id; [done|]. by rewrite list_lookup_fmap, Hslot.
    + rewrite bool_decide_eq_false_2 by (by apply not_elem_of_dom).
      cbn [fst snd]. rewrite dom_insert_L, fmap_app, <- app_assoc. cbn. by rewrite Hkey.
  - rewrite fmap_app, <- app_assoc. cbn. by rewrite Hkey.
Qed.

Lemma firstOccurrences_length seen keys :
  (length (firstOccurrences seen keys) <= length keys)%nat.
Proof.
  revert seen. induction keys as [|[k|] keys IH]; intros seen; cbn; [lia| |].
  - destruct (bool_decide _); cbn; [specialize (IH seen) | specialize (IH ({[k]} ∪ seen))]; lia.
  - specialize (IH seen). lia.
Qed.

Lemma firstOccurrences_NoDup seen keys :
  NoDup (omap (fun key => key) (firstOccurrences seen keys))
  /\ forall k, k ∈ omap (fun key => key) (firstOccurrences seen keys) -> k ∉ seen.
Proof.
  revert seen. induction keys as [|[k|] keys IH]; intros seen; cbn [firstOccurrences].
  - split; [constructor | intros k Hk; by apply elem_of_nil in Hk].
  - destruct (bool_decide_reflect (k ∈ seen)) as [Hin|Hnotin]; [apply IH|].
    destruct (IH ({[k]} ∪ seen)) as [Hnd Hfresh]. cbn. split.
    + constructor; [|exact Hnd]. intros Hk. apply Hfresh in Hk.
      apply Hk, elem_of_union_l, elem_of_singleton. reflexivity.
    + intros k' [->|Hk']%elem_of_cons; [exact Hnotin|]. apply Hfresh in Hk'.
      intros Hin. apply Hk', elem_of_union_r, Hin.
  - apply IH.
Qed.

(** X5: merging keeps one slot per distinct id, in the order in which
    the ids first appear, and one slot for every entry without an id: the
    keys of the result are the keys of the input with later repetitions
    removed.  In particular the result is never longer than the input. *)
Theorem dedupeMoviesById_first_occurrences (movies : list entry) :
  map mergeKey (dedupeMoviesById movies) = firstOccurrences ∅ (map mergeKey movies)
  /\ (length (dedupeMoviesById movies) <= length movies)%nat.
Proof.
  assert (Hkeys : map mergeKey (dedupeMoviesById movies)
                  = firstOccurrences ∅ (map mergeKey movies)).
  { rewrite dedupeMoviesById_foldl.
    change (mergeKey <$> (foldl dedupeStep (∅, []) movies).2
            = firstOccurrences ∅ (mergeKey <$> movies)).
    rewrite (foldl_dedupeStep_keys movies [] _ dedupeInv_init). cbn. by rewrite dom_empty_L. }
  split; [exact Hkeys|].
  rewrite <- (length_map mergeKey (dedupeMoviesById movies)), Hkeys.
  etransitivity; [apply firstOccurrences_length|]. by rewrite length_map.
Qed.

Lemma omap_mergeKey (l : list entry) : omap mergeKey l = omap (fun key => key) (mergeKey <$> l).
Proof.
  induction l as [|x l IH]; [done|]. cbn. rewrite IH. by destruct (mergeKey x).
Qed.

(** Merging a list whose keys occur once changes nothing. *)
Lemma foldl_dedupeStep_unique s st :
  NoDup (omap mergeKey (st.2 ++ s)) ->
  (forall k, is_Some (st.1 !! k) -> k ∈ omap mergeKey st.2) ->
  (foldl dedupeStep st s).2 = st.2 ++ s.
Proof.
  revert st. induction s as [|x s IH]; intros [seen result] Hnd Hdom; cbn [foldl fst snd] in *.
  { by rewrite app_nil_r. }
  replace (result ++ x :: s) with ((result ++ [x]) ++ s) in * by (by rewrite <- app_assoc).
  unfold dedupeStep. destruct (mergeKey x) as [key|] eqn:Hkey.
  - destruct (seen !! key) as [[idx sc]|] eqn:Hseen.
    + exfalso. rewrite !omap_app in Hnd. cbn in Hnd. rewrite Hkey in Hnd. cbn in Hnd.
      apply NoDup_app in Hnd as [Hnd _]. apply NoDup_app in Hnd as (_ & Hnd & _).
      apply (Hnd key); [apply Hdom; eauto | by left].
    + apply (IH (_, _)); cbn [fst snd]; [exact Hnd|].
      intros k Hk. rewrite omap_app. cbn. rewrite Hkey. cbn. apply elem_of_app.
      destruct (decide (k = key)) as [->|Hne]; [right; by left|].
      left. apply Hdom. by rewrite lookup_insert_ne in Hk.
  - apply (IH (_, _)); cbn [fst snd]; [exact Hnd|].
    intros k Hk. rewrite omap_app. apply elem_of_app. left. by apply Hdom.
Qed.

(** X6: merging is a projection: merging an already merged list returns
    it unchanged, whether or not its entries carry ids. *)
Theorem dedupeMoviesById_fixpoint (movies : list entry) :
  dedupeMoviesById (dedupeMoviesById movies) = dedupeMoviesById movies.
Proof.
  rewrite (dedupeMoviesById_foldl (dedupeMoviesById movies)).
  rewrite (foldl_dedupeStep_unique _ (∅, [])); [done| |].
  - cbn [snd app]. rewrite omap_mergeKey, dedupeMoviesById_foldl.
    rewrite (foldl_dedupeStep_keys movies [] _ dedupeInv_init). cbn.
    apply firstOccurrences_NoDup.
  - intros k [v Hk]. cbn in Hk. by rewrite lookup_empty in Hk.
Qed.

(** ** Document ids *)

Lemma list_ind3 {A : Type} (P : list A -> Prop) :
  P [] -> (forall a, P [a]) -> (forall a b, P [a; b]) ->
  (forall a b c rest, P rest -> P (a :: b :: c :: rest)) ->
  forall l, P l.
Proof.
  intros H0 H1 H2 H3 l.
  assert (H : P l /\ (forall a, P (a :: l)) /\ (forall a b, P (a :: b :: l))).
  { induction l as [|x l (IH0 & IH1 & IH2)]; [by repeat split|].
    split; [apply IH1|]. split; [intros a; apply IH2|]. intros a b. by apply H3. }
  apply H.
Qed.

Lemma below_64 (P : N -> bool) :
  forallb P digitValues = true -> forall n, (n < 64)%N -> P n = true.
Proof.
  intros H n Hn. rewrite forallb_forall in H. apply H.
  apply in_map_iff. exists (N.to_nat n). split; [apply N2Nat.id|]. apply in_seq. lia.
Qed.

Lemma urlDigit_urlSafeChar n : (n < 64)%N -> urlSafeChar (urlDigit n) = true.
Proof. apply (below_64 (fun n => urlSafeChar (urlDigit n))). by vm_compute. Qed.

Lemma digitValue_urlDigit n : (n < 64)%N -> digitValue (urlDigit n) = n.
Proof.
  intros Hn. apply N.eqb_eq. revert n Hn.
  apply (below_64 (fun n => N.eqb (digitValue (urlDigit n)) n)). by vm_compute.
Qed.

Lemma urlDigit_inj n m : (n < 64)%N -> (m < 64)%N -> urlDigit n = urlDigit m -> n = m.
Proof.
  intros Hn Hm H. rewrite <- (digitValue_urlDigit n Hn), <- (digitValue_urlDigit m Hm).
  by rewrite H.
Qed.

Lemma stripPadding_cons c s :
  urlSafeChar c = true ->
  Cache.stripPadding (String c s) = String c (Cache.stripPadding s).
Proof.
  intros Hc. cbn [Cache.stripPadding].
  destruct (Ascii.eqb_spec c "="%char) as [->|_]; [discriminate|].
  by destruct (Cache.stripPadding s).
Qed.

Lemma base64url_digit n rest :
  (n < 64)%N ->
  Cache.stripPadding (Cache.urlSafe (String (Cache.base64Digit n) rest))
  = String (urlDigit n) (Cache.stripPadding (Cache.urlSafe rest)).
Proof.
  intros Hn. cbn [Cache.urlSafe]. fold (urlDigit n).
  apply stripPadding_cons, urlDigit_urlSafeChar, Hn.
Qed.

Lemma base64url_1 a :
  (a < 256)%N ->
  base64url [a] = String (urlDigit (a / 4)) (String (urlDigit ((a mod 4) * 16)) "").
Proof.
  intros Ha. unfold base64url. cbn [Cache.base64Encode].
  rewrite !base64url_digit; [reflexivity| |].
  - assert (a mod 4 < 4)%N by (by apply N.mod_lt). lia.
  - apply N.Div0.div_lt_upper_bound. lia.
Qed.

Lemma base64url_2 a b :
  (a < 256)%N -> (b < 256)%N ->
  base64url [a; b]
  = String (urlDigit (a / 4))
      (String (urlDigit ((a mod 4) * 16 + b / 16))
         (String (urlDigit ((b mod 16) * 4)) "")).
Proof.
  intros Ha Hb. unfold base64url. cbn [Cache.base64Encode].
  assert (a / 4 < 64)%N by (apply N.Div0.div_lt_upper_bound; lia).
  assert (b / 16 < 16)%N by (apply N.Div0.div_lt_upper_bound; lia).
  assert (a mod 4 < 4)%N by (by apply N.mod_lt).
  assert (b mod 16 < 16)%N by (by apply N.mod_lt).
  rewrite !base64url_digit by lia. reflexivity.
Qed.

Lemma base64url_3 a b c rest :
  (a < 256)%N -> (b < 256)%N -> (c < 256)%N ->
  base64url (a :: b :: c :: rest)
  = String (urlDigit (a / 4))
      (String (urlDigit ((a mod 4) * 16 + b / 16))
         (String (urlDigit ((b mod 16) * 4 + c / 64))
            (String (urlDigit (c mod 64)) (base64url rest)))).
Proof.
  intros Ha Hb Hc. unfold base64url. cbn [Cache.base64Encode].
  assert (a / 4 < 64)%N by (apply N.Div0.div_lt_upper_bound; lia).
  assert (b / 16 < 16)%N by (apply N.Div0.div_lt_upper_bound; lia).
  assert (c / 64 < 4)%N by (apply N.Div0.div_lt_upper_bound; lia).
  assert (a mod 4 < 4)%N by (by apply N.mod_lt).
  assert (b mod 16 < 16)%N by (by apply N.mod_lt).
  assert (c mod 64 < 64)%N by (by apply N.mod_lt).
  rewrite !base64url_digit by lia. reflexivity.
Qed.

Lemma bytesOf_bounded s : Forall (fun b => (b < 256)%N) (Cache.bytesOf s).
Proof.
  unfold Cache.bytesOf. apply Forall_fmap, Forall_true. intros c. apply N_ascii_bounded.
Qed.

Lemma bytesOf_inj s1 s2 : Cache.bytesOf s1 = Cache.bytesOf s2 -> s1 = s2.
Proof.
  unfold Cache.bytesOf. intros H.
  rewrite <- (string_of_list_ascii_of_string s1), <- (string_of_list_ascii_of_string s2).
  f_equal. revert H. generalize (list_ascii_of_string s1) (list_ascii_of_string s2).
  induction l as [|c l IH]; intros [|c' l']; cbn; try done.
  intros [= Hc Hl]. f_equal; [|by apply IH].
  rewrite <- (ascii_N_embedding c), <- (ascii_N_embedding c'). by rewrite Hc.
Qed.

Lemma buildCacheId_base64url localeCompare parts :
  Cache.buildCacheId localeCompare parts
  = base64url (Cache.bytesOf (joinedParts localeCompare parts)).
Proof. reflexivity. Qed.

Lemma base64url_chars bytes :
  Forall (fun b => (b < 256)%N) bytes ->
  Forall (fun c => urlSafeChar c = true) (list_ascii_of_string (base64url bytes)).
Proof.
  induction bytes as [|a|a b|a b c rest IH] using list_ind3; intros Hb.
  - constructor.
  - apply Forall_cons in Hb as [Ha _]. rewrite base64url_1 by done. cbn.
    assert (a mod 4 < 4)%N by (by apply N.mod_lt).
    repeat constructor; apply urlDigit_urlSafeChar;
      [apply N.Div0.div_lt_upper_bound|]; lia.
  - apply Forall_cons in Hb as [Ha Hb]. apply Forall_cons in Hb as [Hb _].
    rewrite base64url_2 by done. cbn.
    assert (a / 4 < 64)%N by (apply N.Div0.div_lt_upper_bound; lia).
    assert (b / 16 < 16)%N by (apply N.Div0.div_lt_upper_bound; lia).
    assert (a mod 4 < 4)%N by (by apply N.mod_lt).
    assert (b mod 16 < 16)%N by (by apply N.mod_lt).
    repeat constructor; apply urlDigit_urlSafeChar; lia.
  - apply Forall_cons in Hb as [Ha Hb]. apply Forall_cons in Hb as [Hb Hc].
    apply Forall_cons in Hc as [Hc Hrest].
    rewrite base64url_3 by done. cbn.
    assert (a / 4 < 64)%N by (apply N.Div0.div_lt_upper_bound; lia).
    assert (b / 16 < 16)%N by (apply N.Div0.div_lt_upper_bound; lia).
    assert (c / 64 < 4)%N by (apply N.Div0.div_lt_upper_bound; lia).
    assert (a mod 4 < 4)%N by (by apply N.mod_lt).
    assert (b mod 16 < 16)%N by (by apply N.mod_lt).
    assert (c mod 64 < 64)%N by (by apply N.mod_lt).
    repeat (apply Forall_cons; split; [apply urlDigit_urlSafeChar; lia|]).
    by apply IH.
Qed.

(** X7: a document id is made of the characters [A-Z], [a-z], [0-9],
    [-] and [_] only, whatever the key parts are: no [/], [+] or [=]
    reaches the store. *)
Theorem buildCacheId_url_safe (localeCompare : string -> string -> comparison)
    (parts : Cache.part) :
  Forall (fun c => urlSafeChar c = true)
    (list_ascii_of_string (Cache.buildCacheId localeCompare parts)).
Proof. rewrite buildCacheId_base64url. apply base64url_chars, bytesOf_bounded. Qed.

Ltac euclid a n :=
  let q := fresh "q" in
  let r := fresh "r" in
  pose proof (N.div_mod' a n); pose proof (N.mod_lt a n ltac:(discriminate));
  set (q := (a / n)%N) in *; set (r := (a mod n)%N) in *; clearbody q r.

Lemma base64_digits_1 a x :
  (a < 256)%N -> (x < 256)%N ->
  urlDigit (a / 4) = urlDigit (x / 4) ->
  urlDigit ((a mod 4) * 16) = urlDigit ((x mod 4) * 16) ->
  a = x.
Proof.
  intros Ha Hx H1 H2.
  apply urlDigit_inj in H1; [|euclid a 4%N; lia|euclid x 4%N; lia].
  apply urlDigit_inj in H2; [|euclid a 4%N; lia|euclid x 4%N; lia].
  euclid a 4%N. euclid x 4%N. lia.
Qed.

Lemma base64_digits_2 a b x y :
  (a < 256)%N -> (b < 256)%N -> (x < 256)%N -> (y < 256)%N ->
  urlDigit (a / 4) = urlDigit (x / 4) ->
  urlDigit ((a mod 4) * 16 + b / 16) = urlDigit ((x mod 4) * 16 + y / 16) ->
  urlDigit ((b mod 16) * 4) = urlDigit ((y mod 16) * 4) ->
  a = x /\ b = y.
Proof.
  intros Ha Hb Hx Hy H1 H2 H3.
  apply urlDigit_inj in H1; [|euclid a 4%N; lia|euclid x 4%N; lia].
  apply urlDigit_inj in H2; [|euclid a 4%N; euclid b 16%N; lia|euclid x 4%N; euclid y 16%N; lia].
  apply urlDigit_inj in H3; [|euclid b 16%N; lia|euclid y 16%N; lia].
  euclid a 4%N. euclid x 4%N. euclid b 16%N. euclid y 16%N. lia.
Qed.

Lemma base64_digits_3 a b c x y z :
  (a < 256)%N -> (b < 256)%N -> (c < 256)%N ->
  (x < 256)%N -> (y < 256)%N -> (z < 256)%N ->
  urlDigit (a / 4) = urlDigit (x / 4) ->
  urlDigit ((a mod 4) * 16 + b / 16) = urlDigit ((x mod 4) * 16 + y / 16) ->
  urlDigit ((b mod 16) * 4 + c / 64) = urlDigit ((y mod 16) * 4 + z / 64) ->
  urlDigit (c mod 64) = urlDigit (z mod 64) ->
  a = x /\ b = y /\ c = z.
Proof.
  intros Ha Hb Hc Hx Hy Hz H1 H2 H3 H4.
  apply urlDigit_inj in H1; [|euclid a 4%N; lia|euclid x 4%N; lia].
  apply urlDigit_inj in H2; [|euclid a 4%N; euclid b 16%N; lia|euclid x 4%N; euclid y 16%N; lia].
  apply urlDigit_inj in H3; [|euclid b 16%N; euclid c 64%N; lia|euclid y 16%N; euclid z 64%N; lia].
  apply urlDigit_inj in H4; [|euclid c 64%N; lia|euclid z 64%N; lia].
  euclid a 4%N. euclid x 4%N. euclid b 16%N. euclid y 16%N. euclid c 64%N. euclid z 64%N. lia.
Qed.

(** The encoding loses nothing: distinct byte sequences have distinct
    encodings. *)
Lemma base64url_inj l1 l2 :
  Forall (fun b => (b < 256)%N) l1 -> Forall (fun b => (b < 256)%N) l2 ->
  base64url l1 = base64url l2 -> l1 = l2.
Proof.
  revert l2. induction l1 as [|a|a b|a b c rest IH] using list_ind3;
    intros [|x [|y [|z r]]] H1 H2;
    repeat match goal with
      | H : Forall _ (_ :: _) |- _ =>
          let Hb := fresh "Hbyte" in apply Forall_cons in H as [Hb H]
      end;
    rewrite ?base64url_1, ?base64url_2, ?base64url_3 by done;
    change (base64url []) with ""%string; intros Heq; try discriminate;
    try reflexivity.
  - injection Heq as E1 E2. f_equal. by eapply base64_digits_1.
  - injection Heq as E1 E2 E3.
    destruct (base64_digits_2 a b x y) as [-> ->]; done.
  - injection Heq as E1 E2 E3 E4 Erest.
    destruct (base64_digits_3 a b c x y z) as (-> & -> & ->); try done.
    do 3 f_equal. by apply IH.
Qed.

(** X8: the encoding of the key introduces no collision: two key parts
    get the same document id exactly when their serialized parts, joined
    by [||], are the same string. *)
Theorem buildCacheId_collides_iff (localeCompare : string -> string -> comparison)
    (parts1 parts2 : Cache.part) :
  Cache.buildCacheId localeCompare parts1 = Cache.buildCacheId localeCompare parts2
  <-> joinedParts localeCompare parts1 = joinedParts localeCompare parts2.
Proof.
  rewrite !buildCacheId_base64url. split; [|by intros ->].
  intros H. apply bytesOf_inj, base64url_inj; [apply bytesOf_bounded ..|exact H].
Qed.

(** ** The in-memory fallback *)

Lemma length_mapDelete {V : Type} key (m : list (string * V)) :
  (length (mapDelete key m) <= length m)%nat.
Proof.
  induction m as [|[k v] m IH]; cbn; [lia|]. destruct (String.eqb k key); cbn; lia.
Qed.

Lemma readInMemoryCache_length require docId ttlMs now cache :
  (length (Cache.readInMemoryCache require docId ttlMs now cache).2 <= length cache)%nat.
Proof.
  unfold Cache.readInMemoryCache. destruct require; [done|].
  destruct docId; [done|]. destruct (mapGet _ cache); [|done].
  destruct (Cache.expired _ _ _); [apply length_mapDelete | done].
Qed.

Lemma fallbackRead_length require docId ttlMs now cache :
  (length (Cache.fallbackRead require docId ttlMs now cache).2 <= length cache)%nat.
Proof.
  unfold Cache.fallbackRead. destruct require; [done|]. apply readInMemoryCache_length.
Qed.

Lemma readCachedResponse_length localeCompare require collection parts ttlMs now db cache :
  (length cache <= Cache.MAX_IN_MEMORY_CACHE_ENTRIES)%nat ->
  (length (Cache.readCachedResponse require localeCompare collection parts ttlMs now db cache).2
   <= Cache.MAX_IN_MEMORY_CACHE_ENTRIES)%nat.
Proof.
  intros Hlen. unfold Cache.readCachedResponse.
  pose proof (fallbackRead_length require (Cache.buildCacheId localeCompare parts) ttlMs now
                cache) as Hfb.
  pose proof (length_mapDelete (Cache.buildCacheId localeCompare parts) cache) as Hdel.
  repeat case_match; cbn [snd]; try lia; by apply rememberInMemory_length.
Qed.

Lemma writeCachedResponse_length localeCompare require collection parts payload now db cache :
  (length cache <= Cache.MAX_IN_MEMORY_CACHE_ENTRIES)%nat ->
  (length (Cache.writeCachedResponse require localeCompare collection parts payload now db
             cache).2
   <= Cache.MAX_IN_MEMORY_CACHE_ENTRIES)%nat.
Proof.
  intros Hlen. unfold Cache.writeCachedResponse.
  repeat case_match; cbn [snd]; try lia; by apply rememberInMemory_length.
Qed.

(** X9: whatever reads and writes are made, against whatever states of
    the durable store, the in-memory map never holds more than 500
    entries. *)
Theorem inMemoryCache_bounded (localeCompare : string -> string -> comparison)
    (require : bool) (calls : list CacheCall) :
  (length (foldl (memoryAfter localeCompare require) [] calls)
   <= Cache.MAX_IN_MEMORY_CACHE_ENTRIES)%nat.
Proof.
  assert (H : forall cache,
             (length cache <= Cache.MAX_IN_MEMORY_CACHE_ENTRIES)%nat ->
             (length (foldl (memoryAfter localeCompare require) cache calls)
              <= Cache.MAX_IN_MEMORY_CACHE_ENTRIES)%nat).
  { induction calls as [|call calls IH]; intros cache Hlen; [exact Hlen|].
    cbn [foldl]. apply IH. destruct call; cbn [memoryAfter].
    - by apply readCachedResponse_length.
    - by apply writeCachedResponse_length. }
  apply H. cbn. unfold Cache.MAX_IN_MEMORY_CACHE_ENTRIES. lia.
Qed.

Lemma expired_no_ttl ttlMs now fetchedAt :
  Cache.positiveTtl ttlMs = false -> Cache.expired ttlMs now fetchedAt = false.
Proof. destruct ttlMs as [ttl|]; cbn; [|done]. by intros ->. Qed.

(** X10: an entry read without a time to live (none given, or one that
    is not positive) never expires: once written it is returned at every
    later or earlier instant, from the in-memory fallback when the
    durable store cannot be reached and is not required, and from the
    durable store when it is healthy. *)
Theorem cache_without_ttl_never_expires
    (localeCompare : string -> string -> comparison) (require : bool)
    (collection : string) (parts : Cache.part) (payload : Cache.Payload) (b : string)
    (T : Z) (ttlMs : option Z) (db : Cache.Firestore) (cache : Cache.MemCache) (now : Z) :
  Cache.nonEmptyString (Cache.body payload) = Some b ->
  Cache.buildCacheId localeCompare parts <> ""%string ->
  Cache.positiveTtl ttlMs = false ->
  (length cache <= Cache.MAX_IN_MEMORY_CACHE_ENTRIES)%nat ->
  let after := Cache.writeCachedResponse require localeCompare collection parts payload T db cache in
  let read :=
    (Cache.readCachedResponse require localeCompare collection parts ttlMs now
       after.1 after.2).1 in
  (require = false -> unreachable db -> read = Some (storedResponse payload b))
  /\ (forall docs, db = Cache.Db true docs -> read = Some (storedResponse payload b)).
Proof.
  intros Hb Hid Httl Hlen after read.
  destruct (storedResponse_normalized payload b Hb) as [Hnorm Hb'].
  split.
  - intros -> Hun.
    assert (Hread : read = (Cache.readInMemoryCache false (Cache.buildCacheId localeCompare parts)
                              ttlMs now after.2).1).
    { unfold read, after, Cache.writeCachedResponse, Cache.readCachedResponse. rewrite Hb.
      destruct db as [|[] docs]; cbn in Hun; try done. }
    assert (Hafter : after.2 =
              Cache.rememberInMemory false (Cache.buildCacheId localeCompare parts)
                {| Cache.status := Some (default 200%Z (Cache.status payload));
                   Cache.contentType :=
                     Some (default "application/json"%string
                             (Cache.nonEmptyString (Cache.contentType payload)));
                   Cache.body := Some b;
                   Cache.metadata := Cache.metadata payload |} T cache).
    { unfold after, Cache.writeCachedResponse. rewrite Hb. by destruct db as [|[] docs]. }
    rewrite Hread, Hafter. unfold Cache.readInMemoryCache.
    rewrite (rememberInMemory_get _ (Cache.mkPayload _ _ (Some b) _) b T cache Hid Hb' Hlen).
    destruct (Cache.buildCacheId localeCompare parts); [done|].
    cbn [Cache.m_fetchedAt Cache.m_response]. rewrite expired_no_ttl by done.
    cbn [fst]. by rewrite Hnorm.
  - intros docs ->.
    unfold read, after, Cache.writeCachedResponse, Cache.readCachedResponse.
    rewrite Hb. cbn [fst snd]. rewrite lookup_insert_eq.
    cbn [Cache.d_body Cache.d_fetchedAt Cache.d_status Cache.d_contentType Cache.d_metadata
         Cache.body Cache.status Cache.contentType Cache.metadata].
    rewrite Hb', Httl, expired_no_ttl by done.
    assert (Hresp : {| Cache.r_status := default 200%Z (Some (default 200%Z (Cache.status payload)));
                       Cache.r_contentType :=
                         default "application/json"%string
                           (Cache.nonEmptyString
                              (Some (default "application/json"%string
                                       (Cache.nonEmptyString (Cache.contentType payload)))));
                       Cache.r_body := b;
                       Cache.r_metadata := Cache.metadata payload |}
                    = storedResponse payload b).
    { unfold storedResponse. cbn. f_equal.
      destruct (Cache.contentType payload) as [[|c s]|]; reflexivity. }
    destruct (T =? 0)%Z; cbn [fst]; by rewrite Hresp.
Qed.

Lemma cache_without_ttl_never_expires_witness :
  let read (db : Cache.Firestore) now :=
    let after :=
      Cache.writeCachedResponse false String.compare "tmdbCache" sampleParts samplePayload
        1000 db [] in
    (Cache.readCachedResponse false String.compare "tmdbCache" sampleParts None now
       after.1 after.2).1 in
  read Cache.NoFirestore 9999999999%Z = Some (storedResponse samplePayload "{}")
  /\ read (Cache.Db true ∅) 9999999999%Z = Some (storedResponse samplePayload "{}").
Proof.
  intros read.
  assert (H1 : Cache.nonEmptyString (Cache.body samplePayload) = Some "{}"%string)
    by reflexivity.
  assert (H2 : Cache.buildCacheId String.compare sampleParts <> ""%string)
    by (vm_compute; discriminate).
  assert (H3 : Cache.positiveTtl None = false) by reflexivity.
  assert (H4 : (length (@nil (string * Cache.MemEntry))
                <= Cache.MAX_IN_MEMORY_CACHE_ENTRIES)%nat)
    by (unfold Cache.MAX_IN_MEMORY_CACHE_ENTRIES; cbn; lia).
  split.
  - exact (proj1 (cache_without_ttl_never_expires String.compare false "tmdbCache" sampleParts
                    samplePayload "{}" 1000 None Cache.NoFirestore [] 9999999999 H1 H2 H3 H4)
             eq_refl I).
  - exact (proj2 (cache_without_ttl_never_expires String.compare false "tmdbCache" sampleParts
                    samplePayload "{}" 1000 None (Cache.Db true ∅) [] 9999999999 H1 H2 H3 H4)
             ∅ eq_refl).
Defined.

Lemma nonEmptyString_idem s b :
  Cache.nonEmptyString s = Some b -> Cache.nonEmptyString (Some b) = Some b.
Proof. destruct s as [[|c s]|]; cbn; try done. by intros [= <-]. Qed.

(** X11: a hit on the durable store is copied into the in-memory map
    under the store's own timestamp: when the store cannot be reached
    afterwards (and is not required), the same response is served from
    memory until the entry's time to live, counted from the instant the
    store recorded, is over. *)
Theorem readCachedResponse_read_through
    (localeCompare : string -> string -> comparison)
    (collection : string) (parts : Cache.part) (ttlMs : option Z) (now : Z)
    (docs : gmap (string * string) Cache.Doc) (cache : Cache.MemCache)
    (doc : Cache.Doc) (b : string) (T : Z) :
  docs !! (collection, Cache.buildCacheId localeCompare parts) = Some doc ->
  Cache.nonEmptyString (Cache.d_body doc) = Some b ->
  Cache.d_fetchedAt doc = Some T ->
  T <> 0%Z ->
  Cache.expired ttlMs now T = false ->
  Cache.buildCacheId localeCompare parts <> ""%string ->
  (length cache <= Cache.MAX_IN_MEMORY_CACHE_ENTRIES)%nat ->
  let first :=
    Cache.readCachedResponse false localeCompare collection parts ttlMs now
      (Cache.Db true docs) cache in
  exists response,
    first.1 = Some response
    /\ Cache.r_body response = b
    /\ forall db' now',
         unreachable db' ->
         (Cache.readCachedResponse false localeCompare collection parts ttlMs now' db'
            first.2).1
         = if Cache.expired ttlMs now' T then None else Some response.
Proof.
  intros Hdoc Hb HT HT0 Hfresh Hid Hlen first.
  set (response :=
         {| Cache.r_status := default 200%Z (Cache.d_status doc);
            Cache.r_contentType :=
              default "application/json"%string (Cache.nonEmptyString (Cache.d_contentType doc));
            Cache.r_body := b;
            Cache.r_metadata := Cache.d_metadata doc |}).
  assert (Hfirst : first = (Some response,
            Cache.rememberInMemory false (Cache.buildCacheId localeCompare parts)
              (Cache.payloadOfResponse response) T cache)).
  { unfold first, Cache.readCachedResponse. rewrite Hdoc, Hb, HT.
    destruct (Z.eqb_spec T 0) as [|_]; [done|]. by rewrite Hfresh. }
  exists response. rewrite Hfirst. cbn [fst snd]. split; [done|]. split; [done|].
  intros db' now' Hun.
  assert (Hb' : Cache.nonEmptyString (Cache.body (Cache.payloadOfResponse response)) = Some b)
    by (cbn; by eapply nonEmptyString_idem).
  pose proof (rememberInMemory_get _ _ b T cache Hid Hb' Hlen) as Hget.
  assert (Hstored : storedResponse (Cache.payloadOfResponse response) b = response).
  { unfold storedResponse, response. cbn. f_equal.
    by destruct (Cache.d_contentType doc) as [[|c s]|]. }
  rewrite Hstored in Hget.
  assert (Hread : forall cache',
            (Cache.readCachedResponse false localeCompare collection parts ttlMs now' db'
               cache').1
            = (Cache.readInMemoryCache false (Cache.buildCacheId localeCompare parts) ttlMs
                 now' cache').1).
  { intros cache'. unfold Cache.readCachedResponse.
    destruct db' as [|[] docs']; cbn in Hun; try done. }
  rewrite Hread. unfold Cache.readInMemoryCache. rewrite Hget.
  destruct (Cache.buildCacheId localeCompare parts); [done|].
  cbn [Cache.m_fetchedAt Cache.m_response]. by destruct (Cache.expired ttlMs now' T).
Qed.

Lemma readCachedResponse_read_through_witness :
  let docs : gmap (string * string) Cache.Doc :=
    {[ ("tmdbCache"%string, Cache.buildCacheId String.compare sampleParts) := sampleDoc 1000 ]} in
  let first :=
    Cache.readCachedResponse false String.compare "tmdbCache" sampleParts (Some 60%Z) 1010
      (Cache.Db true docs) [] in
  exists response,
    first.1 = Some response
    /\ (Cache.readCachedResponse false String.compare "tmdbCache" sampleParts (Some 60%Z) 1050
          Cache.NoFirestore first.2).1 = Some response
    /\ (Cache.readCachedResponse false String.compare "tmdbCache" sampleParts (Some 60%Z) 1061
          Cache.NoFirestore first.2).1 = None.
Proof.
  intros docs first.
  assert (H1 : docs !! ("tmdbCache"%string, Cache.buildCacheId String.compare sampleParts)
               = Some (sampleDoc 1000)) by apply lookup_singleton_eq.
  assert (H2 : Cache.nonEmptyString (Cache.d_body (sampleDoc 1000)) = Some "{}"%string)
    by reflexivity.
  assert (H3 : Cache.d_fetchedAt (sampleDoc 1000) = Some 1000%Z) by reflexivity.
  assert (H4 : 1000%Z <> 0%Z) by lia.
  assert (H5 : Cache.expired (Some 60%Z) 1010 1000 = false) by reflexivity.
  assert (H6 : Cache.buildCacheId String.compare sampleParts <> ""%string)
    by (vm_compute; discriminate).
  assert (H7 : (length (@nil (string * Cache.MemEntry))
                <= Cache.MAX_IN_MEMORY_CACHE_ENTRIES)%nat)
    by (unfold Cache.MAX_IN_MEMORY_CACHE_ENTRIES; cbn; lia).
  destruct (readCachedResponse_read_through String.compare "tmdbCache" sampleParts (Some 60%Z)
              1010 docs [] (sampleDoc 1000) "{}" 1000 H1 H2 H3 H4 H5 H6 H7)
    as (response & Hfirst & _ & Hlater).
  exists response. split; [exact Hfirst|]. split.
  - exact (Hlater Cache.NoFirestore 1050%Z I).
  - exact (Hlater Cache.NoFirestore 1061%Z I).
Defined.

(** X12: when the durable store is required, the in-memory map plays no
    part: a write leaves it as it was, what a read returns does not
    depend on it, and a read returns nothing when the store is missing or
    failing. *)
Theorem require_firestore_bypasses_memory
    (localeCompare : string -> string -> comparison)
    (collection : string) (parts : Cache.part) :
  (forall payload now db cache,
      (Cache.writeCachedResponse true localeCompare collection parts payload now db cache).2
      = cache)
  /\ (forall ttlMs now db cache1 cache2,
        (Cache.readCachedResponse true localeCompare collection parts ttlMs now db cache1).1
        = (Cache.readCachedResponse true localeCompare collection parts ttlMs now db cache2).1)
  /\ (forall ttlMs now docs cache,
        (Cache.readCachedResponse true localeCompare collection parts ttlMs now
           Cache.NoFirestore cache).1 = None
        /\ (Cache.readCachedResponse true localeCompare collection parts ttlMs now
              (Cache.Db false docs) cache).1 = None).
Proof.
  split; [|split].
  - intros payload now db cache. unfold Cache.writeCachedResponse, Cache.rememberInMemory.
    by repeat case_match.
  - intros ttlMs now db cache1 cache2.
    unfold Cache.readCachedResponse, Cache.fallbackRead, Cache.rememberInMemory.
    by repeat case_match.
  - intros ttlMs now docs cache. by split.
Qed.

(** ** The upstream proxy *)

Lemma mapGet_In {V : Type} key (v : V) m : mapGet key m = Some v -> In (key, v) m.
Proof.
  induction m as [|[k v'] m IH]; cbn; [done|].
  destruct (String.eqb_spec k key) as [->|_]; [intros [= ->]; by left|].
  intros H. right. by apply IH.
Qed.

Lemma filter_none {A : Type} (f : A -> bool) (l : list A) :
  (forall x, In x l -> f x = false) -> List.filter f l = [].
Proof.
  induction l as [|x l IH]; intros H; cbn; [done|].
  rewrite (H x) by (by left). apply IH. intros y Hy. apply H. by right.
Qed.

Lemma forwardedParams_In omit query k v :
  In (k, v) (Proxy.forwardedParams omit query) -> (k ∉ omit) /\ queryCarries query k v.
Proof.
  unfold Proxy.forwardedParams. rewrite in_flat_map. intros ([k' value] & Hin & Hkv).
  cbn [fst snd] in Hkv. destruct (bool_decide_reflect (k' ∈ omit)) as [|Hnot]; [destruct Hkv|].
  destruct value as [s|items].
  - destruct Hkv as [[= -> ->]|[]]. split; [exact Hnot|]. exists (Proxy.QStr v). eauto.
  - apply in_map_iff in Hkv as (v' & [= -> ->] & Hv). split; [exact Hnot|].
    exists (Proxy.QArr items). eauto.
Qed.

Lemma paramsSet_fresh name value entries :
  (forall kv, In kv entries -> kv.1 <> name) ->
  Proxy.paramsSet name value entries = entries ++ [(name, value)].
Proof.
  induction entries as [|[k v] entries IH]; intros Hfresh; cbn; [done|].
  destruct (String.eqb_spec k name) as [->|_].
  - exfalso. by apply (Hfresh (name, v)); [left|].
  - rewrite IH; [done|]. intros kv Hkv. apply Hfresh. by right.
Qed.

Lemma forwardedParams_no_credential omit query kv :
  In kv (Proxy.forwardedParams (["endpoint"; "api_key"]%string ++ omit) query) ->
  kv.1 <> "api_key"%string /\ kv.1 <> "endpoint"%string.
Proof.
  destruct kv as [k v]. intros [Hnot _]%forwardedParams_In. cbn.
  split; intros ->; apply Hnot; set_solver.
Qed.

Lemma encodeURIComponent_chars s :
  Forall (fun c => segmentChar c = true) (list_ascii_of_string (Proxy.encodeURIComponent s)).
Proof.
  induction s as [|c s IH]; cbn [Proxy.encodeURIComponent list_ascii_of_string]; [constructor|].
  destruct (Proxy.isUnreserved c) eqn:Hc; cbn [list_ascii_of_string].
  - constructor; [|exact IH]. unfold segmentChar. by rewrite Hc.
  - assert (Hhex : forall n, (n < 16)%N -> segmentChar (Proxy.hexDigit n) = true).
    { intros n Hn.
      assert (H : forallb (fun n => segmentChar (Proxy.hexDigit n)) (map N.of_nat (seq 0 16))
                  = true) by (by vm_compute).
      rewrite forallb_forall in H. apply H. apply in_map_iff.
      exists (N.to_nat n). split; [apply N2Nat.id|]. apply in_seq. lia. }
    pose proof (N_ascii_bounded c) as Hbound.
    repeat constructor; [apply Hhex .. | exact IH].
    + apply N.Div0.div_lt_upper_bound. lia.
    + by apply N.mod_lt.
Qed.

Lemma encodeURIComponent_nonempty s : s <> ""%string -> Proxy.encodeURIComponent s <> ""%string.
Proof. destruct s as [|c s]; [done|]. intros _. cbn. by destruct (Proxy.isUnreserved c). Qed.

Lemma idOf_nonempty rawId trimmed : Proxy.idOf rawId = Some trimmed -> trimmed <> ""%string.
Proof.
  unfold Proxy.idOf. destruct (match rawId with Some _ => _ | None => _ end) as [value|]; [|done].
  cbn. destruct value; [done|]. destruct (TmdbProxy.trim _); [done|]. by intros [= <-].
Qed.

Section ProxyRequests.

Context (localeCompare : string -> string -> comparison) (require : bool)
  (keyFromEnv keyFromConfig : option string)
  (fetch : Proxy.UpstreamRequest -> Proxy.FetchOutcome).

Abbreviation handle :=
  (Proxy.tmdbProxy localeCompare require keyFromEnv keyFromConfig fetch).

(** What an upstream request of the handler looks like. *)
Lemma tmdbProxy_upstream req now db cache path params :
  In (path, params) (handle req now db cache).1.2 ->
  exists endpointConfig apiKey,
    In (Proxy.endpointKeyOf (Proxy.query req), endpointConfig) Proxy.ALLOWED_ENDPOINTS
    /\ Proxy.getTmdbApiKey keyFromEnv keyFromConfig = Some apiKey
    /\ match Proxy.path endpointConfig with
       | Proxy.PathFunction f => f (Proxy.query req) = Some path
       | Proxy.PathString s => s = path
       end
    /\ params =
       Proxy.forwardedParams (["endpoint"; "api_key"]%string ++ Proxy.omitParams endpointConfig)
         (Proxy.query req) ++ [("api_key"%string, apiKey)].
Proof.
  unfold Proxy.tmdbProxy. destruct (Proxy.method req); [|intros []..].
  destruct (mapGet _ Proxy.ALLOWED_ENDPOINTS) as [endpointConfig|] eqn:Hcfg;
    [|destruct (bool_decide _); intros []].
  apply mapGet_In in Hcfg.
  destruct (match Proxy.path endpointConfig with
            | Proxy.PathString s => _ | Proxy.PathFunction f => _ end)
    as [targetPath|] eqn:Hpath; [|intros []].
  destruct (Proxy.getTmdbApiKey keyFromEnv keyFromConfig) as [apiKey|] eqn:Hkey; [|intros []].
  rewrite paramsSet_fresh
    by (intros kv Hkv; by apply forwardedParams_no_credential in Hkv as [? ?]).
  intros Hin.
  assert (Heq : (path, params) =
                (targetPath,
                 Proxy.forwardedParams
                   (["endpoint"; "api_key"]%string ++ Proxy.omitParams endpointConfig)
                   (Proxy.query req) ++ [("api_key"%string, apiKey)])).
  { destruct (Proxy.readTmdbCache _ _ _ _ _ _ _) as [[cached|] cache1]; [destruct Hin|].
    destruct (fetch _); cbn in Hin; by destruct Hin. }
  injection Heq as -> ->. exists endpointConfig, apiKey.
  repeat split; try done.
  destruct (Proxy.path endpointConfig) as [s|f]; [|exact Hpath].
  destruct s; cbn in Hpath; [done|]. by injection Hpath.
Qed.

(** X13: the key a client sends is never forwarded.  Every upstream
    request carries exactly one [api_key] entry, whose value is the key
    configured on the server (never the empty string); it carries no
    [endpoint] entry; and every other entry is a name and value of the
    client's query. *)
Theorem tmdbProxy_credential (req : Proxy.Request) (now : Z)
    (db : Cache.Firestore) (cache : Cache.MemCache)
    (path : string) (params : list (string * string)) :
  In (path, params) (handle req now db cache).1.2 ->
  exists apiKey,
    Proxy.getTmdbApiKey keyFromEnv keyFromConfig = Some apiKey
    /\ apiKey <> ""%string
    /\ List.filter (fun kv => String.eqb kv.1 "api_key") params = [("api_key"%string, apiKey)]
    /\ (forall k v, In (k, v) params -> k <> "endpoint"%string)
    /\ (forall k v, In (k, v) params -> k <> "api_key"%string ->
          queryCarries (Proxy.query req) k v).
Proof.
  intros (endpointConfig & apiKey & _ & Hkey & _ & ->)%tmdbProxy_upstream.
  exists apiKey. split; [exact Hkey|]. split.
  { unfold Proxy.getTmdbApiKey in Hkey.
    destruct keyFromEnv as [[|c s]|], keyFromConfig as [[|c' s']|]; cbn in Hkey;
      try done; by injection Hkey as <-. }
  split; [|split].
  - rewrite List.filter_app. cbn. rewrite filter_none; [done|].
    intros kv [Hkv _]%forwardedParams_no_credential. by apply String.eqb_neq.
  - intros k v [Hin|[[= <- <-]|[]]]%in_app_iff; [|done].
    by apply forwardedParams_no_credential in Hin as [_ ?].
  - intros k v [Hin|[[= <- <-]|[]]]%in_app_iff Hk; [|done].
    by apply forwardedParams_In in Hin as [_ ?].
Qed.

(** X14: the proxy reaches no upstream path outside its table: the path
    of every upstream request is one of the eight fixed paths, or
    [/3/movie/<id>], [/3/movie/<id>/credits] or [/3/person/<id>] where
    [<id>] is a non-empty percent-encoded segment, so that no character
    of the client's id can start another path segment or a query. *)
Theorem tmdbProxy_allow_list (req : Proxy.Request) (now : Z)
    (db : Cache.Firestore) (cache : Cache.MemCache)
    (path : string) (params : list (string * string)) :
  In (path, params) (handle req now db cache).1.2 ->
  In path fixedPaths
  \/ exists e, encodedSegment e
       /\ (path = "/3/movie/" +:+ e \/ path = "/3/movie/" +:+ e +:+ "/credits"
           \/ path = "/3/person/" +:+ e)%string.
Proof.
  intros (endpointConfig & apiKey & Hcfg & _ & Hpath & _)%tmdbProxy_upstream.
  assert (Hid : forall keys trimmed,
            Proxy.idOf (Proxy.firstOf keys (Proxy.query req)) = Some trimmed ->
            encodedSegment (Proxy.encodeURIComponent trimmed)).
  { intros keys trimmed Htrim. split; [|apply encodeURIComponent_chars].
    by eapply encodeURIComponent_nonempty, idOf_nonempty. }
  unfold Proxy.ALLOWED_ENDPOINTS in Hcfg. cbn [In] in Hcfg.
  repeat (destruct Hcfg as [[= _ <-]|Hcfg];
          [cbn [Proxy.path] in Hpath; first
             [ subst path; left; cbn; tauto
             | right;
               cbv [Proxy.creditsPath Proxy.movieDetailsPath Proxy.personDetailsPath] in Hpath;
               destruct (Proxy.idOf _) as [trimmed|] eqn:Htrim; [|discriminate];
               cbn [mbind option_bind] in Hpath; injection Hpath as <-;
               exists (Proxy.encodeURIComponent trimmed);
               split; [by eapply Hid | tauto] ]|]).
  destruct Hcfg.
Qed.

End ProxyRequests.

Lemma tmdbProxy_credential_witness :
  let outcome :=
    Proxy.tmdbProxy String.compare false (Some "server-key"%string) None upstreamOk
      creditsRequest 1700000000000 Cache.NoFirestore [] in
  outcome.1.2
  = [ ("/3/movie/603%2F..%2Fx/credits",
       [ ("language", "en-US"); ("language", "de"); ("api_key", "server-key") ]) ]%string
  /\ exists apiKey,
       List.filter (fun kv => String.eqb kv.1 "api_key")
         [ ("language", "en-US"); ("language", "de"); ("api_key", "server-key") ]%string
       = [("api_key"%string, apiKey)].
Proof.
  intros outcome. split; [reflexivity|].
  destruct (tmdbProxy_credential String.compare false (Some "server-key"%string) None upstreamOk
              creditsRequest 1700000000000 Cache.NoFirestore []
              "/3/movie/603%2F..%2Fx/credits"
              [ ("language", "en-US"); ("language", "de"); ("api_key", "server-key") ]%string
              (or_introl eq_refl))
    as (apiKey & _ & _ & Hfilter & _).
  by exists apiKey.
Defined.

Lemma tmdbProxy_allow_list_witness :
  let path := "/3/movie/603%2F..%2Fx/credits"%string in
  In path fixedPaths
  \/ exists e, encodedSegment e
       /\ (path = "/3/movie/" +:+ e \/ path = "/3/movie/" +:+ e +:+ "/credits"
           \/ path = "/3/person/" +:+ e)%string.
Proof.
  exact (tmdbProxy_allow_list String.compare false (Some "server-key"%string) None upstreamOk
           creditsRequest 1700000000000 Cache.NoFirestore []
           "/3/movie/603%2F..%2Fx/credits"
           [ ("language", "en-US"); ("language", "de"); ("api_key", "server-key") ]%string
           (or_introl eq_refl)).
Defined.

Lemma base64url_nonempty a bytes :
  Forall (fun b => (b < 256)%N) (a :: bytes) -> base64url (a :: bytes) <> ""%string.
Proof.
  intros H. destruct bytes as [|b [|c rest]];
    repeat match goal with
      | H : Forall _ (_ :: _) |- _ =>
          let Hb := fresh "Hbyte" in apply Forall_cons in H as [Hb H]
      end;
    rewrite ?base64url_1, ?base64url_2, ?base64url_3 by done; discriminate.
Qed.

(** The document id of an upstream response is never empty. *)
Lemma tmdbCacheId_nonempty localeCompare path params :
  Cache.buildCacheId localeCompare (TmdbProxy.tmdbCacheKeyParts localeCompare path params)
  <> ""%string.
Proof.
  rewrite buildCacheId_base64url.
  pose proof (bytesOf_bounded
                (joinedParts localeCompare
                   (TmdbProxy.tmdbCacheKeyParts localeCompare path params))) as Hb.
  unfold joinedParts, TmdbProxy.tmdbCacheKeyParts in *. cbn in *.
  by apply base64url_nonempty.
Qed.

Lemma tmdbCacheKeyParts_paramsSet localeCompare path value entries :
  (forall kv, In kv entries -> kv.1 <> "api_key"%string) ->
  TmdbProxy.tmdbCacheKeyParts localeCompare path (Some (Proxy.paramsSet "api_key" value entries))
  = TmdbProxy.tmdbCacheKeyParts localeCompare path (Some entries).
Proof.
  intros Hfresh. rewrite paramsSet_fresh by done.
  unfold TmdbProxy.tmdbCacheKeyParts, TmdbProxy.normalizeTmdbParams.
  rewrite List.filter_app. cbn. by rewrite app_nil_r.
Qed.

(** A read that follows a write of the same key, while the entry is
    fresh, returns what was written. *)
Lemma readCachedResponse_after_write localeCompare require collection parts payload b T ttlMs
    now db cache :
  Cache.nonEmptyString (Cache.body payload) = Some b ->
  Cache.buildCacheId localeCompare parts <> ""%string ->
  T <> 0%Z ->
  Cache.expired ttlMs now T = false ->
  (length cache <= Cache.MAX_IN_MEMORY_CACHE_ENTRIES)%nat ->
  (require = false /\ unreachable db) \/ (exists docs, db = Cache.Db true docs) ->
  let after := Cache.writeCachedResponse require localeCompare collection parts payload T db cache in
  (Cache.readCachedResponse require localeCompare collection parts ttlMs now after.1 after.2).1
  = Some (storedResponse payload b).
Proof.
  intros Hb Hid HT Hfresh Hlen Hdb after.
  destruct (storedResponse_normalized payload b Hb) as [Hnorm Hb'].
  destruct Hdb as [[-> Hun]|[docs ->]].
  - assert (Hafter : after.2 =
              Cache.rememberInMemory false (Cache.buildCacheId localeCompare parts)
                {| Cache.status := Some (default 200%Z (Cache.status payload));
                   Cache.contentType :=
                     Some (default "application/json"%string
                             (Cache.nonEmptyString (Cache.contentType payload)));
                   Cache.body := Some b;
                   Cache.metadata := Cache.metadata payload |} T cache).
    { unfold after, Cache.writeCachedResponse. rewrite Hb. by destruct db as [|[] docs]. }
    assert (Hread : forall cache',
              (Cache.readCachedResponse false localeCompare collection parts ttlMs now after.1
                 cache').1
              = (Cache.readInMemoryCache false (Cache.buildCacheId localeCompare parts) ttlMs
                   now cache').1).
    { intros cache'. unfold after, Cache.writeCachedResponse, Cache.readCachedResponse.
      rewrite Hb. destruct db as [|[] docs]; cbn in Hun; try done. }
    rewrite Hread, Hafter. unfold Cache.readInMemoryCache.
    rewrite (rememberInMemory_get _ (Cache.mkPayload _ _ (Some b) _) b T cache Hid Hb' Hlen).
    destruct (Cache.buildCacheId localeCompare parts); [done|].
    cbn [Cache.m_fetchedAt Cache.m_response]. rewrite Hfresh. cbn [fst]. by rewrite Hnorm.
  - unfold after, Cache.writeCachedResponse, Cache.readCachedResponse.
    rewrite Hb. cbn [fst snd]. rewrite lookup_insert_eq.
    cbn [Cache.d_body Cache.d_fetchedAt Cache.d_status Cache.d_contentType Cache.d_metadata
         Cache.body Cache.status Cache.contentType Cache.metadata].
    rewrite Hb'. destruct (Z.eqb_spec T 0) as [|_]; [done|]. rewrite Hfresh. cbn [fst].
    f_equal. unfold storedResponse. cbn. f_equal.
    destruct (Cache.contentType payload) as [[|c s]|]; reflexivity.
Qed.

(** X15: a response that the proxy fetched with a 2xx status and a
    non-empty body is served from the cache when the same request comes
    again within six hours: the reply is the same and no upstream request
    is made, whatever key the server is configured with by then.  This
    holds when the durable store is healthy, and when it cannot be
    reached and is not required. *)
Theorem tmdbProxy_repeat_is_cached
    (localeCompare : string -> string -> comparison) (require : bool)
    (keyFromEnv1 keyFromConfig1 keyFromEnv2 keyFromConfig2 : option string)
    (fetch1 fetch2 : Proxy.UpstreamRequest -> Proxy.FetchOutcome)
    (req : Proxy.Request) (now1 now2 : Z) (db : Cache.Firestore) (cache : Cache.MemCache)
    (status : Z) (contentType payload : string) (request : Proxy.UpstreamRequest) :
  (length cache <= Cache.MAX_IN_MEMORY_CACHE_ENTRIES)%nat ->
  now1 <> 0%Z ->
  (now2 - now1 <= Proxy.TMDB_CACHE_TTL_MS)%Z ->
  payload <> ""%string ->
  Proxy.ok status = true ->
  is_Some (Proxy.getTmdbApiKey keyFromEnv2 keyFromConfig2) ->
  (require = false /\ unreachable db) \/ (exists docs, db = Cache.Db true docs) ->
  let first :=
    Proxy.tmdbProxy localeCompare require keyFromEnv1 keyFromConfig1 fetch1 req now1 db cache in
  first.1 = (Proxy.Sent status contentType payload, [request]) ->
  (Proxy.tmdbProxy localeCompare require keyFromEnv2 keyFromConfig2 fetch2 req now2
     first.2.1 first.2.2).1
  = (Proxy.Sent status contentType payload, []).
Proof.
  intros Hlen Hnow Hwithin Hpayload Hok [apiKey2 Hkey2] Hdb first.
  unfold first, Proxy.tmdbProxy. rewrite Hkey2.
  destruct (Proxy.method req); [|done..].
  destruct (mapGet _ Proxy.ALLOWED_ENDPOINTS) as [endpointConfig|];
    [|by destruct (bool_decide _)].
  destruct (match Proxy.path endpointConfig with
            | Proxy.PathString s => _ | Proxy.PathFunction f => _ end)
    as [targetPath|]; [|done].
  destruct (Proxy.getTmdbApiKey keyFromEnv1 keyFromConfig1) as [apiKey1|]; [|done].
  set (fwd := Proxy.forwardedParams _ (Proxy.query req)).
  assert (Hfwd : forall kv, In kv fwd -> kv.1 <> "api_key"%string)
    by (intros kv Hkv; by apply forwardedParams_no_credential in Hkv as [? ?]).
  unfold Proxy.readTmdbCache, Proxy.writeTmdbCache.
  rewrite !tmdbCacheKeyParts_paramsSet by done.
  set (parts := TmdbProxy.tmdbCacheKeyParts localeCompare (Some targetPath) (Some fwd)).
  destruct (Cache.readCachedResponse require localeCompare Proxy.TMDB_CACHE_COLLECTION parts
              (Some Proxy.TMDB_CACHE_TTL_MS) now1 db cache) as [[cached|] cache1] eqn:Hread1;
    [done|].
  destruct (fetch1 _) as [status1 header payload1|]; [|done].
  cbn [fst snd]. intros [= -> <- -> _]. rewrite Hok.
  set (contentType := default "application/json"%string (Cache.nonEmptyString header)).
  set (written := {| Cache.status := Some status; Cache.contentType := Some contentType;
                     Cache.body := Some payload; Cache.metadata := _ |}).
  assert (Hb : Cache.nonEmptyString (Cache.body written) = Some payload)
    by (cbn; by destruct payload).
  assert (Hlen1 : (length cache1 <= Cache.MAX_IN_MEMORY_CACHE_ENTRIES)%nat).
  { pose proof (readCachedResponse_length localeCompare require Proxy.TMDB_CACHE_COLLECTION
                  parts (Some Proxy.TMDB_CACHE_TTL_MS) now1 db cache Hlen) as H.
    by rewrite Hread1 in H. }
  assert (Hfresh : Cache.expired (Some Proxy.TMDB_CACHE_TTL_MS) now2 now1 = false).
  { cbn. apply andb_false_iff. right. apply Z.ltb_ge. exact Hwithin. }
  pose proof (readCachedResponse_after_write localeCompare require Proxy.TMDB_CACHE_COLLECTION
                parts written payload now1 (Some Proxy.TMDB_CACHE_TTL_MS) now2 db cache1
                Hb (tmdbCacheId_nonempty _ _ _) Hnow Hfresh Hlen1 Hdb) as Hhit.
  cbv zeta in Hhit.
  destruct (Cache.readCachedResponse require localeCompare Proxy.TMDB_CACHE_COLLECTION parts
              (Some Proxy.TMDB_CACHE_TTL_MS) now2 _ _) as [cached2 cache2].
  cbn [fst] in Hhit. subst cached2. cbn.
  unfold contentType. by destruct header as [[|c s]|].
Qed.

Lemma tmdbProxy_repeat_is_cached_witness :
  let first :=
    Proxy.tmdbProxy String.compare false (Some "server-key"%string) None upstreamOk
      popularRequest 1700000000000 Cache.NoFirestore [] in
  first.1.2 = [("/3/movie/popular", [("page", "2"); ("api_key", "server-key")])]%string
  /\ (Proxy.tmdbProxy String.compare false (Some "rotated-key"%string) None upstreamDown
        popularRequest 1700003600000 first.2.1 first.2.2).1
     = (Proxy.Sent 200 "application/json;charset=utf-8" "{}", []).
Proof.
  intros first. split; [reflexivity|].
  apply (tmdbProxy_repeat_is_cached String.compare false (Some "server-key"%string) None
           (Some "rotated-key"%string) None upstreamOk upstreamDown popularRequest
           1700000000000 1700003600000 Cache.NoFirestore []
           200 "application/json;charset=utf-8" "{}"
           ("/3/movie/popular", [("page", "2"); ("api_key", "server-key")])%string).
  - unfold Cache.MAX_IN_MEMORY_CACHE_ENTRIES. cbn. lia.
  - lia.
  - unfold Proxy.TMDB_CACHE_TTL_MS. lia.
  - discriminate.
  - reflexivity.
  - eexists. reflexivity.
  - left. split; [reflexivity | exact I].
  - reflexivity.
Defined.

Lemma mapDelete_sublist {V : Type} key (m : list (string * V)) : sublist (mapDelete key m) m.
Proof.
  induction m as [|[k v] m IH]; cbn; [constructor|].
  destruct (String.eqb k key); [by apply sublist_cons | by apply sublist_skip].
Qed.

(** A miss leaves the in-memory map as it was, or without the expired
    entry. *)
Lemma readCachedResponse_miss localeCompare require collection parts ttlMs now db cache cache1 :
  Cache.readCachedResponse require localeCompare collection parts ttlMs now db cache
  = (None, cache1) ->
  sublist cache1 cache.
Proof.
  assert (Hfb : forall r c, Cache.fallbackRead require (Cache.buildCacheId localeCompare parts)
                              ttlMs now cache = (r, c) -> sublist c cache).
  { unfold Cache.fallbackRead, Cache.readInMemoryCache. intros r c.
    repeat case_match; intros [= _ <-]; done || apply mapDelete_sublist. }
  unfold Cache.readCachedResponse.
  repeat case_match; first [by apply Hfb | intros [= <-]; apply mapDelete_sublist | done].
Qed.

(** X16: an upstream answer that is not a 2xx response, or an upstream
    failure, is passed on to the client but never stored: the durable
    store is left as it was and the in-memory map gains no entry. *)
Theorem tmdbProxy_failure_not_cached
    (localeCompare : string -> string -> comparison) (require : bool)
    (keyFromEnv keyFromConfig : option string)
    (fetch : Proxy.UpstreamRequest -> Proxy.FetchOutcome)
    (req : Proxy.Request) (now : Z) (db : Cache.Firestore) (cache : Cache.MemCache)
    (request : Proxy.UpstreamRequest) :
  let outcome :=
    Proxy.tmdbProxy localeCompare require keyFromEnv keyFromConfig fetch req now db cache in
  outcome.1.2 = [request] ->
  match fetch request with
  | Proxy.Responded status _ _ => Proxy.ok status = false
  | Proxy.FetchThrew => True
  end ->
  outcome.2.1 = db
  /\ sublist outcome.2.2 cache
  /\ outcome.1.1
     = match fetch request with
       | Proxy.Responded status header payload =>
           Proxy.Sent status (default "application/json"%string (Cache.nonEmptyString header))
             payload
       | Proxy.FetchThrew => Proxy.JsonError 500 "tmdb_proxy_failed"
       end.
Proof.
  intros outcome. unfold outcome, Proxy.tmdbProxy.
  destruct (Proxy.method req); [|done..].
  destruct (mapGet _ Proxy.ALLOWED_ENDPOINTS) as [endpointConfig|];
    [|by destruct (bool_decide _)].
  destruct (match Proxy.path endpointConfig with
            | Proxy.PathString s => _ | Proxy.PathFunction f => _ end)
    as [targetPath|]; [|done].
  destruct (Proxy.getTmdbApiKey keyFromEnv keyFromConfig) as [apiKey|]; [|done].
  set (params := Proxy.paramsSet _ _ _). clearbody params.
  destruct (Proxy.readTmdbCache _ _ _ _ _ _ _) as [[cached|] cache1] eqn:Hread; [done|].
  apply readCachedResponse_miss in Hread.
  destruct (fetch (targetPath, params)) as [status header payload|] eqn:Hfetch;
    cbn [fst snd]; intros [= <-]; rewrite Hfetch.
  - intros ->. by repeat split.
  - intros _. by repeat split.
Qed.

Lemma tmdbProxy_failure_not_cached_witness :
  let outcome :=
    Proxy.tmdbProxy String.compare false (Some "server-key"%string) None upstreamDown
      popularRequest 1700000000000 (Cache.Db true ∅) [] in
  outcome.2.1 = Cache.Db true ∅
  /\ sublist outcome.2.2 []
  /\ outcome.1.1 = Proxy.Sent 503 "application/json" "{}".
Proof.
  exact (tmdbProxy_failure_not_cached String.compare false (Some "server-key"%string) None
           upstreamDown popularRequest 1700000000000 (Cache.Db true ∅) []
           ("/3/movie/popular", [("page", "2"); ("api_key", "server-key")])%string
           eq_refl eq_refl).
Defined.

(** ** The discovery history *)

Lemma evictOldest_drop fuel (h : Discover.History) :
  Discover.evictOldest fuel h
  = drop (fuel `min` (length h - Discover.TMDB_DISCOVER_HISTORY_LIMIT)) h.
Proof.
  revert h. induction fuel as [|fuel IH]; intros h; cbn [Discover.evictOldest]; [done|].
  destruct (Nat.ltb_spec Discover.TMDB_DISCOVER_HISTORY_LIMIT (length h)) as [Hover|Hok].
  - destruct h as [|[k v] t]; [cbn in Hover; lia|].
    cbn [mapDelete]. rewrite String.eqb_refl, IH. cbn [length] in *.
    replace (S (length t) - Discover.TMDB_DISCOVER_HISTORY_LIMIT)
      with (S (length t - Discover.TMDB_DISCOVER_HISTORY_LIMIT)) by lia.
    by rewrite <- Nat.succ_min_distr.
  - replace (length h - Discover.TMDB_DISCOVER_HISTORY_LIMIT) with 0 by lia.
    by rewrite Nat.min_0_r.
Qed.

Lemma evictOldest_full (h : Discover.History) :
  Discover.evictOldest (length h) h
  = drop (length h - Discover.TMDB_DISCOVER_HISTORY_LIMIT) h.
Proof. rewrite evictOldest_drop. f_equal. lia. Qed.

Lemma uniqueKeys_drop {V : Type} n (m : list (string * V)) :
  uniqueKeys m -> uniqueKeys (drop n m).
Proof.
  unfold uniqueKeys. intros H. change (NoDup (fst <$> drop n m)). rewrite fmap_drop.
  exact (sublist_NoDup _ _ H (sublist_drop _ _)).
Qed.

Lemma Forall_mapSet {V : Type} (P : string * V -> Prop) key value m :
  Forall P m -> P (key, value) -> Forall P (mapSet key value m).
Proof.
  intros Hm Hkv. induction Hm as [|[k v] m Hk Hm IH]; cbn; [by constructor|].
  destruct (String.eqb_spec k key) as [->|_]; by constructor.
Qed.

Lemma Forall_mapDelete {V : Type} (P : string * V -> Prop) key m :
  Forall P m -> Forall P (mapDelete key m).
Proof.
  intros Hm. induction Hm as [|[k v] m Hk Hm IH]; cbn; [constructor|].
  destruct (String.eqb k key); [done | by constructor].
Qed.

Lemma normalizeTmdbDiscoverStateEntry_normalized now rawNextPage rawAllowedPages rawTotalPages
    rawExhausted rawUpdatedAt rawLastAttempt :
  (0 < now)%Z ->
  normalizedState
    (Discover.normalizeTmdbDiscoverStateEntry now rawNextPage rawAllowedPages rawTotalPages
       rawExhausted rawUpdatedAt rawLastAttempt).
Proof.
  intros Hnow.
  unfold normalizedState, Discover.normalizeTmdbDiscoverStateEntry, Discover.positiveOr,
    Discover.positiveOrNull, Discover.MAX_DISCOVER_PAGES.
  cbn [Discover.nextPage Discover.allowedPages Discover.totalPages Discover.updatedAt
       Discover.lastAttempt].
  repeat split; try lia.
  - repeat case_match; lia.
  - intros t. repeat case_match; intros [= <-]; lia.
  - repeat case_match; lia.
  - intros a. repeat case_match; intros [= <-]; lia.
Qed.

(** The three ways a write can leave the history. *)
Lemma writeTmdbDiscoverState_cases now key p h :
  let h' := Discover.writeTmdbDiscoverState now key p h in
  (key = ""%string /\ h' = h)
  \/ (exists existing refreshed,
        mapGet key h = Some existing
        /\ Discover.nextPage refreshed = Discover.nextPage existing
        /\ Discover.allowedPages refreshed = Discover.allowedPages existing
        /\ Discover.totalPages refreshed = Discover.totalPages existing
        /\ Discover.exhausted refreshed = Discover.exhausted existing
        /\ ((0 < now)%Z -> normalizedState refreshed)
        /\ key <> ""%string
        /\ h' = mapSet key refreshed h)
  \/ (exists payload,
        ((0 < now)%Z -> normalizedState payload)
        /\ key <> ""%string
        /\ let h1 := mapSet key payload (mapDelete key h) in
           h' = drop (length h1 - Discover.TMDB_DISCOVER_HISTORY_LIMIT) h1).
Proof.
  unfold Discover.writeTmdbDiscoverState.
  destruct key as [|c key']; [by left|]. set (key := String c key').
  set (payload := Discover.normalizeTmdbDiscoverStateEntry _ _ _ _ _ _ _).
  assert (Hpayload : (0 < now)%Z -> normalizedState payload)
    by (intros Hnow; by apply normalizeTmdbDiscoverStateEntry_normalized).
  assert (Hfresh : exists payload0,
             ((0 < now)%Z -> normalizedState payload0)
             /\ key <> ""%string
             /\ let h1 := mapSet key payload0 (mapDelete key h) in
                Discover.evictOldest (length (mapSet key payload (mapDelete key h)))
                  (mapSet key payload (mapDelete key h))
                = drop (length h1 - Discover.TMDB_DISCOVER_HISTORY_LIMIT) h1).
  { exists payload. split; [exact Hpayload|]. split; [done|]. apply evictOldest_full. }
  destruct (mapGet key h) as [existing|] eqn:Hget; [|by right; right].
  destruct (Discover.sameCursor existing payload) eqn:Hsame; [|by right; right].
  right. left.
  exists existing,
    {| Discover.nextPage := Discover.nextPage existing;
       Discover.allowedPages := Discover.allowedPages existing;
       Discover.totalPages := Discover.totalPages existing;
       Discover.exhausted := Discover.exhausted existing;
       Discover.updatedAt := Discover.updatedAt payload;
       Discover.lastAttempt := Discover.lastAttempt payload |}.
  split; [reflexivity|].
  cbn [Discover.nextPage Discover.allowedPages Discover.totalPages Discover.exhausted].
  do 4 (split; [reflexivity|]). split; [|split; [done | reflexivity]].
  - intros Hnow. specialize (Hpayload Hnow).
    unfold Discover.sameCursor in Hsame.
    apply andb_true_iff in Hsame as [[[H1 H2]%andb_true_iff H3]%andb_true_iff H4].
    apply Z.eqb_eq in H1, H2. apply bool_decide_eq_true in H3.
    destruct Hpayload as (P1 & P2 & P3 & P4 & P5 & P6).
    unfold normalizedState. cbn. rewrite H1, H2, H3. by repeat split.
Qed.

Lemma hydrate_invariant (P : Discover.DiscoverState -> Prop) now container :
  Forall (fun kv => forall raw, kv.2 = Some raw ->
            P (DiscoverStore.normalizeTmdbDiscoverStateEntry now raw)) container ->
  let h := DiscoverStore.hydrateTmdbDiscoverState now container in
  (length h <= Discover.TMDB_DISCOVER_HISTORY_LIMIT)%nat
  /\ uniqueKeys h
  /\ Forall (fun kv => kv.1 <> ""%string /\ P kv.2) h.
Proof.
  intros HP. unfold DiscoverStore.hydrateTmdbDiscoverState. cbv zeta.
  rewrite evictOldest_full.
  assert (Hfold : forall h0,
             uniqueKeys h0 -> Forall (fun kv => kv.1 <> ""%string /\ P kv.2) h0 ->
             uniqueKeys (foldl (DiscoverStore.hydrateStep now) h0 container)
             /\ Forall (fun kv => kv.1 <> ""%string /\ P kv.2)
                  (foldl (DiscoverStore.hydrateStep now) h0 container)).
  { induction HP as [|[key [raw|]] container Hraw HP IH]; intros h0 Hu Hall; cbn [foldl];
      [done| |by apply IH].
    apply IH; unfold DiscoverStore.hydrateStep; cbn [fst snd]; destruct key as [|c key];
      try done.
    - by apply mapSet_uniqueKeys.
    - apply Forall_mapSet; [done|]. split; [done | by apply Hraw]. }
  destruct (Hfold [] (NoDup_nil_2 : uniqueKeys []) (Forall_nil_2 _)) as [Hu Hall].
  split; [rewrite length_drop; lia|]. split; [by apply uniqueKeys_drop | by apply Forall_drop].
Qed.

Lemma writeTmdbDiscoverState_invariant (P : Discover.DiscoverState -> Prop) now key p h :
  (forall st, normalizedState st -> P st) ->
  ((0 < now)%Z \/ forall st, P st) ->
  (length h <= Discover.TMDB_DISCOVER_HISTORY_LIMIT)%nat ->
  uniqueKeys h ->
  Forall (fun kv => kv.1 <> ""%string /\ P kv.2) h ->
  let h' := Discover.writeTmdbDiscoverState now key p h in
  (length h' <= Discover.TMDB_DISCOVER_HISTORY_LIMIT)%nat
  /\ uniqueKeys h'
  /\ Forall (fun kv => kv.1 <> ""%string /\ P kv.2) h'.
Proof.
  intros HP Hnow Hlen Hu Hall. cbv zeta.
  destruct (writeTmdbDiscoverState_cases now key p h)
    as [[_ ->]|[(existing & refreshed & Hget & _ & _ & _ & _ & Hnorm & Hkey & ->)
               |(payload & Hnorm & Hkey & ->)]]; [done| |].
  - split; [|split].
    + rewrite length_mapSet, Hget. exact Hlen.
    + by apply mapSet_uniqueKeys.
    + apply Forall_mapSet; [done|]. split; [done|].
      destruct Hnow as [Hnow|Hany]; [apply HP, Hnorm, Hnow | apply Hany].
  - cbv zeta. split; [rewrite length_drop; lia|]. split.
    + by apply uniqueKeys_drop, mapSet_uniqueKeys, mapDelete_uniqueKeys.
    + apply Forall_drop, Forall_mapSet; [by apply Forall_mapDelete|]. split; [done|].
      destruct Hnow as [Hnow|Hany]; [apply HP, Hnorm, Hnow | apply Hany].
Qed.

(** X17: however the history was persisted and whatever is written to
    it afterwards, it never holds more than 50 signatures, no signature
    occurs twice, and none is the empty string. *)
Theorem sessionHistory_bounded (now : Z) (container : DiscoverStore.Container)
    (writes : list CursorWrite) :
  let h := sessionHistory now container writes in
  (length h <= Discover.TMDB_DISCOVER_HISTORY_LIMIT)%nat
  /\ uniqueKeys h
  /\ Forall (fun kv => kv.1 <> ""%string) h.
Proof.
  unfold sessionHistory.
  assert (H : forall h0,
             (length h0 <= Discover.TMDB_DISCOVER_HISTORY_LIMIT)%nat /\ uniqueKeys h0
             /\ Forall (fun kv => kv.1 <> ""%string /\ True) h0 ->
             (length (historyAfterWrites h0 writes) <= Discover.TMDB_DISCOVER_HISTORY_LIMIT)%nat
             /\ uniqueKeys (historyAfterWrites h0 writes)
             /\ Forall (fun kv => kv.1 <> ""%string /\ True) (historyAfterWrites h0 writes)).
  { induction writes as [|w writes IH]; intros h0 Hinv; [exact Hinv|].
    cbn [historyAfterWrites foldl]. apply IH. destruct Hinv as (Hlen & Hu & Hall).
    apply (writeTmdbDiscoverState_invariant (fun _ => True)); auto. }
  assert (Hany : Forall (fun kv : string * option DiscoverStore.RawEntry =>
                          forall raw, kv.2 = Some raw -> True) container)
    by (by apply List.Forall_forall).
  destruct (H _ (hydrate_invariant (fun _ => True) now container Hany))
    as (Hlen & Hu & Hall).
  split; [exact Hlen|]. split; [exact Hu|].
  eapply Forall_impl; [exact Hall|]. by intros kv [? _].
Qed.

Lemma flooredPositive_bounds f n :
  DiscoverStore.flooredPositive f = Some n ->
  (0 <= n)%Z /\ (fractionBelowOne f = false -> (1 <= n)%Z).
Proof.
  unfold DiscoverStore.flooredPositive, fractionBelowOne.
  destruct (DiscoverStore.finiteNumber f) as [x|]; [|done].
  destruct (Qle_bool x 0) eqn:Hx; [done|]. intros [= <-].
  assert (Hpos : (0 < x)%Q).
  { apply Qnot_le_lt. intros Hle. apply Qle_bool_iff in Hle. congruence. }
  split.
  - change 0%Z with (Qfloor 0). by apply Qfloor_resp_le, Qlt_le_weak.
  - cbn [negb andb]. intros Hone. apply negb_false_iff, Qle_bool_iff in Hone.
    change 1%Z with (Qfloor 1). by apply Qfloor_resp_le.
Qed.

Lemma fractionBelowOne_nullishOr a b :
  fractionBelowOne a = false -> fractionBelowOne b = false ->
  fractionBelowOne (DiscoverStore.nullishOr a b) = false.
Proof. by destruct a. Qed.

Lemma default_flooredPositive_bounds fallback f :
  ((0 <= fallback)%Z -> (0 <= default fallback (DiscoverStore.flooredPositive f))%Z)
  /\ ((1 <= fallback)%Z -> fractionBelowOne f = false ->
      (1 <= default fallback (DiscoverStore.flooredPositive f))%Z).
Proof.
  pose proof (flooredPositive_bounds f) as H.
  destruct (DiscoverStore.flooredPositive f) as [n|]; cbn [default]; [|done].
  destruct (H n eq_refl) as [H0 H1]. split; [done|]. intros _. exact H1.
Qed.

Lemma normalizeTmdbDiscoverStateEntry_floored now raw :
  (0 < now)%Z ->
  flooredState (DiscoverStore.normalizeTmdbDiscoverStateEntry now raw)
  /\ (noFractionBelowOne raw ->
      normalizedState (DiscoverStore.normalizeTmdbDiscoverStateEntry now raw)).
Proof.
  intros Hnow.
  unfold flooredState, normalizedState, noFractionBelowOne,
    DiscoverStore.normalizeTmdbDiscoverStateEntry, Discover.MAX_DISCOVER_PAGES.
  cbn [Discover.nextPage Discover.allowedPages Discover.totalPages Discover.updatedAt
       Discover.lastAttempt].
  destruct (default_flooredPositive_bounds 1 (DiscoverStore.raw_nextPage raw))
    as [Hnext0 Hnext1].
  destruct (default_flooredPositive_bounds now
              (DiscoverStore.nullishOr (DiscoverStore.raw_updatedAt raw)
                 (DiscoverStore.raw_lastAttempt raw))) as [Hupdated0 Hupdated1].
  pose proof (flooredPositive_bounds (DiscoverStore.raw_totalPages raw)) as Htotal.
  pose proof (flooredPositive_bounds (DiscoverStore.raw_lastAttempt raw)) as Hlast.
  pose proof (fractionBelowOne_nullishOr (DiscoverStore.raw_updatedAt raw)
                (DiscoverStore.raw_lastAttempt raw)) as Hor.
  set (nextPage := default 1%Z _) in *.
  set (updatedAt := default now _) in *.
  specialize (Hnext0 ltac:(lia)). specialize (Hupdated0 ltac:(lia)).
  split.
  - split; [lia|]. split; [lia|]. split; [lia|]. split; [|split; [lia|]].
    + intros t Ht. by apply (Htotal t Ht).
    + intros a Ha. by apply (Hlast a Ha).
  - intros (F1 & F2 & F3 & F4).
    specialize (Hnext1 ltac:(lia) F1). specialize (Hupdated1 ltac:(lia) (Hor F3 F4)).
    split; [lia|]. split; [lia|]. split; [lia|]. split; [|split; [lia|]].
    + intros t Ht. pose proof (proj2 (Htotal t Ht) F2). lia.
    + intros a Ha. pose proof (proj2 (Hlast a Ha) F4). lia.
Qed.

Lemma normalizedState_flooredState st : normalizedState st -> flooredState st.
Proof.
  intros (H1 & H2 & H3 & H4 & H5 & H6). unfold flooredState.
  repeat split; try lia.
  - intros t Ht. specialize (H4 t Ht). lia.
  - intros a Ha. specialize (H6 a Ha). lia.
Qed.

(** On an object whose fields are whole numbers or [null] the floor
    changes nothing: this is the form the cursor writes use. *)
Lemma normalizeTmdbDiscoverStateEntry_integers now rawNextPage rawAllowedPages rawTotalPages
    rawExhausted rawUpdatedAt rawLastAttempt :
  DiscoverStore.normalizeTmdbDiscoverStateEntry now
    (integerEntry rawNextPage rawAllowedPages rawTotalPages rawExhausted rawUpdatedAt
       rawLastAttempt)
  = Discover.normalizeTmdbDiscoverStateEntry now rawNextPage rawAllowedPages rawTotalPages
      rawExhausted rawUpdatedAt rawLastAttempt.
Proof.
  assert (Hnum : forall v, DiscoverStore.flooredPositive (DiscoverStore.rawNumberOrNull v)
                           = Discover.positiveOrNull v).
  { intros [n|]; [|done].
    unfold DiscoverStore.flooredPositive, Discover.positiveOrNull.
    cbn [DiscoverStore.rawNumberOrNull DiscoverStore.rawNumber DiscoverStore.finiteNumber].
    rewrite Qfloor_Z. unfold Qle_bool. cbn [Qnum Qden inject_Z]. rewrite !Z.mul_1_r.
    destruct (Z.leb_spec n 0), (Z.ltb_spec 0 n); done || lia. }
  assert (Hor : forall fallback v,
             default fallback (Discover.positiveOrNull v) = Discover.positiveOr fallback v).
  { intros fallback [n|]; [|done]. unfold Discover.positiveOrNull, Discover.positiveOr.
    by destruct (0 <? n)%Z. }
  unfold DiscoverStore.normalizeTmdbDiscoverStateEntry, Discover.normalizeTmdbDiscoverStateEntry,
    integerEntry.
  cbn [DiscoverStore.raw_nextPage DiscoverStore.raw_allowedPages DiscoverStore.raw_totalPages
       DiscoverStore.raw_exhausted DiscoverStore.raw_updatedAt DiscoverStore.raw_lastAttempt].
  rewrite !Hnum, !Hor. f_equal.
  destruct rawUpdatedAt as [u|]; cbn [DiscoverStore.rawNumberOrNull DiscoverStore.nullishOr
                                       DiscoverStore.rawNumber].
  - by rewrite <- Hor, <- (Hnum (Some u)).
  - by rewrite <- Hor, <- Hnum.
Qed.

(** X18: when the clock is positive, whatever was persisted (missing
    fields, [null]s, strings, fractions, zero or negative numbers) and
    whatever is written, every state of the history has a next page of at
    least 0, a page ceiling of at least 10 and at least the next page, and
    a known total and time stamps of at least 0.  When no persisted page
    number or time stamp lies strictly between 0 and 1, every state is
    normalized: the next page is at least 1, and a known total and the
    time stamps are positive.  The weaker bound is met: a persisted next
    page strictly between 0 and 1 passes the [> 0] test and is stored as
    page 0. *)
Theorem sessionHistory_normalized (now : Z) (container : DiscoverStore.Container)
    (writes : list CursorWrite) :
  (0 < now)%Z ->
  Forall (fun w => (0 < w_now w)%Z) writes ->
  Forall (fun kv => flooredState kv.2) (sessionHistory now container writes)
  /\ (Forall (fun kv => forall raw, kv.2 = Some raw -> noFractionBelowOne raw) container ->
      Forall (fun kv => normalizedState kv.2) (sessionHistory now container writes))
  /\ (forall key raw x,
        key <> ""%string ->
        DiscoverStore.finiteNumber (DiscoverStore.raw_nextPage raw) = Some x ->
        (0 < x < 1)%Q ->
        exists st,
          Discover.readTmdbDiscoverState key
            (DiscoverStore.hydrateTmdbDiscoverState now [(key, Some raw)]) = Some st
          /\ Discover.nextPage st = 0%Z).
Proof.
  intros Hnow Hwrites. unfold sessionHistory.
  assert (H : forall (P : Discover.DiscoverState -> Prop) h0,
             (forall st, normalizedState st -> P st) ->
             (length h0 <= Discover.TMDB_DISCOVER_HISTORY_LIMIT)%nat /\ uniqueKeys h0
             /\ Forall (fun kv => kv.1 <> ""%string /\ P kv.2) h0 ->
             Forall (fun kv => kv.1 <> ""%string /\ P kv.2) (historyAfterWrites h0 writes)).
  { intros P h0 HP. revert h0.
    induction Hwrites as [|w writes Hw Hwrites IH]; intros h0 Hinv; [apply Hinv|].
    cbn [historyAfterWrites foldl]. apply IH. destruct Hinv as (Hlen & Hu & Hall).
    apply (writeTmdbDiscoverState_invariant P); auto. }
  split; [|split].
  - eapply Forall_impl; [apply (H flooredState), (hydrate_invariant flooredState)
                        |by intros kv [_ ?]].
    + apply normalizedState_flooredState.
    + apply List.Forall_forall. intros kv _ raw _.
      by apply normalizeTmdbDiscoverStateEntry_floored.
  - intros Hwhole.
    eapply Forall_impl; [apply (H normalizedState), (hydrate_invariant normalizedState)
                        |by intros kv [_ ?]]; [done|].
    eapply Forall_impl; [exact Hwhole|]. intros kv Hkv raw Hraw.
    by apply normalizeTmdbDiscoverStateEntry_floored, Hkv.
  - intros key raw x Hkey Hx [Hpos Hbelow].
    destruct key as [|c key']; [done|]. set (key := String c key').
    exists (DiscoverStore.normalizeTmdbDiscoverStateEntry now raw). split.
    + unfold DiscoverStore.hydrateTmdbDiscoverState. cbv zeta.
      rewrite evictOldest_full. cbn [foldl DiscoverStore.hydrateStep fst snd].
      fold key. cbn [mapSet length]. unfold Discover.TMDB_DISCOVER_HISTORY_LIMIT.
      cbn [Nat.sub drop]. unfold Discover.readTmdbDiscoverState, key. fold key.
      change (length [(key, DiscoverStore.normalizeTmdbDiscoverStateEntry now raw)] - 50)
        with 0%nat.
      cbn [drop mapGet fst snd]. by rewrite String.eqb_refl.
    + unfold DiscoverStore.normalizeTmdbDiscoverStateEntry, DiscoverStore.flooredPositive.
      cbn [Discover.nextPage]. rewrite Hx.
      destruct (Qle_bool x 0) eqn:Hle.
      { apply Qle_bool_iff in Hle. exfalso. by apply (Qlt_not_le _ _ Hpos). }
      cbn [default].
      assert (Hlow : (0 <= Qfloor x)%Z)
        by (change 0%Z with (Qfloor 0); by apply Qfloor_resp_le, Qlt_le_weak).
      assert (Hhigh : (Qfloor x < 1)%Z).
      { rewrite Zlt_Qlt. eapply Qle_lt_trans; [apply Qfloor_le | exact Hbelow]. }
      unfold Datatypes.id. lia.
Qed.

Lemma sessionHistory_normalized_witness :
  let container :=
    [ ("proxy|||||__all__"%string, Some corruptEntry);
      ("direct|6.5||||__all__"%string, Some fractionalEntry);
      ("junk"%string, None) ] in
  let writes :=
    [ {| w_now := 1700000000001; w_key := "direct|7||||__all__";
         w_state := {| Discover.p_nextPage := 0; Discover.p_allowedPages := -1;
                       Discover.p_totalPages := Some 0%Z;
                       Discover.p_exhausted := false |} |} ] in
  Forall (fun kv => flooredState kv.2) (sessionHistory 1700000000000 container writes)
  /\ (exists st,
        Discover.readTmdbDiscoverState "direct|6.5||||__all__"
          (DiscoverStore.hydrateTmdbDiscoverState 1700000000000
             [("direct|6.5||||__all__"%string, Some fractionalEntry)]) = Some st
        /\ Discover.nextPage st = 0%Z).
Proof.
  intros container writes.
  assert (Hnow : (0 < 1700000000000)%Z) by lia.
  assert (Hwrites : Forall (fun w => (0 < w_now w)%Z) writes)
    by (repeat constructor).
  destruct (sessionHistory_normalized 1700000000000 container writes Hnow Hwrites)
    as (Hfloored & _ & Hzero).
  split; [exact Hfloored|].
  apply (Hzero "direct|6.5||||__all__"%string fractionalEntry (1 # 2)%Q);
    [discriminate | reflexivity | split; reflexivity].
Defined.

Lemma mapGet_mapSet_ne {V : Type} key key' (value : V) m :
  key' <> key -> mapGet key' (mapSet key value m) = mapGet key' m.
Proof.
  intros Hne. induction m as [|[k v] m IH]; cbn.
  - by destruct (String.eqb_spec key key').
  - destruct (String.eqb_spec k key) as [->|_]; cbn.
    + by destruct (String.eqb_spec key key').
    + by rewrite IH.
Qed.

Lemma mapDelete_absent {V : Type} key (m : list (string * V)) :
  mapGet key m = None -> mapDelete key m = m.
Proof.
  induction m as [|[k v] m IH]; cbn; [done|].
  destruct (String.eqb k key); [done|]. intros H. by rewrite IH.
Qed.

Lemma length_mapDelete_present {V : Type} key (m : list (string * V)) :
  is_Some (mapGet key m) -> S (length (mapDelete key m)) = length m.
Proof.
  induction m as [|[k v] m IH]; cbn; [by intros [? ?]|].
  destruct (String.eqb k key); cbn; [done|]. intros H. by rewrite IH.
Qed.

Lemma mapGet_app_ne {V : Type} key key' (value : V) m :
  key' <> key -> mapGet key' (m ++ [(key, value)]) = mapGet key' m.
Proof.
  intros Hne. induction m as [|[k v] m IH]; cbn.
  - by destruct (String.eqb_spec key key').
  - by rewrite IH.
Qed.

(** X19: a write for one signature leaves the state of every other
    signature as it was, as long as the history has room or the signature
    is already known.  When the history is full and the signature is new,
    exactly the oldest entry is dropped and the new state goes last. *)
Theorem writeTmdbDiscoverState_other_signatures (now : Z) (key : string)
    (p : Discover.Progress) (h : Discover.History) :
  uniqueKeys h ->
  (length h <= Discover.TMDB_DISCOVER_HISTORY_LIMIT)%nat ->
  let h' := Discover.writeTmdbDiscoverState now key p h in
  ((length h < Discover.TMDB_DISCOVER_HISTORY_LIMIT)%nat \/ is_Some (mapGet key h) ->
     forall key', key' <> key -> mapGet key' h' = mapGet key' h)
  /\ (forall oldest st rest,
        h = (oldest, st) :: rest ->
        length h = Discover.TMDB_DISCOVER_HISTORY_LIMIT ->
        mapGet key h = None ->
        key <> ""%string ->
        exists written, h' = rest ++ [(key, written)]).
Proof.
  intros Hu Hlen. cbv zeta.
  pose proof (mapGet_mapDelete key h Hu) as Hdel.
  destruct (writeTmdbDiscoverState_cases now key p h)
    as [[Hempty Heq]|[(existing & refreshed & Hget & _ & _ & _ & _ & _ & Hkey & Heq)
                     |(payload & _ & Hkey & Heq)]]; cbv zeta in Heq; rewrite Heq; clear Heq.
  - split; [done|]. by intros oldest st rest _ _ _ Hkey.
  - split; [intros _ key' Hne; by apply mapGet_mapSet_ne|].
    intros oldest st rest _ _ Hnone. congruence.
  - rewrite (mapSet_fresh key payload _ Hdel). split.
    + intros Hroom key' Hne.
      assert (Hshort : (length (mapDelete key h ++ [(key, payload)])
                        <= Discover.TMDB_DISCOVER_HISTORY_LIMIT)%nat).
      { rewrite length_app. cbn [length].
        destruct (mapGet key h) as [existing|] eqn:Hget.
        - pose proof (length_mapDelete_present key h (ltac:(by eexists))). lia.
        - rewrite (mapDelete_absent key h Hget). destruct Hroom as [?|[? ?]]; [lia|done]. }
      replace (length _ - _) with 0 by lia. rewrite drop_0.
      rewrite mapGet_app_ne by done. by apply mapGet_mapDelete_ne.
    + intros oldest st rest -> Hfull Hnone _. exists payload.
      rewrite (mapDelete_absent _ _ Hnone), length_app, Hfull. cbn [length].
      replace (Discover.TMDB_DISCOVER_HISTORY_LIMIT + 1 - Discover.TMDB_DISCOVER_HISTORY_LIMIT)
        with 1 by lia.
      reflexivity.
Qed.

Lemma writeTmdbDiscoverState_other_signatures_witness :
  (mapGet "proxy|||||__all__"
     (Discover.writeTmdbDiscoverState 1700000000001 "proxy|8||||__all__" sampleProgress
        [("proxy|||||__all__"%string, sampleState)])
   = Some sampleState)
  /\ exists written,
       Discover.writeTmdbDiscoverState 1700000000001 "proxy|8||||__all__" sampleProgress
         fullHistory
       = tail fullHistory ++ [("proxy|8||||__all__"%string, written)].
Proof.
  split.
  - assert (Hu : uniqueKeys [("proxy|||||__all__"%string, sampleState)])
      by (apply NoDup_singleton).
    assert (Hlen : (length [("proxy|||||__all__"%string, sampleState)]
                    <= Discover.TMDB_DISCOVER_HISTORY_LIMIT)%nat)
      by (unfold Discover.TMDB_DISCOVER_HISTORY_LIMIT; cbn; lia).
    apply (proj1 (writeTmdbDiscoverState_other_signatures 1700000000001 "proxy|8||||__all__"
                    sampleProgress _ Hu Hlen)); [|discriminate].
    left. unfold Discover.TMDB_DISCOVER_HISTORY_LIMIT. cbn. lia.
  - assert (Hu : uniqueKeys fullHistory)
      by (apply (bool_decide_unpack _); vm_compute; reflexivity).
    assert (Hlen : (length fullHistory <= Discover.TMDB_DISCOVER_HISTORY_LIMIT)%nat)
      by (vm_compute; lia).
    apply (proj2 (writeTmdbDiscoverState_other_signatures 1700000000001 "proxy|8||||__all__"
                    sampleProgress _ Hu Hlen)
             (hd ("", sampleState) fullHistory).1 (hd (""%string, sampleState) fullHistory).2
             (tail fullHistory)).
    + vm_compute. reflexivity.
    + vm_compute. reflexivity.
    + vm_compute. reflexivity.
    + discriminate.
Defined.

(** ** Page requests of one discovery call *)

Section DiscoverRequests.

Context (applyFeedFilters : list Movie -> list Movie) (now : Z) (minFeedSize : nat)
  (suppressedIds : gset string) (fetchDiscoverPage : Z -> Discover.PageResponse).

(** Every iteration of the loop makes one request. *)
Lemma discoverLoop_requests fuel st :
  match Discover.discoverLoop applyFeedFilters now minFeedSize suppressedIds fetchDiscoverPage
          fuel st with
  | Discover.Enough st' | Discover.Finished _ st' | Discover.Threw st' =>
      (length (Discover.l_fetched st') <= length (Discover.l_fetched st) + fuel)%nat
  | Discover.OutOfFuel => True
  end.
Proof.
  revert st. induction fuel as [|fuel IH]; intros st; cbn [Discover.discoverLoop].
  - destruct (negb _); [lia | done].
  - destruct (negb _); [lia|].
    destruct (fetchDiscoverPage (Discover.l_page st)) as [pageResults reportedTotal|];
      [|cbn; rewrite length_app; cbn; lia].
    cbv zeta. destruct (minFeedSize <=? _)%nat; [cbn; rewrite length_app; cbn; lia|].
    destruct (isEmpty pageResults && _); [cbn; rewrite length_app; cbn; lia|].
    match goal with
    | |- context [Discover.discoverLoop _ _ _ _ _ fuel ?s] =>
        specialize (IH s);
        destruct (Discover.discoverLoop applyFeedFilters now minFeedSize suppressedIds
                    fetchDiscoverPage fuel s)
    end; cbn [Discover.l_fetched] in IH; rewrite ?length_app in IH; cbn [length] in IH;
      try done; lia.
Qed.

End DiscoverRequests.

(** X20: one discovery call requests consecutive pages, starting at the
    page its signature's cursor resumes from (page 1 for a new
    signature), and it makes no request beyond the page ceiling: the
    larger of the ceiling it starts with and 30.  A call for a new
    signature therefore makes at most 30 requests. *)
Theorem fetchMoviesFromTmdb_pages (key : string) (c : Call) (h : Discover.History) :
  let fetched := fetchedPages (runCall key c h) in
  fetched = seqZ (startPage key h) (Z.of_nat (length fetched))
  /\ (forall p, In p fetched ->
        (startPage key h <= p
         <= Z.max (startCeiling key h) Discover.MAX_DISCOVER_PAGES_LIMIT)%Z)
  /\ (Discover.readTmdbDiscoverState key h = None -> (length fetched <= 30)%nat).
Proof.
  cbv zeta.
  assert (Hmain : fetchedPages (runCall key c h)
                  = seqZ (startPage key h) (Z.of_nat (length (fetchedPages (runCall key c h))))
                  /\ (Z.of_nat (length (fetchedPages (runCall key c h)))
                      <= Z.max (startCeiling key h) Discover.MAX_DISCOVER_PAGES_LIMIT
                         - startPage key h + 1)%Z).
  { pose proof (startPage_ge_1 key h) as Hge1.
    assert (Hceil : (startPage key h <= startCeiling key h)%Z)
      by (unfold startCeiling; lia).
    unfold runCall, Discover.fetchMoviesFromTmdb.
    destruct (c_minFeedSize c <=? _)%nat; [cbn; split; [done | lia]|].
    fold (startPage key h).
    assert (Hstart : Z.max 1 match Discover.readTmdbDiscoverState key h with
                             | Some e => if (Discover.nextPage e =? 0)%Z then 1
                                         else Discover.nextPage e
                             | None => 1
                             end = startPage key h).
    { unfold startPage, resumePage. by destruct (Discover.readTmdbDiscoverState key h). }
    rewrite !Hstart. fold (startCeiling key h).
    match goal with
    | |- context [if ?c then Discover.Resolved _ h [] else _] => destruct c
    end; [cbn; split; [done | lia]|].
    match goal with
    | |- context [Discover.discoverLoop ?a ?b ?c ?d ?e ?fuel ?st] =>
        pose proof (discoverLoop_pages a b c d e fuel st) as Hpages;
        pose proof (discoverLoop_requests a b c d e fuel st) as Hcount;
        destruct (Discover.discoverLoop a b c d e fuel st) as [st'|reachedEnd st'|st'|]
    end; cbn [Discover.l_page Discover.l_fetched Discover.l_allowedPages app length] in *;
      cbn [fetchedPages]; [| | |cbn; split; [done | lia]].
    - destruct Hpages as [Hlt Hf]. split.
      + rewrite Hf at 1. f_equal. rewrite Hf, length_seqZ. lia.
      + unfold Discover.loopFuel in Hcount. lia.
    - destruct Hpages as [Hle Hf]. split.
      + rewrite Hf at 1. f_equal. rewrite Hf, length_seqZ. lia.
      + unfold Discover.loopFuel in Hcount. lia.
    - destruct Hpages as (k & Hk & Hf). split.
      + rewrite Hf at 1. f_equal. rewrite Hf, length_seqZ. lia.
      + unfold Discover.loopFuel in Hcount. lia. }
  destruct Hmain as [Hseq Hcount]. split; [exact Hseq|]. split.
  - intros p Hp. rewrite Hseq in Hp. apply list_elem_of_In, elem_of_seqZ in Hp. lia.
  - intros Hnew. unfold startCeiling, startPage in Hcount. rewrite Hnew in Hcount.
    cbn in Hcount. unfold Discover.MAX_DISCOVER_PAGES, Discover.MAX_DISCOVER_PAGES_LIMIT in Hcount.
    lia.
Qed.

Lemma fetchMoviesFromTmdb_pages_witness :
  let fetched := fetchedPages (runCall "direct|||||__all__" sparseCatalogCall []) in
  fetched = seqZ 1 (Z.of_nat (length fetched)) /\ (length fetched <= 30)%nat.
Proof.
  intros fetched.
  destruct (fetchMoviesFromTmdb_pages "direct|||||__all__" sparseCatalogCall [])
    as (Hseq & _ & Hnew).
  split; [exact Hseq | exact (Hnew eq_refl)].
Defined.

(** ** Persistence of the discovery history *)

Lemma mapGet_Some_In {V : Type} key (v : V) m :
  uniqueKeys m -> (mapGet key m = Some v <-> In (key, v) m).
Proof.
  unfold uniqueKeys. induction m as [|[k v'] m IH]; cbn; [by split|].
  intros [Hnotin Hnd]%NoDup_cons.
  destruct (String.eqb_spec k key) as [->|Hne].
  - split; [intros [= ->]; by left|].
    intros [[= ->]|Hin]; [done|]. exfalso. apply Hnotin, list_elem_of_In, in_map_iff.
    by exists (key, v).
  - rewrite (IH Hnd). split; [by right|]. by intros [[= ? ?]|?].
Qed.

Lemma uniqueKeys_perm {V : Type} (m1 m2 : list (string * V)) :
  Permutation m1 m2 -> uniqueKeys m1 -> uniqueKeys m2.
Proof.
  unfold uniqueKeys. intros Hp.
  assert (Hp' : Permutation (map fst m1) (map fst m2)) by (by apply Permutation_map).
  by rewrite Hp'.
Qed.

Lemma mapGet_perm {V : Type} key (m1 m2 : list (string * V)) :
  Permutation m1 m2 -> uniqueKeys m1 -> mapGet key m1 = mapGet key m2.
Proof.
  intros Hp Hu. pose proof (uniqueKeys_perm _ _ Hp Hu) as Hu2.
  destruct (mapGet key m1) as [v|] eqn:H1.
  - symmetry. apply mapGet_Some_In; [done|]. eapply Permutation_in; [exact Hp|].
    by apply mapGet_Some_In.
  - destruct (mapGet key m2) as [v|] eqn:H2; [|done].
    apply mapGet_Some_In in H2; [|done].
    apply (Permutation_in _ (Permutation_sym Hp)), mapGet_Some_In in H2; [|done]. congruence.
Qed.

(** Normalizing what was serialized from a normalized state gives the
    state back. *)
Lemma normalize_serialized now st :
  normalizedState st ->
  DiscoverStore.normalizeTmdbDiscoverStateEntry now
    {| DiscoverStore.raw_nextPage := DiscoverStore.rawNumber (Discover.nextPage st);
       DiscoverStore.raw_allowedPages := DiscoverStore.rawNumber (Discover.allowedPages st);
       DiscoverStore.raw_totalPages := DiscoverStore.rawNumberOrNull (Discover.totalPages st);
       DiscoverStore.raw_exhausted := Discover.exhausted st;
       DiscoverStore.raw_updatedAt := DiscoverStore.rawNumber (Discover.updatedAt st);
       DiscoverStore.raw_lastAttempt :=
         DiscoverStore.rawNumberOrNull (Discover.lastAttempt st) |}
  = st.
Proof.
  intros (H1 & H2 & H3 & H4 & H5 & H6).
  change (DiscoverStore.normalizeTmdbDiscoverStateEntry now
            (integerEntry (Some (Discover.nextPage st)) (Some (Discover.allowedPages st))
               (Discover.totalPages st) (Discover.exhausted st)
               (Some (Discover.updatedAt st)) (Discover.lastAttempt st)) = st).
  rewrite normalizeTmdbDiscoverStateEntry_integers.
  destruct st as [np ap tp ex up la].
  cbn in *. unfold Discover.normalizeTmdbDiscoverStateEntry, Discover.positiveOr,
    Discover.positiveOrNull, Discover.MAX_DISCOVER_PAGES in *.
  f_equal.
  - destruct (Z.ltb_spec 0 np); lia.
  - destruct (Z.ltb_spec 0 np), (Z.ltb_spec 0 ap); lia.
  - destruct tp as [t|]; [|done]. specialize (H4 t eq_refl). by destruct (Z.ltb_spec 0 t); [|lia].
  - destruct (Z.ltb_spec 0 up); lia.
  - destruct la as [a|]; [|done]. specialize (H6 a eq_refl). by destruct (Z.ltb_spec 0 a); [|lia].
Qed.

Lemma hydrate_serialized now (h2 acc : Discover.History) :
  uniqueKeys (acc ++ h2) ->
  Forall (fun kv => kv.1 <> ""%string /\ normalizedState kv.2) h2 ->
  foldl (DiscoverStore.hydrateStep now) acc
    (map (fun kv => (kv.1, Some kv.2)) (DiscoverStore.getSerializableTmdbDiscoverState h2))
  = acc ++ h2.
Proof.
  revert acc. induction h2 as [|[k st] h2 IH]; intros acc Hu Hall; cbn [map foldl].
  { by rewrite app_nil_r. }
  apply Forall_cons in Hall as [[Hk Hst] Hall]. cbn [fst snd] in Hk, Hst.
  unfold DiscoverStore.getSerializableTmdbDiscoverState in *. cbn [map foldl fst snd].
  unfold DiscoverStore.hydrateStep at 2. cbn [fst snd].
  destruct k as [|c k']; [done|]. set (k := String c k') in *.
  cbn [DiscoverStore.raw_nextPage DiscoverStore.raw_allowedPages DiscoverStore.raw_totalPages
       DiscoverStore.raw_exhausted DiscoverStore.raw_updatedAt DiscoverStore.raw_lastAttempt].
  rewrite normalize_serialized by done.
  assert (Hfresh : mapGet k acc = None).
  { apply mapGet_None_notin. unfold uniqueKeys in Hu. rewrite map_app in Hu.
    apply NoDup_app in Hu as (_ & Hdisj & _). intros Hin%list_elem_of_In.
    apply (Hdisj _ Hin). by left. }
  rewrite (mapSet_fresh k st acc Hfresh).
  rewrite IH; [by rewrite <- app_assoc | by rewrite <- app_assoc | done].
Qed.

(** X21: persisting the history and restoring it gives the same
    history.  For a history whose signatures are distinct and non-empty,
    whose states are normalized and which holds at most 50 entries:
    hydrating the serialized entries in the order they were written
    restores the history exactly; hydrating them in any other order (the
    order in which the storage enumerates them) restores the same state
    for every signature. *)
Theorem hydrate_serialize_round_trip (now : Z) (h : Discover.History)
    (container : DiscoverStore.Container) :
  uniqueKeys h ->
  Forall (fun kv => kv.1 <> ""%string /\ normalizedState kv.2) h ->
  (length h <= Discover.TMDB_DISCOVER_HISTORY_LIMIT)%nat ->
  let serialized :=
    map (fun kv => (kv.1, Some kv.2)) (DiscoverStore.getSerializableTmdbDiscoverState h) in
  DiscoverStore.hydrateTmdbDiscoverState now serialized = h
  /\ (Permutation container serialized ->
      forall key,
        Discover.readTmdbDiscoverState key (DiscoverStore.hydrateTmdbDiscoverState now container)
        = Discover.readTmdbDiscoverState key h).
Proof.
  intros Hu Hall Hlen serialized.
  assert (Hrestore : forall h2,
             uniqueKeys h2 ->
             Forall (fun kv => kv.1 <> ""%string /\ normalizedState kv.2) h2 ->
             (length h2 <= Discover.TMDB_DISCOVER_HISTORY_LIMIT)%nat ->
             DiscoverStore.hydrateTmdbDiscoverState now
               (map (fun kv => (kv.1, Some kv.2))
                  (DiscoverStore.getSerializableTmdbDiscoverState h2)) = h2).
  { intros h2 Hu2 Hall2 Hlen2. unfold DiscoverStore.hydrateTmdbDiscoverState. cbv zeta.
    rewrite (hydrate_serialized now h2 []) by done. cbn [app].
    rewrite evictOldest_full. replace (length h2 - _) with 0 by lia. apply drop_0. }
  split; [by apply Hrestore|].
  intros Hperm key. unfold serialized, DiscoverStore.getSerializableTmdbDiscoverState in Hperm.
  rewrite map_map in Hperm.
  apply Permutation_map_inv in Hperm as (h2 & -> & Hp).
  assert (Hu2 : uniqueKeys h2) by (by eapply uniqueKeys_perm).
  assert (Hall2 : Forall (fun kv => kv.1 <> ""%string /\ normalizedState kv.2) h2).
  { apply List.Forall_forall. intros kv Hkv.
    eapply List.Forall_forall in Hall; [exact Hall|].
    by apply (Permutation_in _ (Permutation_sym Hp)). }
  assert (Hlen2 : (length h2 <= Discover.TMDB_DISCOVER_HISTORY_LIMIT)%nat)
    by (by rewrite <- (Permutation_length Hp)).
  match goal with
  | |- context [DiscoverStore.hydrateTmdbDiscoverState now ?c] =>
      replace c
        with (map (fun kv : string * DiscoverStore.RawEntry => (kv.1, Some kv.2))
                (DiscoverStore.getSerializableTmdbDiscoverState h2))
        by (unfold DiscoverStore.getSerializableTmdbDiscoverState; by rewrite map_map)
  end.
  rewrite (Hrestore h2 Hu2 Hall2 Hlen2).
  unfold Discover.readTmdbDiscoverState. destruct key; [done|].
  symmetry. by apply mapGet_perm.
Qed.

Lemma hydrate_serialize_round_trip_witness :
  let h := [ ("proxy|||||__all__"%string, sampleState);
             ("direct|7||||__all__"%string, sampleState) ] in
  DiscoverStore.hydrateTmdbDiscoverState 1700000000002
    (map (fun kv => (kv.1, Some kv.2)) (DiscoverStore.getSerializableTmdbDiscoverState h))
  = h
  /\ Discover.readTmdbDiscoverState "proxy|||||__all__"
       (DiscoverStore.hydrateTmdbDiscoverState 1700000000002
          (rev (map (fun kv => (kv.1, Some kv.2))
                  (DiscoverStore.getSerializableTmdbDiscoverState h))))
     = Some sampleState.
Proof.
  intros h.
  assert (Hu : uniqueKeys h) by (apply (bool_decide_unpack _); vm_compute; reflexivity).
  assert (Hst : normalizedState sampleState).
  { unfold normalizedState, Discover.MAX_DISCOVER_PAGES. cbn.
    repeat split; try lia; intros ? [= <-]; lia. }
  assert (Hall : Forall (fun kv => kv.1 <> ""%string /\ normalizedState kv.2) h)
    by (unfold h; repeat (apply Forall_cons; split; [split; [discriminate | exact Hst]|]);
        apply Forall_nil_2).
  assert (Hlen : (length h <= Discover.TMDB_DISCOVER_HISTORY_LIMIT)%nat)
    by (unfold Discover.TMDB_DISCOVER_HISTORY_LIMIT; cbn; lia).
  destruct (hydrate_serialize_round_trip 1700000000002 h
              (rev (map (fun kv => (kv.1, Some kv.2))
                      (DiscoverStore.getSerializableTmdbDiscoverState h))) Hu Hall Hlen)
    as [Hexact Hany].
  split; [exact Hexact|].
  exact (Hany (Permutation_sym (Permutation_rev _)) "proxy|||||__all__"%string).
Defined.

(** ** Critic-score state *)

Section CriticData.

Context {Scores : Type} (normalizeCriticScoresObject : Scores -> Scores).

Abbreviation getState' := (Critic.getCriticScoreState Scores normalizeCriticScoresObject).
Abbreviation setState' := (Critic.setCriticScoreState Scores normalizeCriticScoresObject).

Lemma keepsData_refl (store : Critic.Store Scores) : keepsData store store.
Proof. intros k s Hk Hd. eauto. Qed.

Lemma keepsData_trans (s1 s2 s3 : Critic.Store Scores) :
  keepsData s1 s2 -> keepsData s2 s3 -> keepsData s1 s3.
Proof. intros H12 H23 k s Hk Hd. destruct (H12 k s Hk Hd) as (s' & Hk' & Hd'). eauto. Qed.

Lemma setCriticScoreState_keeps movie state store :
  (is_Some (Critic.criticScores Scores movie) ->
   is_Some (Critic.criticScores Scores (setState' movie state store).1))
  /\ keepsData store (setState' movie state store).2.
Proof.
  unfold Critic.setCriticScoreState. cbv zeta. cbn [fst snd]. split.
  - intros Hs. by repeat case_match.
  - intros k s Hk Hd. unfold Critic.Store in *.
    destruct (Critic.getMovieCacheKey (Critic.info Scores movie)) as [key|]; [|eauto].
    destruct (decide (k = key)) as [->|Hne];
      [|exists s; split; [rewrite lookup_insert_ne; [exact Hk | by intros ->] | exact Hd]].
    eexists. split; [apply lookup_insert_eq|].
    cbn [Critic.data mbind option_bind]. rewrite Hk. cbn [mbind option_bind].
    destruct Hd as [d ->]. unfold Critic.orData.
    by repeat case_match.
Qed.

Lemma getCriticScoreState_keeps movie store :
  (is_Some (Critic.criticScores Scores movie) ->
   is_Some (Critic.criticScores Scores (getState' movie store).1.2))
  /\ keepsData store (getState' movie store).2.
Proof.
  unfold Critic.getCriticScoreState.
  destruct (Critic.criticScoresState Scores movie); [split; [done | apply keepsData_refl]|].
  destruct (Critic.getMovieCacheKey (Critic.info Scores movie)) as [key|] eqn:Hkey;
    cbn [mbind option_bind].
  - destruct (store !! key) as [state|] eqn:Hstore.
    + split; [|apply keepsData_refl]. cbn. intros Hs. by repeat case_match.
    + destruct (Critic.criticScores Scores movie) as [scores|]; cbn;
        [|split; [done | apply keepsData_refl]].
      split; [done|]. intros k s Hk Hd. unfold Critic.Store in *.
      destruct (decide (k = key)) as [->|Hne]; [congruence|].
      exists s. split; [rewrite lookup_insert_ne; [exact Hk | by intros ->] | exact Hd].
  - destruct (Critic.criticScores Scores movie) as [scores|]; cbn;
      (split; [done | apply keepsData_refl]).
Qed.

(** X22: the enrichment state is shared through the store: once a state
    is written for an item, a fresh copy of the item (the same identity,
    no state of its own) is observed in that state and, when the state
    has scores, receives them. *)
Theorem setCriticScoreState_reaches_fresh_copy
    (movie : Critic.Item Scores) (state : Critic.CriticState Scores)
    (store : Critic.Store Scores) :
  is_Some (Critic.getMovieCacheKey (Critic.info Scores movie)) ->
  let written := setState' movie state store in
  let observed := getState' (freshCopy movie) written.2 in
  Some observed.1.1 = Critic.criticScoresState Scores written.1
  /\ Critic.status Scores observed.1.1 = Critic.status Scores state
  /\ Critic.criticScores Scores observed.1.2 = Critic.data Scores observed.1.1
  /\ observed.2 = written.2.
Proof.
  intros [key Hkey].
  unfold Critic.getCriticScoreState, Critic.setCriticScoreState, freshCopy, Critic.Store.
  cbv zeta.
  cbn [fst snd Critic.info Critic.criticScores Critic.criticScoresState fmap option_fmap
       option_map].
  rewrite Hkey. cbn [mbind option_bind]. rewrite lookup_insert_eq.
  cbn [fst snd Critic.criticScoresState Critic.status Critic.data Critic.criticScores].
  repeat split. by repeat case_match.
Qed.

(** X23: a request never discards scores.  Whether it is forced or not,
    and however the fetch ends, an item that showed scores before the
    request shows scores after it, and every key for which the store held
    data still has data. *)
Theorem requestCriticScores_keeps_scores
    (movie : Critic.Item Scores) (force : bool) (result : Critic.FetchResult Scores)
    (store : Critic.Store Scores) :
  let after := requestOutcome normalizeCriticScoresObject movie force result store in
  (is_Some (Critic.criticScores Scores movie) ->
   is_Some (Critic.criticScores Scores after.1))
  /\ (forall k s, store !! k = Some s -> is_Some (Critic.data Scores s) ->
        exists s', after.2 !! k = Some s' /\ is_Some (Critic.data Scores s')).
Proof.
  cbv zeta. unfold requestOutcome, Critic.requestStart.
  pose proof (getCriticScoreState_keeps movie store) as [Hg1 Hg2].
  destruct (getState' movie store) as [[state movie1] store1]. cbn [fst snd] in Hg1, Hg2.
  assert (Hset : forall st,
             (is_Some (Critic.criticScores Scores movie) ->
              is_Some (Critic.criticScores Scores (setState' movie1 st store1).1))
             /\ keepsData store (setState' movie1 st store1).2).
  { intros st. destruct (setCriticScoreState_keeps movie1 st store1) as [Hs1 Hs2].
    split; [auto | by eapply keepsData_trans]. }
  destruct (negb force && _); [by split|].
  destruct (Critic.buildCriticLookup (Critic.info Scores movie1)) as [lookup|].
  - specialize (Hset {| Critic.status := Critic.loading; Critic.data := Critic.data Scores state;
                        Critic.error_message := Critic.error_message Scores state |}).
    destruct (setState' movie1 _ store1) as [movie2 store2]. cbn [fst snd] in Hset.
    destruct Hset as [Hs1 Hs2].
    unfold Critic.requestFinish.
    destruct result as [normalized| |message];
      match goal with
      | |- context [setState' movie2 ?st store2] =>
          destruct (setCriticScoreState_keeps movie2 st store2) as [Hf1 Hf2];
          destruct (setState' movie2 st store2) as [movie3 store3]
      end; cbn [fst snd] in *;
      (split; [auto | by eapply keepsData_trans]).
  - specialize (Hset {| Critic.status := Critic.error; Critic.data := None;
                        Critic.error_message :=
                          Some "Not enough information to fetch critic scores."%string |}).
    destruct (setState' movie1 _ store1) as [movie2 store2]. exact Hset.
Qed.

End CriticData.

Lemma setCriticScoreState_reaches_fresh_copy_witness :
  let written :=
    Critic.setCriticScoreState CriticScores (fun scores => scores) failedItem
      {| Critic.status := Critic.loaded; Critic.data := Some heatScores;
         Critic.error_message := None |} ∅ in
  let observed :=
    Critic.getCriticScoreState CriticScores (fun scores => scores) (freshCopy failedItem)
      written.2 in
  Critic.status CriticScores observed.1.1 = Critic.loaded
  /\ Critic.criticScores CriticScores observed.1.2 = Some heatScores.
Proof.
  intros written observed.
  destruct (setCriticScoreState_reaches_fresh_copy (fun scores : CriticScores => scores) failedItem
              {| Critic.status := Critic.loaded; Critic.data := Some heatScores;
                 Critic.error_message := None |} ∅ (ltac:(by eexists)))
    as (_ & Hstatus & Hscores & _).
  split; [exact Hstatus|]. etransitivity; [exact Hscores | reflexivity].
Defined.

Lemma requestCriticScores_keeps_scores_witness :
  is_Some (Critic.criticScores CriticScores
             (requestOutcome (fun scores => scores) scoredItem true
                (Critic.Failed CriticScores "Request failed with status 500") ∅).1).
Proof.
  apply (proj1 (requestCriticScores_keeps_scores (fun scores : CriticScores => scores)
                  scoredItem true (Critic.Failed CriticScores "Request failed with status 500")
                  ∅)).
  by eexists.
Defined.

(** ** Identity of items for the critic scores *)

(** X24: an item with a TMDB id shares its cache key, and with it its
    enrichment state, only with items that have the same TMDB id: the
    keys built from an IMDb id or from a title never coincide with a key
    built from a TMDB id. *)
Theorem getMovieCacheKey_tmdb_id (a b : Critic.ItemInfo) (i : Z) :
  Critic.id a = Some i ->
  Critic.getMovieCacheKey a = Critic.getMovieCacheKey b ->
  Critic.id b = Some i.
Proof.
  intros Ha. unfold Critic.getMovieCacheKey. rewrite Ha.
  destruct (Critic.id b) as [j|].
  - intros H. apply (inj Some), (inj (String.app "tmdb:")), (inj pretty) in H. by subst.
  - cbv zeta. destruct (TmdbProxy.trim _) as [|c s]; [|discriminate].
    destruct (Critic.orElse _ _); discriminate.
Qed.

Lemma getMovieCacheKey_tmdb_id_witness :
  Critic.id (Critic.info CriticScores (freshCopy failedItem)) = Some 949%Z.
Proof.
  exact (getMovieCacheKey_tmdb_id heatInfo (Critic.info CriticScores (freshCopy failedItem)) 949
           eq_refl eq_refl).
Defined.

(** X25: every item for which a critic-score request can be made (it
    has an IMDb id or a title) has a cache key, so that the state of its
    request is kept in the store; and an item without a TMDB id has a
    cache key only if such a request can be made. *)
Theorem buildCriticLookup_has_key (movie : Critic.ItemInfo) :
  (is_Some (Critic.buildCriticLookup movie) -> is_Some (Critic.getMovieCacheKey movie))
  /\ (Critic.id movie = None ->
      is_Some (Critic.getMovieCacheKey movie) -> is_Some (Critic.buildCriticLookup movie)).
Proof.
  unfold Critic.buildCriticLookup, Critic.getMovieCacheKey. cbv zeta.
  destruct (Critic.id movie) as [i|]; [split; [by eexists | done]|].
  destruct (TmdbProxy.trim _) as [|c s]; [|split; by eexists].
  destruct (Critic.orElse _ _) as [|c s];
    [split; [by intros [? ?] | by intros _ [? ?]] | split; by eexists].
Qed.

Lemma buildCriticLookup_has_key_witness :
  is_Some (Critic.getMovieCacheKey heatInfo).
Proof.
  apply (proj1 (buildCriticLookup_has_key heatInfo)). by eexists.
Defined.

(** ** Parameters kept with a cached upstream response *)

(** X26: the parameters that are stored with a cached upstream response
    never include the API key, and nothing else is lost or added: they
    are the other entries of the request, reordered. *)
Theorem normalizeTmdbParams_drops_only_credential
    (localeCompare : string -> string -> comparison) (entries : list (string * string)) :
  let normalized := TmdbProxy.normalizeTmdbParams localeCompare (Some entries) in
  Forall (fun kv => kv.1 <> "api_key"%string) normalized
  /\ Permutation normalized
       (List.filter (fun kv => negb (String.eqb kv.1 "api_key")) entries)
  /\ TmdbProxy.normalizeTmdbParams localeCompare None = [].
Proof.
  cbv zeta. unfold TmdbProxy.normalizeTmdbParams.
  assert (Hperm : Permutation
            (Cache.stableSort (TmdbProxy.compareParams localeCompare)
               (List.filter (fun kv => negb (String.eqb kv.1 "api_key")) entries))
            (List.filter (fun kv => negb (String.eqb kv.1 "api_key")) entries))
    by (symmetry; apply stableSort_perm).
  split; [|by split].
  apply List.Forall_forall. intros kv Hkv.
  apply (Permutation_in _ Hperm), filter_In in Hkv as [_ Hkv].
  apply negb_true_iff in Hkv. by apply String.eqb_neq.
Qed.

(** ** What a discovery call returns *)

Lemma collectStep_inv (suppressed sup : gset string) existing acc x :
  collectedInv suppressed existing acc ->
  In x existing \/ sup = suppressed ->
  collectedInv suppressed existing (Discover.collectStep sup acc x).
Proof.
  destruct acc as [seen collected]. intros (Hnd & Hseen & Hsup) Hx.
  unfold Discover.collectStep. cbn [fst snd] in *.
  destruct (mergeKey x) as [k|] eqn:Hk; [|done].
  destruct (bool_decide_reflect (k ∈ seen)) as [|Hnew]; [done|].
  assert (Hgrow : forall e, In e collected ->
                    exists k', mergeKey e = Some k' /\ k' ∈ ({[k]} ∪ seen : gset string)).
  { intros e He. destruct (Hseen e He) as (k' & Hk' & Hin). exists k'. split; [done|].
    by apply elem_of_union_r. }
  destruct (bool_decide_reflect (k ∈ sup)) as [Hin|Hout]; cbn [fst snd].
  { split; [done|]. split; [exact Hgrow | exact Hsup]. }
  unfold collectedInv. cbn [fst snd]. split; [|split].
  - rewrite fmap_app. cbn. rewrite Hk. apply NoDup_app. split; [done|].
    split; [|apply NoDup_singleton].
    intros key Hkey ->%list_elem_of_singleton.
    apply list_elem_of_fmap in Hkey as (e & He & Hin).
    apply list_elem_of_In in Hin. destruct (Hseen e Hin) as (k' & Hk' & Hin').
    apply Hnew. congruence.
  - intros e [He|[<-|[]]]%in_app_iff; [by apply Hgrow|].
    exists k. split; [done|]. apply elem_of_union_l. by apply elem_of_singleton.
  - intros e k' [He|[<-|[]]]%in_app_iff Hk' Hin; [by eapply Hsup|].
    destruct Hx as [Hx| ->]; [done|]. exfalso. apply Hout. congruence.
Qed.

Lemma foldl_collectStep_inv (suppressed sup : gset string) existing movies acc :
  collectedInv suppressed existing acc ->
  (forall x, In x movies -> In x existing) \/ sup = suppressed ->
  collectedInv suppressed existing (foldl (Discover.collectStep sup) acc movies).
Proof.
  revert acc. induction movies as [|x movies IH]; intros acc Hinv Hx; cbn [foldl]; [done|].
  apply IH.
  - apply collectStep_inv; [done|]. destruct Hx as [Hx|Hx]; [left; apply Hx; by left | by right].
  - destruct Hx as [Hx|Hx]; [left; intros y Hy; apply Hx; by right | by right].
Qed.

Lemma mergeKey_withPriority m p : mergeKey (Some (withPriority m p)) = mergeKey (Some m).
Proof. reflexivity. Qed.

(** The ranking of a collection that satisfies the invariant: every
    movie has an id, no id occurs twice, and a suppressed id is the id
    of an existing movie. *)
Lemma rank_collected (suppressed : gset string) existing acc now :
  collectedInv suppressed existing acc ->
  let movies := Discover.rank now acc.2 in
  Forall (fun m => is_Some (id m)) movies
  /\ NoDup (map id movies)
  /\ (forall m i, In m movies -> id m = Some i -> pretty i ∈ suppressed ->
        exists m0, In (Some m0) existing /\ id m0 = Some i).
Proof.
  destruct acc as [seen collected]. intros (Hnd & Hseen & Hsup). cbn [fst snd] in *.
  cbv zeta. unfold Discover.rank.
  destruct (applyPriorityOrdering_scored now collected) as (cands & scored & Hc & HF & ->).
  change (default [] (Some (sortByPriority scored))) with (sortByPriority scored).
  pose proof (selectPriorityCandidates_sublist collected) as Hsub. rewrite Hc in Hsub.
  assert (Hkeys : (fun m => mergeKey (Some m)) <$> scored
                  = mergeKey <$> (Some <$> cands)).
  { rewrite <- list_fmap_compose. clear -HF.
    induction HF as [|m m' cands' scored' (p & _ & ->) _ IH]; [done|].
    rewrite !fmap_cons. cbn [compose]. rewrite mergeKey_withPriority. by f_equal. }
  assert (Hin : forall m', In m' (sortByPriority scored) ->
                  exists m0, In (Some m0) collected /\ mergeKey (Some m') = mergeKey (Some m0)).
  { intros m' Hm'.
    apply (Permutation_in _ (Permutation_sym (sortByPriority_perm scored))) in Hm'.
    apply list_elem_of_In, list_elem_of_lookup in Hm' as [n Hn].
    destruct (Forall2_lookup_r _ _ _ _ _ HF Hn) as (m0 & Hm0 & p & _ & ->).
    exists m0. split; [|done].
    apply list_elem_of_In. eapply elem_of_sublist; [|exact Hsub].
    apply list_elem_of_fmap. exists m0. split; [done|]. by eapply list_elem_of_lookup_2. }
  split; [|split].
  - apply List.Forall_forall. intros m' Hm'.
    destruct (Hin m' Hm') as (m0 & Hm0 & Hk).
    destruct (Hseen _ Hm0) as (k & Hk0 & _). rewrite <- Hk in Hk0.
    unfold mergeKey in Hk0. cbn in Hk0. destruct (id m'); [by eexists | done].
  - set (f := fun i : option Z => pretty <$> i).
    apply (NoDup_fmap_1 f).
    assert (Hmap : f <$> map id (sortByPriority scored)
                   = (fun m => mergeKey (Some m)) <$> sortByPriority scored).
    { change (map id (sortByPriority scored)) with (id <$> sortByPriority scored).
      rewrite <- list_fmap_compose. apply list_fmap_ext. intros _ m _. cbn.
      unfold f, mergeKey. cbn. by destruct (id m). }
    rewrite Hmap.
    assert (Hp : Permutation ((fun m => mergeKey (Some m)) <$> sortByPriority scored)
                   ((fun m => mergeKey (Some m)) <$> scored))
      by (apply fmap_Permutation; symmetry; apply sortByPriority_perm).
    rewrite Hp, Hkeys.
    eapply sublist_NoDup; [exact Hnd|]. by apply fmap_sublist.
  - intros m' i Hm' Hi Hs.
    destruct (Hin m' Hm') as (m0 & Hm0 & Hk).
    assert (Hk' : mergeKey (Some m0) = Some (pretty i))
      by (rewrite <- Hk; by apply mergeKey_Some_id).
    exists m0. split; [by eapply Hsup|]. by apply mergeKey_Some_id.
Qed.

Section DiscoverCollects.

Context (applyFeedFilters : list Movie -> list Movie) (now : Z) (minFeedSize : nat)
  (suppressedIds : gset string) (fetchDiscoverPage : Z -> Discover.PageResponse)
  (existing : list entry).

(** What the loop maintains. *)
Lemma discoverLoop_collected fuel st :
  collectedInv suppressedIds existing (Discover.l_seen st, Discover.l_collected st) ->
  Discover.l_prioritized st = Discover.rank now (Discover.l_collected st) ->
  match Discover.discoverLoop applyFeedFilters now minFeedSize suppressedIds fetchDiscoverPage
          fuel st with
  | Discover.Enough st' | Discover.Finished _ st' =>
      collectedInv suppressedIds existing (Discover.l_seen st', Discover.l_collected st')
      /\ Discover.l_prioritized st' = Discover.rank now (Discover.l_collected st')
  | _ => True
  end.
Proof.
  revert st. induction fuel as [|fuel IH]; intros st Hinv Hrank; cbn [Discover.discoverLoop].
  - by destruct (negb _).
  - destruct (negb _); [done|].
    destruct (fetchDiscoverPage (Discover.l_page st)) as [pageResults reportedTotal|]; [|done].
    cbv zeta.
    pose proof (foldl_collectStep_inv suppressedIds suppressedIds existing pageResults _ Hinv
                  (or_intror eq_refl)) as Hmerged.
    destruct (foldl (Discover.collectStep suppressedIds) _ pageResults) as [seen' collected'].
    cbn [fst snd] in *.
    destruct (minFeedSize <=? _)%nat; [done|].
    destruct (isEmpty pageResults && _); [done|].
    by apply IH.
Qed.

End DiscoverCollects.

(** X27: the movies a discovery call resolves with all carry an id, no
    id occurs twice among them, and none of them has a suppressed id
    unless it is one of the movies the call was given: a suppressed
    movie never comes back from an upstream page. *)
Theorem fetchMoviesFromTmdb_result_ids (key : string) (c : Call) (h : Discover.History) :
  match runCall key c h with
  | Discover.Resolved movies _ _ =>
      Forall (fun m => is_Some (id m)) movies
      /\ NoDup (map id movies)
      /\ (forall m i, In m movies -> id m = Some i -> pretty i ∈ c_suppressedIds c ->
            exists m0, In (Some m0) (c_existingMovies c) /\ id m0 = Some i)
  | _ => True
  end.
Proof.
  unfold runCall, Discover.fetchMoviesFromTmdb.
  assert (Hstart : collectedInv (c_suppressedIds c) (c_existingMovies c)
                     (foldl (Discover.collectStep ∅) (∅, []) (c_existingMovies c))).
  { apply foldl_collectStep_inv; [|by left].
    split; [constructor|]. split; [intros e []|intros e k []]. }
  pose proof (rank_collected _ _ _ (c_now c) Hstart) as Hranked. cbv zeta in Hranked.
  destruct (foldl (Discover.collectStep ∅) (∅, []) (c_existingMovies c))
    as [seen0 collected0] eqn:Hfold.
  cbn [fst snd] in *.
  destruct (c_minFeedSize c <=? _)%nat; [exact Hranked|].
  assert (Hfinal : forall collected,
            (if isEmpty (Discover.rank (c_now c) collected)
             then Discover.rank (c_now c) collected
             else Discover.rank (c_now c) collected) = Discover.rank (c_now c) collected)
    by (intros collected; by destruct (isEmpty _)).
  match goal with
  | |- context [if ?skip then Discover.Resolved _ h [] else _] => destruct skip
  end; [by rewrite Hfinal|].
  match goal with
  | |- context [Discover.discoverLoop ?a ?b ?cc ?d ?e ?fuel ?st] =>
      pose proof (discoverLoop_collected a b cc d e (c_existingMovies c) fuel st Hstart eq_refl)
        as Hloop;
      destruct (Discover.discoverLoop a b cc d e fuel st) as [st'|reachedEnd st'|st'|]
  end; try done.
  - destruct Hloop as [Hinv ->]. exact (rank_collected _ _ _ (c_now c) Hinv).
  - destruct Hloop as [Hinv ->]. rewrite Hfinal.
    exact (rank_collected _ _ _ (c_now c) Hinv).
Qed.

(** ** The automatic critic-score queue *)

Set Warnings "-clear-no-such-hyp".

Lemma list_to_set_shift (key : string) (keys : list string) (Q : gset string) :
  NoDup (key :: keys) -> Q = list_to_set (key :: keys) -> Q ∖ {[key]} = list_to_set keys.
Proof.
  intros [Hnotin _]%NoDup_cons ->. apply set_eq. intros x.
  rewrite elem_of_difference, !elem_of_list_to_set, elem_of_cons, elem_of_singleton.
  split; [by intros [[->|?] ?]|]. intros Hx. split; [by right|]. by intros ->.
Qed.

Lemma list_to_set_delete (i : nat) (key : string) (keys : list string) (Q : gset string) :
  NoDup keys -> keys !! i = Some key -> Q = list_to_set keys ->
  NoDup (delete i keys) /\ Q ∖ {[key]} = list_to_set (delete i keys).
Proof.
  intros Hnd Hi ->.
  assert (Hsplit : keys = take i keys ++ key :: drop (S i) keys)
    by (by rewrite take_drop_middle).
  rewrite delete_take_drop. rewrite Hsplit in Hnd at 1.
  apply NoDup_app in Hnd as (Hnd1 & Hdisj & [Hnotin Hnd2]%NoDup_cons).
  split.
  - apply NoDup_app. split; [done|]. split; [|done].
    intros x Hx Hx'. apply (Hdisj x Hx). by right.
  - apply set_eq. intros x. rewrite Hsplit at 1.
    rewrite elem_of_difference, !elem_of_list_to_set, !elem_of_app, elem_of_cons,
      elem_of_singleton.
    split.
    + intros [[?|[->|?]] ?]; [by left | done | by right].
    + intros [Hx|Hx]; (split; [tauto|]); intros ->; [|done].
      apply (Hdisj key Hx). by left.
Qed.

Section QueueInvariant.

Context {Scores : Type} (normalizeCriticScoresObject : Scores -> Scores) (enabled : bool).

(** The invariant of a state, given field by field. *)
Lemma queueInv_intro (queue : list (Critic.Item Scores)) (queuedKeys inFlightKeys : gset string)
    (count : nat) (requests : list (AutoCritic.Request Scores)) (store : Critic.Store Scores) :
  count = length requests ->
  (count <= AutoCritic.AUTO_CRITIC_FETCH_CONCURRENCY)%nat ->
  NoDup (AutoCritic.r_key Scores <$> requests) ->
  inFlightKeys = list_to_set (AutoCritic.r_key Scores <$> requests) ->
  NoDup (omap (fun movie => Critic.getMovieCacheKey (Critic.info Scores movie)) queue) ->
  queuedKeys
  = list_to_set (omap (fun movie => Critic.getMovieCacheKey (Critic.info Scores movie)) queue) ->
  queuedKeys ## inFlightKeys ->
  Forall (fun movie => is_Some (Critic.getMovieCacheKey (Critic.info Scores movie))) queue ->
  queueInv
    {| AutoCritic.autoCriticFetchQueue := queue;
       AutoCritic.autoCriticQueuedKeys := queuedKeys;
       AutoCritic.autoCriticInFlightKeys := inFlightKeys;
       AutoCritic.autoCriticInFlightCount := count;
       AutoCritic.requests := requests;
       AutoCritic.criticScoreStateById := store |}.
Proof. intros. by repeat split. Qed.

Lemma pumpLoop_inv fuel s :
  queueInv s -> queueInv (AutoCritic.pumpLoop Scores normalizeCriticScoresObject fuel s).
Proof.
  revert s. induction fuel as [|fuel IH]; intros s Hinv; cbn [AutoCritic.pumpLoop]; [done|].
  destruct (Nat.ltb_spec (AutoCritic.autoCriticInFlightCount Scores s)
              AutoCritic.AUTO_CRITIC_FETCH_CONCURRENCY) as [Hlt|]; [|done].
  destruct s as [queue queuedKeys inFlightKeys count requests store].
  destruct Hinv as (Hcount & Hle & Hnd & Hkeys & Hqnd & Hqkeys & Hdisj & Hall).
  unfold queuedKeysOf, inFlightKeysOf in *.
  cbn [AutoCritic.autoCriticFetchQueue AutoCritic.autoCriticQueuedKeys
       AutoCritic.autoCriticInFlightKeys AutoCritic.autoCriticInFlightCount
       AutoCritic.requests AutoCritic.criticScoreStateById] in *.
  destruct queue as [|movie rest]; [by apply queueInv_intro|].
  apply Forall_cons in Hall as [_ Hall].
  cbn [omap list_omap] in Hqnd, Hqkeys.
  destruct (Critic.getMovieCacheKey (Critic.info Scores movie)) as [key|] eqn:Hkey.
  2:{ apply IH. by apply queueInv_intro. }
  cbv zeta.
  pose proof (list_to_set_shift key _ queuedKeys Hqnd Hqkeys) as Hshift.
  apply NoDup_cons in Hqnd as [Hfresh Hqnd].
  assert (Hdisj' : queuedKeys ∖ {[key]} ## inFlightKeys) by set_solver.
  destruct (bool_decide_reflect (key ∈ inFlightKeys)) as [Hin|Hout].
  { apply IH. by apply queueInv_intro. }
  destruct (Critic.getCriticScoreState Scores normalizeCriticScoresObject movie store)
    as [[state movie1] store1].
  destruct (negb _).
  { apply IH. by apply queueInv_intro. }
  destruct (match Critic.requestStart Scores normalizeCriticScoresObject movie1 false store1 with
            | Critic.Returned _ _ _ store2 => _
            | Critic.Pending _ _ movie2 store2 => _
            end) as [phase store2].
  apply IH. apply queueInv_intro; try done.
  - rewrite length_app. cbn. lia.
  - unfold AutoCritic.AUTO_CRITIC_FETCH_CONCURRENCY in *. lia.
  - rewrite fmap_app. cbn. apply NoDup_app. split; [done|]. split; [|apply NoDup_singleton].
    intros x Hx ->%list_elem_of_singleton. apply Hout. rewrite Hkeys.
    by apply elem_of_list_to_set.
  - rewrite fmap_app, list_to_set_app_L, Hkeys. cbn. set_solver.
  - set_solver.
Qed.

Lemma pumpAutoCriticFetchQueue_inv s :
  queueInv s ->
  queueInv (AutoCritic.pumpAutoCriticFetchQueue Scores normalizeCriticScoresObject enabled s).
Proof.
  intros Hinv. unfold AutoCritic.pumpAutoCriticFetchQueue.
  destruct enabled; [by apply pumpLoop_inv | done].
Qed.

Lemma getCriticScoreState_info movie store :
  Critic.info Scores
    (Critic.getCriticScoreState Scores normalizeCriticScoresObject movie store).1.2
  = Critic.info Scores movie.
Proof.
  pose proof (getCriticScoreState_stable normalizeCriticScoresObject movie store) as H.
  destruct (Critic.getCriticScoreState Scores normalizeCriticScoresObject movie store)
    as [[state movie1] store1]. apply H.
Qed.

Lemma enqueueStep_inv s entry :
  queueInv s ->
  queueInv (AutoCritic.enqueueStep Scores normalizeCriticScoresObject s entry).
Proof.
  intros Hinv. unfold AutoCritic.enqueueStep.
  destruct entry as [movie|]; [|done].
  destruct (negb _); [done|].
  destruct (Critic.getMovieCacheKey (Critic.info Scores movie)) as [key|] eqn:Hkey; [|done].
  destruct s as [queue queuedKeys inFlightKeys count requests store].
  destruct Hinv as (Hcount & Hle & Hnd & Hkeys & Hqnd & Hqkeys & Hdisj & Hall).
  unfold queuedKeysOf, inFlightKeysOf in *.
  cbn [AutoCritic.autoCriticFetchQueue AutoCritic.autoCriticQueuedKeys
       AutoCritic.autoCriticInFlightKeys AutoCritic.autoCriticInFlightCount
       AutoCritic.requests AutoCritic.criticScoreStateById] in *.
  destruct (bool_decide_reflect (key ∈ queuedKeys)) as [|Hq]; [by apply queueInv_intro|].
  destruct (bool_decide_reflect (key ∈ inFlightKeys)) as [|Hf]; [by apply queueInv_intro|].
  cbn [orb].
  pose proof (getCriticScoreState_info movie store) as Hinfo.
  destruct (Critic.getCriticScoreState Scores normalizeCriticScoresObject movie store)
    as [[state movie1] store1]. cbn [fst snd] in Hinfo.
  destruct (negb _); [by apply queueInv_intro|].
  assert (Hks : omap (fun movie => Critic.getMovieCacheKey (Critic.info Scores movie))
                  (queue ++ [movie1])
                = omap (fun movie => Critic.getMovieCacheKey (Critic.info Scores movie)) queue
                  ++ [key]).
  { rewrite omap_app. cbn. by rewrite Hinfo, Hkey. }
  apply queueInv_intro; try done.
  - rewrite Hks. apply NoDup_app. split; [done|]. split; [|apply NoDup_singleton].
    intros x Hx ->%list_elem_of_singleton. apply Hq. rewrite Hqkeys.
    by apply elem_of_list_to_set.
  - rewrite Hks, list_to_set_app_L, Hqkeys. cbn. set_solver.
  - set_solver.
  - apply Forall_app. split; [done|]. apply Forall_singleton. rewrite Hinfo, Hkey. by eexists.
Qed.

Lemma queueStep_inv s e :
  queueInv s -> queueInv (queueStep normalizeCriticScoresObject enabled s e).
Proof.
  intros Hinv. destruct e as [movies|i result|i|store]; cbn [queueStep].
  - unfold AutoCritic.enqueueAutoCriticScores. destruct (negb enabled); [done|].
    destruct movies as [|m movies]; [done|]. apply pumpAutoCriticFetchQueue_inv.
    generalize (take AutoCritic.AUTO_CRITIC_FETCH_BATCH_LIMIT (m :: movies)).
    intros l. revert s Hinv. induction l as [|x l IH]; intros s Hinv; cbn [foldl]; [done|].
    by apply IH, enqueueStep_inv.
  - unfold AutoCritic.settleRequest.
    destruct (AutoCritic.requests Scores s !! i) as [[key [movie|]]|] eqn:Hi; [|done..].
    destruct (Critic.requestFinish Scores normalizeCriticScoresObject movie result _)
      as [[value movie'] store'].
    destruct s as [queue queuedKeys inFlightKeys count requests store].
    destruct Hinv as (Hcount & Hle & Hnd & Hkeys & Hqnd & Hqkeys & Hdisj & Hall).
    unfold queuedKeysOf, inFlightKeysOf in *.
    cbn [AutoCritic.autoCriticFetchQueue AutoCritic.autoCriticQueuedKeys
         AutoCritic.autoCriticInFlightKeys AutoCritic.autoCriticInFlightCount
         AutoCritic.requests AutoCritic.criticScoreStateById] in *.
    assert (Hsame : AutoCritic.r_key Scores
                      <$> <[i := {| AutoCritic.r_key := key;
                                    AutoCritic.r_phase := AutoCritic.Settled Scores |}]> requests
                    = AutoCritic.r_key Scores <$> requests).
    { rewrite list_fmap_insert. cbn. apply list_insert_id.
      by rewrite list_lookup_fmap, Hi. }
    apply queueInv_intro; rewrite ?Hsame; try done. by rewrite length_insert.
  - unfold AutoCritic.finallyCallback.
    destruct (AutoCritic.requests Scores s !! i) as [[key [movie|]]|] eqn:Hi; [done| |done].
    apply pumpAutoCriticFetchQueue_inv.
    destruct s as [queue queuedKeys inFlightKeys count requests store].
    destruct Hinv as (Hcount & Hle & Hnd & Hkeys & Hqnd & Hqkeys & Hdisj & Hall).
    unfold queuedKeysOf, inFlightKeysOf in *.
    cbn [AutoCritic.autoCriticFetchQueue AutoCritic.autoCriticQueuedKeys
         AutoCritic.autoCriticInFlightKeys AutoCritic.autoCriticInFlightCount
         AutoCritic.requests AutoCritic.criticScoreStateById] in *.
    assert (Hkey : (AutoCritic.r_key Scores <$> requests) !! i = Some key)
      by (by rewrite list_lookup_fmap, Hi).
    destruct (list_to_set_delete i key _ inFlightKeys Hnd Hkey Hkeys) as [Hnd' Hkeys'].
    assert (Hdel : AutoCritic.r_key Scores <$> delete i requests
                   = delete i (AutoCritic.r_key Scores <$> requests)).
    { clear. revert i. induction requests as [|r requests IH]; intros [|i]; cbn; try done.
      by rewrite <- IH. }
    pose proof (lookup_lt_Some _ _ _ Hi) as Hlt.
    apply queueInv_intro; rewrite ?Hdel; try done.
    + rewrite length_delete by eauto. lia.
    + lia.
    + set_solver.
  - destruct s as [queue queuedKeys inFlightKeys count requests store0].
    destruct Hinv as (Hcount & Hle & Hnd & Hkeys & Hqnd & Hqkeys & Hdisj & Hall).
    by apply queueInv_intro.
Qed.

Lemma queueAfter_inv events :
  queueInv (queueAfter normalizeCriticScoresObject enabled events).
Proof.
  unfold queueAfter.
  assert (H : forall s, queueInv s ->
                queueInv (foldl (queueStep normalizeCriticScoresObject enabled) s events)).
  { induction events as [|e events IH]; intros s Hinv; cbn [foldl]; [done|].
    by apply IH, queueStep_inv. }
  apply H. unfold initialQueue. apply queueInv_intro; try done.
  - unfold AutoCritic.AUTO_CRITIC_FETCH_CONCURRENCY. lia.
  - constructor.
  - constructor.
Qed.

(** X28: however the feed asks for scores, however the fetches end and
    whatever other code writes to the store, the pump never has more
    than 4 requests under way, its counter is the number of requests
    under way, and no two of them are for the same cache key. *)
Theorem autoCritic_concurrency (events : list (QueueEvent Scores)) :
  let s := queueAfter normalizeCriticScoresObject enabled events in
  (AutoCritic.autoCriticInFlightCount Scores s <= 4)%nat
  /\ AutoCritic.autoCriticInFlightCount Scores s = length (AutoCritic.requests Scores s)
  /\ NoDup (inFlightKeysOf s)
  /\ AutoCritic.autoCriticInFlightKeys Scores s = list_to_set (inFlightKeysOf s).
Proof.
  destruct (queueAfter_inv events) as (Hcount & Hle & Hnd & Hkeys & _). by repeat split.
Qed.

(** X29: every queued movie has a cache key, no cache key is queued
    twice, and no queued key has a request under way: a title that is
    asked for again while it waits or while it is being fetched is not
    queued again. *)
Theorem autoCritic_queue_distinct (events : list (QueueEvent Scores)) :
  let s := queueAfter normalizeCriticScoresObject enabled events in
  Forall (fun movie => is_Some (Critic.getMovieCacheKey (Critic.info Scores movie)))
    (AutoCritic.autoCriticFetchQueue Scores s)
  /\ NoDup (queuedKeysOf s)
  /\ AutoCritic.autoCriticQueuedKeys Scores s = list_to_set (queuedKeysOf s)
  /\ (forall key, key ∈ queuedKeysOf s -> key ∉ inFlightKeysOf s).
Proof.
  destruct (queueAfter_inv events)
    as (_ & _ & _ & Hkeys & Hqnd & Hqkeys & Hdisj & Hall).
  cbv zeta. repeat split; try done.
  intros key Hq Hf. apply (Hdisj key).
  - rewrite Hqkeys. by apply elem_of_list_to_set.
  - rewrite Hkeys. by apply elem_of_list_to_set.
Qed.

(** The loop runs until the queue is empty or the pump is at its
    limit: the iterations it is given are enough. *)
Lemma pumpLoop_drains fuel s :
  (length (AutoCritic.autoCriticFetchQueue Scores s) <= fuel)%nat ->
  let s' := AutoCritic.pumpLoop Scores normalizeCriticScoresObject fuel s in
  (AutoCritic.AUTO_CRITIC_FETCH_CONCURRENCY <= AutoCritic.autoCriticInFlightCount Scores s')%nat
  \/ AutoCritic.autoCriticFetchQueue Scores s' = [].
Proof.
  revert s. induction fuel as [|fuel IH]; intros s Hfuel; cbn [AutoCritic.pumpLoop].
  - right. destruct (AutoCritic.autoCriticFetchQueue Scores s); [done | cbn in Hfuel; lia].
  - destruct (Nat.ltb_spec (AutoCritic.autoCriticInFlightCount Scores s)
                AutoCritic.AUTO_CRITIC_FETCH_CONCURRENCY) as [Hlt|Hge]; [|by left].
    destruct (AutoCritic.autoCriticFetchQueue Scores s) as [|movie rest] eqn:Hq;
      [by right|].
    cbn [length] in Hfuel.
    repeat case_match; apply IH; cbn [AutoCritic.autoCriticFetchQueue]; lia.
Qed.

(** X30: the pump leaves no slot unused while movies wait: when it
    returns (automatic fetching being enabled), 4 requests are under way
    or the queue is empty. *)
Theorem pumpAutoCriticFetchQueue_drains (s : AutoCritic.State Scores) :
  enabled = true ->
  let s' := AutoCritic.pumpAutoCriticFetchQueue Scores normalizeCriticScoresObject enabled s in
  (4 <= AutoCritic.autoCriticInFlightCount Scores s')%nat
  \/ AutoCritic.autoCriticFetchQueue Scores s' = [].
Proof.
  intros ->. unfold AutoCritic.pumpAutoCriticFetchQueue. by apply pumpLoop_drains.
Qed.

End QueueInvariant.

Lemma pumpAutoCriticFetchQueue_drains_witness :
  let s :=
    AutoCritic.enqueueAutoCriticScores CriticScores (fun scores => scores) true
      [Some (freshCopy failedItem); None; Some (freshCopy failedItem)] initialQueue in
  (4 <= AutoCritic.autoCriticInFlightCount CriticScores s)%nat
  \/ AutoCritic.autoCriticFetchQueue CriticScores s = [].
Proof.
  exact (pumpAutoCriticFetchQueue_drains (fun scores : CriticScores => scores) true _ eq_refl).
Defined.

Lemma buildCacheId_collides_iff_witness :
  Cache.buildCacheId String.compare (Cache.PArr [Cache.PStr "a||b"])
  = Cache.buildCacheId String.compare (Cache.PArr [Cache.PStr "a"; Cache.PStr "b"]).
Proof.
  apply (proj2 (buildCacheId_collides_iff String.compare
                  (Cache.PArr [Cache.PStr "a||b"]) (Cache.PArr [Cache.PStr "a"; Cache.PStr "b"]))).
  reflexivity.
Defined.

(** * Cache keys: order and credential *)

Section StableSortOn.

Context {A : Type} (cmp : A -> A -> comparison) (dom : A -> Prop).
Hypothesis cmp_total : forall a b, cmp a b = Gt -> cmp b a <> Gt.
Hypothesis cmp_trans : forall a b c, dom a -> dom b -> dom c ->
  cmp a b <> Gt -> cmp b c <> Gt -> cmp a c <> Gt.

Lemma insertSorted_sorted_on x l :
  dom x -> Forall dom l ->
  StronglySorted (notAfter cmp) l -> StronglySorted (notAfter cmp) (Cache.insertSorted cmp x l).
Proof using cmp_total cmp_trans.
  intros Hx Hdom Hs. induction Hs as [|y l Hl IH Hy]; cbn.
  - repeat constructor.
  - apply Forall_cons in Hdom as [Hdy Hdom].
    assert (Hbefore : notAfter cmp x y -> Forall (notAfter cmp x) (y :: l)).
    { intros Hxy. constructor; [exact Hxy|].
      apply List.Forall_forall. intros z Hz.
      apply (cmp_trans x y z); [exact Hx | exact Hdy | | exact Hxy |].
      - eapply List.Forall_forall in Hdom; eauto.
      - eapply List.Forall_forall in Hy; eauto. }
    destruct (cmp x y) eqn:E.
    + constructor; [by constructor|]. apply Hbefore. unfold notAfter. congruence.
    + constructor; [by constructor|]. apply Hbefore. unfold notAfter. congruence.
    + constructor; [by apply IH|].
      rewrite <- (insertSorted_perm cmp).
      constructor; [by apply cmp_total | exact Hy].
Qed.

Lemma stableSort_sorted_on l :
  Forall dom l -> StronglySorted (notAfter cmp) (Cache.stableSort cmp l).
Proof using cmp_total cmp_trans.
  induction l as [|x l IH]; cbn; [constructor|].
  intros [Hx Hl]%Forall_cons. apply insertSorted_sorted_on; [done| |by apply IH].
  change (Forall dom (Cache.stableSort cmp l)). by rewrite <- (stableSort_perm cmp).
Qed.

(** Sorting two arrangements of the same elements gives the same list
    when the comparison tells the elements apart. *)
Lemma stableSort_perm_eq_on l1 l2 :
  Forall dom l1 ->
  (forall a b, In a l1 -> In b l1 -> cmp a b <> Gt -> cmp b a <> Gt -> a = b) ->
  Permutation l1 l2 -> Cache.stableSort cmp l1 = Cache.stableSort cmp l2.
Proof using cmp_total cmp_trans.
  intros Hdom Hanti Hp. apply (sorted_perm_unique cmp).
  - intros a b Ha Hb.
    apply Hanti; (eapply Permutation_in; [symmetry; apply (stableSort_perm cmp) | assumption]).
  - by apply stableSort_sorted_on.
  - apply stableSort_sorted_on. by rewrite <- Hp.
  - rewrite <- !(stableSort_perm cmp). exact Hp.
Qed.

End StableSortOn.

Section KeyDeterminism.

Context (localeCompare : string -> string -> comparison) `{!Collation localeCompare}.

Lemma collation_total a b : localeCompare a b = Gt -> localeCompare b a <> Gt.
Proof using Type*. intros H. rewrite collation_antisym, H. done. Qed.

Lemma collation_both a b :
  localeCompare a b <> Gt -> localeCompare b a <> Gt -> localeCompare a b = Eq.
Proof using Type*.
  intros H1 H2. rewrite collation_antisym in H2.
  destruct (localeCompare a b); done.
Qed.

Lemma compareKeys_total {V : Type} (a b : string * V) :
  Cache.compareKeys localeCompare a b = Gt -> Cache.compareKeys localeCompare b a <> Gt.
Proof using Type*. unfold Cache.compareKeys. apply collation_total. Qed.

Lemma compareKeys_trans {V : Type} (a b c : string * V) :
  Cache.compareKeys localeCompare a b <> Gt -> Cache.compareKeys localeCompare b c <> Gt ->
  Cache.compareKeys localeCompare a c <> Gt.
Proof using Type*. unfold Cache.compareKeys. apply collation_trans. Qed.

Lemma compareParams_total a b :
  TmdbProxy.compareParams localeCompare a b = Gt ->
  TmdbProxy.compareParams localeCompare b a <> Gt.
Proof using Type*.
  unfold TmdbProxy.compareParams. rewrite (String.eqb_sym b.1 a.1).
  destruct (String.eqb a.1 b.1); apply collation_total.
Qed.

Lemma compareParams_both a b :
  TmdbProxy.compareParams localeCompare a b <> Gt ->
  TmdbProxy.compareParams localeCompare b a <> Gt ->
  TmdbProxy.compareParams localeCompare a b = Eq.
Proof using Type*.
  unfold TmdbProxy.compareParams. rewrite (String.eqb_sym b.1 a.1).
  destruct (String.eqb a.1 b.1); apply collation_both.
Qed.

(** Among entries that it tells apart, the comparator of
    [normalizeTmdbParams] is transitive. *)
Lemma compareParams_trans_on l a b c :
  tellsApart (TmdbProxy.compareParams localeCompare) l ->
  In a l -> In b l -> In c l ->
  TmdbProxy.compareParams localeCompare a b <> Gt ->
  TmdbProxy.compareParams localeCompare b c <> Gt ->
  TmdbProxy.compareParams localeCompare a c <> Gt.
Proof using Type*.
  intros Hapart Ha Hb Hc H1 H2.
  destruct (String.eqb_spec a.1 c.1) as [Hac|Hac];
    destruct (String.eqb_spec a.1 b.1) as [Hab|Hab].
  - (* the three keys are the same *)
    revert H1 H2. unfold TmdbProxy.compareParams.
    rewrite <- Hab, Hac, String.eqb_refl. apply collation_trans.
  - (* [a] and [c] share a key that [b] does not have *)
    exfalso. apply Hab. f_equal. apply Hapart; [done..|].
    apply compareParams_both; [exact H1|].
    revert H1 H2. unfold TmdbProxy.compareParams. rewrite <- Hac, (String.eqb_sym b.1 a.1).
    destruct (String.eqb_spec a.1 b.1); done.
  - revert H1 H2. unfold TmdbProxy.compareParams.
    rewrite <- Hab. destruct (String.eqb_spec a.1 c.1); [done|]. by intros _.
  - revert H1 H2. unfold TmdbProxy.compareParams.
    destruct (String.eqb_spec a.1 b.1); [done|]. destruct (String.eqb_spec a.1 c.1); [done|].
    destruct (String.eqb_spec b.1 c.1) as [<-|_]; [done|]. apply collation_trans.
Qed.

(** The object case as the source writes it: sort the entries by key,
    then serialize each value. *)
Lemma serializePart_object_as_written props :
  Cache.serializePart localeCompare (Cache.PObj props)
  = Cache.join ","
      (map (fun kv => kv.1 +:+ ":" +:+ Cache.serializePart localeCompare kv.2)
         (Cache.stableSort (Cache.compareKeys localeCompare) props)).
Proof.
  cbn [Cache.serializePart]. f_equal.
  set (g := fun kv : string * Cache.part => (kv.1, Cache.serializePart localeCompare kv.2)).
  assert (Hins : forall x l,
            Cache.insertSorted (Cache.compareKeys localeCompare) (g x) (map g l)
            = map g (Cache.insertSorted (Cache.compareKeys localeCompare) x l)).
  { intros x l. induction l as [|y l IH]; cbn; [done|].
    change (Cache.compareKeys localeCompare (g x) (g y))
      with (Cache.compareKeys localeCompare x y).
    destruct (Cache.compareKeys localeCompare x y); cbn; [done|done|].
    by rewrite IH. }
  assert (Hsort : Cache.stableSort (Cache.compareKeys localeCompare) (map g props)
                  = map g (Cache.stableSort (Cache.compareKeys localeCompare) props)).
  { induction props as [|x l IH]; cbn; [done|].
    unfold Cache.stableSort in IH. rewrite IH. apply Hins. }
  rewrite Hsort, map_map. reflexivity.
Qed.

(** An object whose keys the comparison tells apart serializes by its
    set of (key, serialized value) pairs: property order does not
    matter. *)
Lemma serializePart_object_order props1 props2 :
  NoDup (map fst props1) ->
  tellsApart localeCompare (map fst props1) ->
  Permutation (map (fun kv => (kv.1, Cache.serializePart localeCompare kv.2)) props1)
              (map (fun kv => (kv.1, Cache.serializePart localeCompare kv.2)) props2) ->
  Cache.serializePart localeCompare (Cache.PObj props1)
  = Cache.serializePart localeCompare (Cache.PObj props2).
Proof using Type*.
  intros Hnd Hapart Hp. cbn [Cache.serializePart]. do 2 f_equal.
  apply stableSort_perm_eq; [apply compareKeys_total | apply compareKeys_trans | | exact Hp].
  intros [ka sa] [kb sb] Ha Hb H1 H2.
  apply in_map_iff in Ha as ([ka' va] & Hea & Ha).
  apply in_map_iff in Hb as ([kb' vb] & Heb & Hb).
  cbn in Hea, Heb. injection Hea as -> <-. injection Heb as -> <-.
  assert (ka = kb) as <-.
  { apply Hapart.
    - apply in_map_iff. by exists (ka, va).
    - apply in_map_iff. by exists (kb, vb).
    - by apply collation_both. }
  do 2 f_equal.
  clear -Hnd Ha Hb. induction props1 as [|[k v] props1 IH]; [done|].
  cbn in Hnd. apply NoDup_cons in Hnd as [Hnotin Hnd].
  destruct Ha as [Ha|Ha], Hb as [Hb|Hb].
  - congruence.
  - exfalso. apply Hnotin. injection Ha as -> _.
    apply list_elem_of_In, in_map_iff. by exists (ka, vb).
  - exfalso. apply Hnotin. injection Hb as -> _.
    apply list_elem_of_In, in_map_iff. by exists (ka, va).
  - by apply IH.
Qed.

Lemma normalizeTmdbParams_keyed params1 params2 :
  tellsApart (TmdbProxy.compareParams localeCompare) (keyedParams params1) ->
  Permutation (keyedParams params1) (keyedParams params2) ->
  TmdbProxy.normalizeTmdbParams localeCompare (Some params1)
  = TmdbProxy.normalizeTmdbParams localeCompare (Some params2).
Proof using Type*.
  intros Hapart Hp. unfold TmdbProxy.normalizeTmdbParams.
  apply (stableSort_perm_eq_on _ (fun a => In a (keyedParams params1)));
    [apply compareParams_total | | | | exact Hp].
  - intros a b c. by apply compareParams_trans_on.
  - by apply List.Forall_forall.
  - intros a b Ha Hb H1 H2. apply Hapart; [done..|]. by apply compareParams_both.
Qed.

End KeyDeterminism.

Lemma keyedParams_perm params1 params2 :
  Permutation params1 params2 -> Permutation (keyedParams params1) (keyedParams params2).
Proof.
  unfold keyedParams.
  induction 1; cbn; repeat case_match; first [by econstructor | by etrans].
Qed.

Lemma keyedParams_credential before after k1 k2 :
  keyedParams (before ++ ("api_key"%string, k1) :: after)
  = keyedParams (before ++ ("api_key"%string, k2) :: after).
Proof. unfold keyedParams. by rewrite !List.filter_app. Qed.

(** Parameter sets with the same keyed entries in the same order have
    the same key, whatever the comparison function is. *)
Lemma tmdbCacheId_keyed localeCompare path params1 params2 :
  keyedParams params1 = keyedParams params2 ->
  TmdbProxy.tmdbCacheId localeCompare path (Some params1)
  = TmdbProxy.tmdbCacheId localeCompare path (Some params2).
Proof.
  intros H. unfold TmdbProxy.tmdbCacheId, TmdbProxy.tmdbCacheKeyParts,
    TmdbProxy.normalizeTmdbParams.
  fold (keyedParams params1). fold (keyedParams params2). by rewrite H.
Qed.

Lemma Collation_String_compare : Collation String.compare.
Proof.
  split.
  - intros a b. apply String.compare_antisym.
  - intros a b c Hab Hbc Hac.
    assert (Hlt : forall x y, String.compare x y <> Gt -> x = y \/ String_as_OT.lt x y).
    { intros x y H. destruct (String.compare x y) eqn:E; [| |done].
      - left. by apply String.compare_eq_iff.
      - right. by apply String_as_OT.cmp_lt. }
    assert (Hca : String_as_OT.lt c a).
    { apply String_as_OT.cmp_lt. unfold String_as_OT.cmp.
      rewrite String.compare_antisym, Hac. done. }
    destruct (Hlt _ _ Hab) as [->|H1], (Hlt _ _ Hbc) as [->|H2].
    + by apply String_as_OT.lt_not_eq in Hca.
    + eapply String_as_OT.lt_not_eq; [eapply String_as_OT.lt_trans; eauto | done].
    + eapply String_as_OT.lt_not_eq; [eapply String_as_OT.lt_trans; eauto | done].
    + eapply String_as_OT.lt_not_eq;
        [eapply String_as_OT.lt_trans; [exact H1|];
         eapply String_as_OT.lt_trans; [exact H2 | exact Hca] | done].
Qed.

(** A comparison that takes the two spellings of an accented letter for
    the same string is still a consistent comparison. *)
Lemma Collation_canonicalCompare : Collation canonicalCompare.
Proof.
  pose proof Collation_String_compare as [Hantisym Htrans].
  split; unfold canonicalCompare.
  - intros a b. apply Hantisym.
  - intros a b c. apply Htrans.
Qed.

(** C4, as stated, fails on two counts.  A [URLSearchParams]
    given as a key part yields different keys for two orders of the same
    entries, whatever [localeCompare] is.  And when [localeCompare] returns
    0 for the two spellings of an accented letter, as it does for
    canonically equivalent strings, the stable sorts leave two entries so
    named in the order of the request: the same request parameters in two
    orders, and the same object with its properties in two orders, yield
    different keys. *)
Theorem cache_key_depends_on_order :
  (forall localeCompare,
      Cache.buildCacheId localeCompare
        (Cache.PArr [Cache.PStr "tmdb"; Cache.PStr "/3/discover/movie";
                     Cache.PParams [("page", "1"); ("language", "en-US")]%string])
      <> Cache.buildCacheId localeCompare
           (Cache.PArr [Cache.PStr "tmdb"; Cache.PStr "/3/discover/movie";
                        Cache.PParams [("language", "en-US"); ("page", "1")]%string]))
  /\ (forall localeCompare,
      localeCompare eAcuteComposed eAcuteDecomposed = Eq ->
      localeCompare eAcuteDecomposed eAcuteComposed = Eq ->
      TmdbProxy.tmdbCacheId localeCompare (Some "/3/discover/movie"%string)
        (Some [(eAcuteComposed, "1"%string); (eAcuteDecomposed, "2"%string)])
      <> TmdbProxy.tmdbCacheId localeCompare (Some "/3/discover/movie"%string)
           (Some [(eAcuteDecomposed, "2"%string); (eAcuteComposed, "1"%string)])
      /\ Cache.buildCacheId localeCompare
           (Cache.PObj [(eAcuteComposed, Cache.PNum 1); (eAcuteDecomposed, Cache.PNum 2)])
         <> Cache.buildCacheId localeCompare
              (Cache.PObj [(eAcuteDecomposed, Cache.PNum 2); (eAcuteComposed, Cache.PNum 1)]))
  /\ canonicalCompare eAcuteComposed eAcuteDecomposed = Eq
  /\ canonicalCompare eAcuteDecomposed eAcuteComposed = Eq.
Proof.
  split; [|split; [|split; reflexivity]].
  - intros localeCompare. vm_compute. discriminate.
  - intros localeCompare H1 H2.
    assert (Hparams1 :
              TmdbProxy.normalizeTmdbParams localeCompare
                (Some [(eAcuteComposed, "1"%string); (eAcuteDecomposed, "2"%string)])
              = [(eAcuteComposed, "1"%string); (eAcuteDecomposed, "2"%string)]).
    { unfold TmdbProxy.normalizeTmdbParams, Cache.stableSort.
      cbn [List.filter fst snd negb String.eqb Ascii.eqb Bool.eqb eAcuteComposed
           eAcuteDecomposed fold_right Cache.insertSorted].
      unfold TmdbProxy.compareParams. cbn [fst snd].
      change (String.eqb eAcuteComposed eAcuteDecomposed) with false.
      cbv iota. by rewrite H1. }
    assert (Hparams2 :
              TmdbProxy.normalizeTmdbParams localeCompare
                (Some [(eAcuteDecomposed, "2"%string); (eAcuteComposed, "1"%string)])
              = [(eAcuteDecomposed, "2"%string); (eAcuteComposed, "1"%string)]).
    { unfold TmdbProxy.normalizeTmdbParams, Cache.stableSort.
      cbn [List.filter fst snd negb String.eqb Ascii.eqb Bool.eqb eAcuteComposed
           eAcuteDecomposed fold_right Cache.insertSorted].
      unfold TmdbProxy.compareParams. cbn [fst snd].
      change (String.eqb eAcuteDecomposed eAcuteComposed) with false.
      cbv iota. by rewrite H2. }
    split.
    + unfold TmdbProxy.tmdbCacheId, TmdbProxy.tmdbCacheKeyParts.
      rewrite Hparams1, Hparams2. vm_compute. discriminate.
    + unfold Cache.buildCacheId. cbn [Cache.serializePart map Cache.stableSort fold_right
                                        Cache.insertSorted fst snd].
      unfold Cache.compareKeys. cbn [fst snd]. rewrite H1, H2. vm_compute. discriminate.
Qed.

(** C4 (amended): what the cache key depends on.  For a [localeCompare]
    that is a consistent comparison: (1) an object given as a key part,
    alone or inside the part list, yields the same key whatever the order
    of its properties, provided [localeCompare] returns 0 for no two
    different keys of the object; (2) upstream request parameter sets
    with the same entries other than [api_key], in any order, yield the
    same key, provided the comparator of [normalizeTmdbParams] returns 0
    for no two different entries of the set.  For any [localeCompare] at
    all: (3) parameter sets that differ only in their [api_key] entries
    (value, presence or position) yield the same key; (4) a
    [URLSearchParams] given as a key part is serialized as it stands, in
    its own order and with its [api_key]: two of them yield the same key
    exactly when their entries, written [key=value] and joined by [&],
    are the same string. *)
Theorem cache_key_deterministic (localeCompare : string -> string -> comparison) :
  (Collation localeCompare ->
   (forall before after props1 props2,
      NoDup (map fst props1) ->
      tellsApart localeCompare (map fst props1) ->
      Permutation (map (fun kv => (kv.1, Cache.serializePart localeCompare kv.2)) props1)
                  (map (fun kv => (kv.1, Cache.serializePart localeCompare kv.2)) props2) ->
      Cache.buildCacheId localeCompare (Cache.PArr (before ++ Cache.PObj props1 :: after))
      = Cache.buildCacheId localeCompare (Cache.PArr (before ++ Cache.PObj props2 :: after))
      /\ Cache.buildCacheId localeCompare (Cache.PObj props1)
         = Cache.buildCacheId localeCompare (Cache.PObj props2))
   /\ (forall props1 props2,
      NoDup (map fst props1) ->
      tellsApart localeCompare (map fst props1) ->
      Permutation props1 props2 ->
      Cache.buildCacheId localeCompare (Cache.PObj props1)
      = Cache.buildCacheId localeCompare (Cache.PObj props2))
   /\ (forall path params1 params2,
      tellsApart (TmdbProxy.compareParams localeCompare) (keyedParams params1) ->
      Permutation (keyedParams params1) (keyedParams params2) ->
      TmdbProxy.tmdbCacheId localeCompare path (Some params1)
      = TmdbProxy.tmdbCacheId localeCompare path (Some params2))
   /\ (forall path params1 params2,
      tellsApart (TmdbProxy.compareParams localeCompare) (keyedParams params1) ->
      Permutation params1 params2 ->
      TmdbProxy.tmdbCacheId localeCompare path (Some params1)
      = TmdbProxy.tmdbCacheId localeCompare path (Some params2)))
  /\ (forall path params1 params2,
      keyedParams params1 = keyedParams params2 ->
      TmdbProxy.tmdbCacheId localeCompare path (Some params1)
      = TmdbProxy.tmdbCacheId localeCompare path (Some params2))
  /\ (forall path before after credential1 credential2,
      TmdbProxy.tmdbCacheId localeCompare path
        (Some (before ++ ("api_key"%string, credential1) :: after))
      = TmdbProxy.tmdbCacheId localeCompare path
          (Some (before ++ ("api_key"%string, credential2) :: after)))
  /\ (forall entries1 entries2,
      Cache.buildCacheId localeCompare (Cache.PParams entries1)
      = Cache.buildCacheId localeCompare (Cache.PParams entries2)
      <-> Cache.join "&" (map (fun kv => kv.1 +:+ "=" +:+ kv.2) entries1)
          = Cache.join "&" (map (fun kv => kv.1 +:+ "=" +:+ kv.2) entries2)).
Proof.
  split; [intros Hcoll|split; [|split]].
  - assert (Hobj : forall props1 props2,
        NoDup (map fst props1) ->
        tellsApart localeCompare (map fst props1) ->
        Permutation (map (fun kv => (kv.1, Cache.serializePart localeCompare kv.2)) props1)
                    (map (fun kv => (kv.1, Cache.serializePart localeCompare kv.2)) props2) ->
        Cache.serializePart localeCompare (Cache.PObj props1)
        = Cache.serializePart localeCompare (Cache.PObj props2))
      by (intros; by apply serializePart_object_order).
    assert (Hkeyed : forall path params1 params2,
        tellsApart (TmdbProxy.compareParams localeCompare) (keyedParams params1) ->
        Permutation (keyedParams params1) (keyedParams params2) ->
        TmdbProxy.tmdbCacheId localeCompare path (Some params1)
        = TmdbProxy.tmdbCacheId localeCompare path (Some params2)).
    { intros path params1 params2 Hapart Hp.
      unfold TmdbProxy.tmdbCacheId, TmdbProxy.tmdbCacheKeyParts.
      by rewrite (normalizeTmdbParams_keyed localeCompare params1 params2 Hapart Hp). }
    split; [|split; [|split]].
    + intros before after props1 props2 Hnd Hapart Hp. split.
      * unfold Cache.buildCacheId. rewrite !map_app. cbn [map].
        by rewrite (Hobj props1 props2).
      * unfold Cache.buildCacheId. by rewrite (Hobj props1 props2).
    + intros props1 props2 Hnd Hapart Hp. unfold Cache.buildCacheId.
      rewrite (Hobj props1 props2); [done | done | done | by apply Permutation_map].
    + exact Hkeyed.
    + intros path params1 params2 Hapart Hp. by apply Hkeyed, keyedParams_perm.
  - intros path params1 params2. apply tmdbCacheId_keyed.
  - intros path before after c1 c2. apply tmdbCacheId_keyed, keyedParams_credential.
  - intros entries1 entries2. rewrite !buildCacheId_base64url.
    change (joinedParts localeCompare (Cache.PParams entries1))
      with (Cache.join "&" (map (fun kv => kv.1 +:+ "=" +:+ kv.2) entries1)).
    change (joinedParts localeCompare (Cache.PParams entries2))
      with (Cache.join "&" (map (fun kv => kv.1 +:+ "=" +:+ kv.2) entries2)).
    split; [|by intros ->].
    intros H. apply bytesOf_inj, base64url_inj; [apply bytesOf_bounded ..|exact H].
Qed.

Lemma cache_key_deterministic_witness :
  Collation canonicalCompare
  /\ TmdbProxy.tmdbCacheId canonicalCompare (Some "/3/search/movie"%string)
       (Some [("query"%string, eAcuteComposed); ("api_key", "first-key");
              ("page", "1")]%string)
     = TmdbProxy.tmdbCacheId canonicalCompare (Some "/3/search/movie"%string)
         (Some [("page", "1"); ("query"%string, eAcuteComposed);
                ("api_key", "second-key")]%string)
  /\ Cache.buildCacheId canonicalCompare
       (Cache.PObj [("page"%string, Cache.PNum 1); ("language"%string, Cache.PStr "en-US")])
     = Cache.buildCacheId canonicalCompare
         (Cache.PObj [("language"%string, Cache.PStr "en-US"); ("page"%string, Cache.PNum 1)]).
Proof.
  destruct (cache_key_deterministic canonicalCompare) as [Hsorted _].
  destruct (Hsorted Collation_canonicalCompare) as (_ & Hobject & Hkeyed & _).
  split; [exact Collation_canonicalCompare|]. split.
  - apply Hkeyed; [|vm_compute; apply perm_swap].
    intros a b Ha Hb. vm_compute in Ha, Hb.
    destruct Ha as [<-|[<-|[]]], Hb as [<-|[<-|[]]]; vm_compute; congruence.
  - apply Hobject; [apply (bool_decide_unpack _); vm_compute; reflexivity | | apply perm_swap].
    intros a b Ha Hb. vm_compute in Ha, Hb.
    destruct Ha as [<-|[<-|[]]], Hb as [<-|[<-|[]]]; vm_compute; congruence.
Defined.
